(** * pi-rewind-hook: the checkpoint engine of [index.ts]

    A shallow embedding of the rewind extension ([src/index.ts]) and of the
    part of git it drives, followed by the properties of the checkpoint
    life cycle: ref naming, rebuilding the checkpoint map, pruning, the
    restore protocol with its single undo slot, and the turn handlers.

    JavaScript strings are modelled by [string] (one [ascii] per code unit,
    so the model covers code units below 256), numbers used as time stamps
    by [N], [Map<string,string>] by [gmap string string]. *)

From Stdlib Require Import NArith ZArith Ascii String DecimalString DecimalN.
From stdpp Require Import base option list sorting strings gmap fin_maps.

Local Open Scope string_scope.
Local Open Scope list_scope.

(** ** String primitives of the host language *)

Module Js.

Definition charCode (c : ascii) : N := N_of_ascii c.

Definition between (lo hi : N) (c : ascii) : bool :=
  (lo <=? charCode c)%N && (charCode c <=? hi)%N.

(** [\d] *)
Definition isDigit (c : ascii) : bool := between 48 57 c.

(** the class [[a-zA-Z0-9-]] *)
Definition isRefSafe (c : ascii) : bool :=
  between 97 122 c || between 65 90 c || between 48 57 c || (charCode c =? 45)%N.

(** white space removed by [trim()]: TAB, LF, VT, FF, CR, space and the
    no-break space *)
Definition isSpace (c : ascii) : bool :=
  between 9 13 c || (charCode c =? 32)%N || (charCode c =? 160)%N.

(** line terminators, which [.] does not match: LF and CR *)
Definition isLineTerminator (c : ascii) : bool :=
  (charCode c =? 10)%N || (charCode c =? 13)%N.

Definition isEmpty (s : string) : bool :=
  match s with EmptyString => true | String _ _ => false end.

(** truthiness of a string: [Boolean(s)], [!s], [if (s)] *)
Definition truthy (s : string) : bool := negb (isEmpty s).

Fixpoint forallb (p : ascii -> bool) (s : string) : bool :=
  match s with
  | EmptyString => true
  | String c s' => p c && forallb p s'
  end.

Fixpoint mapChars (f : ascii -> ascii) (s : string) : string :=
  match s with
  | EmptyString => EmptyString
  | String c s' => String (f c) (mapChars f s')
  end.

Fixpoint drop (n : nat) (s : string) : string :=
  match n, s with
  | O, _ => s
  | S _, EmptyString => EmptyString
  | S n', String _ s' => drop n' s'
  end.

(** [s.startsWith(p)] *)
Fixpoint startsWith (s p : string) {struct p} : bool :=
  match p, s with
  | EmptyString, _ => true
  | String _ _, EmptyString => false
  | String a p', String b s' => Ascii.eqb a b && startsWith s' p'
  end.

(** [s.includes(sub)] *)
Fixpoint includes (s sub : string) {struct s} : bool :=
  startsWith s sub ||
  match s with
  | EmptyString => false
  | String _ s' => includes s' sub
  end.

(** [s.replace(pat, r)] for a string pattern: the first occurrence only *)
Fixpoint replace (s pat r : string) {struct s} : string :=
  if startsWith s pat then r +:+ drop (String.length pat) s
  else match s with
       | EmptyString => EmptyString
       | String c s' => String c (replace s' pat r)
       end.

Fixpoint trimStart (s : string) : string :=
  match s with
  | EmptyString => EmptyString
  | String c s' => if isSpace c then trimStart s' else s
  end.

Fixpoint trimEnd (s : string) : string :=
  match s with
  | EmptyString => EmptyString
  | String c s' =>
      match trimEnd s' with
      | EmptyString => if isSpace c then EmptyString else String c EmptyString
      | t => String c t
      end
  end.

(** [s.trim()] *)
Definition trim (s : string) : string := trimEnd (trimStart s).

(** [s.split(sep)] for a one-character separator *)
Fixpoint split (sep : ascii) (s : string) : list string :=
  match s with
  | EmptyString => [EmptyString]
  | String c s' =>
      if Ascii.eqb c sep then EmptyString :: split sep s'
      else match split sep s' with
           | [] => [String c EmptyString]
           | h :: t => String c h :: t
           end
  end.

(** [xs.filter(Boolean)] on an array of strings *)
Definition filterBoolean (xs : list string) : list string :=
  filter (fun x => truthy x = true) xs.

(** [`${n}`] for a non-negative integer below 1e21 *)
Definition decimal (n : N) : string := NilZero.string_of_uint (N.to_uint n).

(** a non-empty string without white space *)
Definition isToken (s : string) : bool :=
  truthy s && forallb (fun c => negb (isSpace c)) s.

(** the longest prefix matched by [\d*], and what follows it *)
Fixpoint spanDigits (s : string) : string * string :=
  match s with
  | EmptyString => (EmptyString, EmptyString)
  | String c s' =>
      if isDigit c then
        let '(d, r) := spanDigits s' in (String c d, r)
      else (EmptyString, s)
  end.

End Js.

Definition LF : ascii := ascii_of_nat 10.
Definition SP : ascii := " "%char.

(** ** Constants of the extension *)

Definition REF_PREFIX : string := "refs/pi-checkpoints/".
Definition BEFORE_RESTORE_PREFIX : string := "before-restore-".
Definition MAX_CHECKPOINTS : nat := 100.
Definition STATUS_KEY : string := "rewind".

(** [id.replace(/[^a-zA-Z0-9-]/g, "_")] *)
Definition sanitizeForRef (id : string) : string :=
  Js.mapChars (fun c => if Js.isRefSafe c then c else "_"%char) id.

(** [checkpointId.match(/^checkpoint-(\d+)-(.+)$/)]: the two groups.
    [\d+] is greedy and the character after it must be [-], so the first
    group is the whole run of digits; the second group is the non-empty
    remainder, free of line terminators. *)
Definition matchCheckpoint (checkpointId : string) : option (string * string) :=
  if Js.startsWith checkpointId "checkpoint-" then
    match Js.spanDigits (Js.drop 11 checkpointId) with
    | (String d ds, String "-" entry) =>
        if Js.truthy entry && Js.forallb (fun c => negb (Js.isLineTerminator c)) entry
        then Some (String d ds, entry)
        else None
    | _ => None
    end
  else None.

(** ** A model of the repository

    The part of git the extension drives.  A commit carries the tree it
    snapshots and its committer date in seconds; object names are
    content-addressed: committing the same tree at the same date again
    yields the same name.  The object name of [objects !! i] is the decimal
    numeral of [i].  A worktree and a tree map the paths of their files,
    relative to the top level, to contents; a directory is there through
    the files below it.  The commands of [pi.exec] run in the directory
    [cwd]; the snapshot commands of [captureWorktree] run at the top
    level. *)

Record Commit := { tree : gmap string string; cdate : N }.

Global Instance Commit_eq_dec : EqDecision Commit.
Proof. solve_decision. Defined.

Record Git := {
  insideWorkTree : bool;
  toplevel : string;
  cwd : string;                       (* the directory the host runs in, relative to
                                         the top level: empty, or ending in a slash *)
  worktree : gmap string string;      (* path (relative to the top level) to content *)
  ignored : string -> bool;           (* paths excluded by the ignore rules *)
  objects : list Commit;
  refs : gmap string string;          (* ref name to object name *)
}.

(** what [for-each-ref] knows about a ref *)
Record RefInfo := { refname : string; objectname : string; creatordate : N }.

Module Git.

Definition shaOf (i : nat) : string := Js.decimal (N.of_nat i).

Fixpoint findObject (sha : string) (i : nat) (objs : list Commit) : option Commit :=
  match objs with
  | [] => None
  | c :: objs' => if String.eqb (shaOf i) sha then Some c else findObject sha (S i) objs'
  end.

Fixpoint indexOf (c : Commit) (i : nat) (objs : list Commit) : option nat :=
  match objs with
  | [] => None
  | c' :: objs' => if decide (c' = c) then Some i else indexOf c (S i) objs'
  end.

Definition catFile (g : Git) (sha : string) : option Commit :=
  findObject sha 0 (objects g).

(** a revision is a ref name or an object name *)
Definition revParse (g : Git) (rev : string) : option Commit :=
  match refs g !! rev with
  | Some sha => catFile g sha
  | None => catFile g rev
  end.

Definition setObjects (objs : list Commit) (g : Git) : Git :=
  {| insideWorkTree := insideWorkTree g; toplevel := toplevel g; cwd := cwd g;
     worktree := worktree g; ignored := ignored g;
     objects := objs; refs := refs g |}.

Definition setRefs (r : gmap string string) (g : Git) : Git :=
  {| insideWorkTree := insideWorkTree g; toplevel := toplevel g; cwd := cwd g;
     worktree := worktree g; ignored := ignored g;
     objects := objects g; refs := r |}.

Definition setWorktree (w : gmap string string) (g : Git) : Git :=
  {| insideWorkTree := insideWorkTree g; toplevel := toplevel g; cwd := cwd g;
     worktree := w; ignored := ignored g;
     objects := objects g; refs := refs g |}.

(** [git add -A] into an empty index followed by [git write-tree]: every
    file of the worktree that the ignore rules do not exclude *)
Definition snapshot (g : Git) : gmap string string :=
  filter (fun kv => ignored g kv.1 = false) (worktree g).

(** [git commit-tree]: store the commit, answer its object name *)
Definition commitTree (c : Commit) (g : Git) : string * Git :=
  match indexOf c 0 (objects g) with
  | Some i => (shaOf i, g)
  | None => (shaOf (length (objects g)), setObjects (objects g ++ [c]) g)
  end.

(** [strcmp(a, b) <= 0] *)
Fixpoint strLeb (a b : string) : bool :=
  match a, b with
  | EmptyString, _ => true
  | String _ _, EmptyString => false
  | String x a', String y b' =>
      if (Js.charCode x <? Js.charCode y)%N then true
      else if (Js.charCode x =? Js.charCode y)%N then strLeb a' b'
      else false
  end.

(** [--sort=creatordate]: oldest first, equal dates ordered by ref name *)
Definition olderFirst (a b : RefInfo) : Prop :=
  (creatordate a < creatordate b)%N \/
  (creatordate a = creatordate b /\ strLeb (refname a) (refname b) = true).

(** [--sort=-creatordate]: newest first, equal dates ordered by ref name *)
Definition newerFirst (a b : RefInfo) : Prop :=
  (creatordate b < creatordate a)%N \/
  (creatordate a = creatordate b /\ strLeb (refname a) (refname b) = true).

Global Instance olderFirst_dec a b : Decision (olderFirst a b).
Proof. unfold olderFirst. apply _. Defined.

Global Instance newerFirst_dec a b : Decision (newerFirst a b).
Proof. unfold newerFirst. apply _. Defined.

Definition refInfo (g : Git) (kv : string * string) : RefInfo :=
  {| refname := kv.1; objectname := kv.2;
     creatordate := match catFile g kv.2 with Some c => cdate c | None => 0%N end |}.

Definition refInfos (g : Git) : list RefInfo :=
  refInfo g <$> map_to_list (refs g).

Fixpoint stripStar (pat : string) : option string :=
  match pat with
  | EmptyString => None
  | String c EmptyString => if Ascii.eqb c "*" then Some EmptyString else None
  | String c pat' => String c <$> stripStar pat'
  end.

Fixpoint endsWithSlash (pat : string) : bool :=
  match pat with
  | EmptyString => false
  | String c EmptyString => Ascii.eqb c "/"
  | String _ pat' => endsWithSlash pat'
  end.

(** the patterns of [for-each-ref]: a trailing [*] matches within one path
    component; any other pattern matches the ref itself or the refs below
    it *)
Definition refMatches (pat name : string) : bool :=
  match stripStar pat with
  | Some base =>
      Js.startsWith name base &&
      negb (Js.includes (Js.drop (String.length base) name) "/")
  | None =>
      String.eqb name pat ||
      Js.startsWith name (if endsWithSlash pat then pat else pat +:+ "/")
  end.

Fixpoint unlines (ls : list string) : string :=
  match ls with
  | [] => EmptyString
  | l :: ls' => l +:+ String LF (unlines ls')
  end.

Definition fmtRefname (r : RefInfo) : string := refname r.

Definition fmtRefnameObjectname (r : RefInfo) : string :=
  refname r +:+ String SP (objectname r).

Definition listAscending (pat : string) (g : Git) : list RefInfo :=
  merge_sort olderFirst (filter (fun r => refMatches pat (refname r) = true) (refInfos g)).

Definition listDescending (pat : string) (g : Git) : list RefInfo :=
  merge_sort newerFirst (filter (fun r => refMatches pat (refname r) = true) (refInfos g)).

(** the ref names [update-ref] accepts: no white space, below [refs/] *)
Definition validRefName (n : string) : bool :=
  Js.isToken n && Js.startsWith n "refs/".

(** the entries of a tree below the directory [dir] *)
Definition below (dir : string) (t : gmap string string) : gmap string string :=
  filter (fun kv => Js.startsWith kv.1 dir = true) t.

(** two paths of which one is a directory above the other: they cannot both
    be files *)
Definition clashes (p q : string) : bool :=
  Js.startsWith q (p +:+ "/") || Js.startsWith p (q +:+ "/").

(** the path [p] is in the way of a file of [t] *)
Definition displaced (t : gmap string string) (p : string) : bool :=
  existsb (fun kv => clashes p kv.1) (map_to_list t).

(** the files of [t] written over the worktree [w]: a file of [w] where [t]
    has a directory, and the files of [w] below a directory where [t] has a
    file, are removed; the other files of [w] stay *)
Definition overlay (t w : gmap string string) : gmap string string :=
  t ∪ filter (fun kv => displaced t kv.1 = false) w.

(** [git checkout <rev> -- .] for a revision with the tree [t]: the pathspec
    is the current directory, so the files of [t] below it are written over
    the worktree; git fails when the tree has no file there *)
Definition checkoutPaths (t : gmap string string) (g : Git) : option Git :=
  let t' := below (cwd g) t in
  if decide (t' = ∅) then None
  else Some (setWorktree (overlay t' (worktree g)) g).

Definition checkout (rev : string) (g : Git) : option Git :=
  match revParse g rev with
  | Some commit => checkoutPaths (tree commit) g
  | None => None
  end.

(** One git command: its standard output and the repository after it, or
    [None] when git exits with an error. *)
Definition run (args : list string) (g : Git) : option (string * Git) :=
  if negb (insideWorkTree g) then None else
  match args with
  | [cmd; a] =>
      if String.eqb cmd "rev-parse" && String.eqb a "--is-inside-work-tree"
      then Some ("true" +:+ String LF "", g)
      else if String.eqb cmd "rev-parse" && String.eqb a "--show-toplevel"
      then Some (toplevel g +:+ String LF "", g)
      else None
  | [cmd; a; b] =>
      if String.eqb cmd "update-ref" && String.eqb a "-d"
      then Some ("", setRefs (delete b (refs g)) g)
      else if String.eqb cmd "update-ref" && validRefName a
      then match catFile g b with
           | Some _ => Some ("", setRefs (<[a := b]> (refs g)) g)
           | None => None
           end
      else None
  | [cmd; a; b; c] =>
      if String.eqb cmd "for-each-ref" && String.eqb a "--sort=creatordate"
         && String.eqb b "--format=%(refname)"
      then Some (unlines (fmtRefname <$> listAscending c g), g)
      else if String.eqb cmd "checkout" && String.eqb b "--" && String.eqb c "."
      then match checkout a g with
           | Some g' => Some ("", g')
           | None => None
           end
      else None
  | [cmd; a; b; c; d] =>
      if String.eqb cmd "for-each-ref" && String.eqb a "--sort=-creatordate"
         && String.eqb b "--count=1"
         && String.eqb c "--format=%(refname) %(objectname)"
      then Some (unlines (fmtRefnameObjectname <$> take 1 (listDescending d g)), g)
      else None
  | _ => None
  end.

End Git.

(** ** The state of the extension and of its environment *)

Inductive Level := info | warning | error.

(** the pending checkpoint: a worktree snapshot waiting for its entry id *)
Record Pending := { commitSha : string; timestamp : N }.

(** a command handed to the operating system: through the host's [pi.exec],
    or the three [execAsync] commands of [captureWorktree] that build a
    commit from the worktree on a throw-away index *)
Inductive Call := PiExec (args : list string) | ExecAsyncSnapshot.

(** how a command ended: it ran; it exited with an error reported in the
    [code] of the result; its promise was rejected *)
Inductive Fate := Ran | ExitedNonZero | Rejected.

Global Instance Fate_eq_dec : EqDecision Fate.
Proof. solve_decision. Defined.

Record St := {
  (* the closure variables of the extension *)
  checkpoints : gmap string string;
  resumeCheckpoint : option string;
  repoRoot : option string;
  isGitRepo : bool;
  pendingCheckpoint : option Pending;
  (* the environment *)
  git : Git;
  clock : N;                (* [Date.now()], milliseconds *)
  faults : list bool;       (* for each coming command: does it fail? *)
  rejecting : bool;         (* does [pi.exec] reject when a command fails? *)
  trace : list (Call * Fate);
  (* what the user interface was told *)
  status : option string;
  notifications : list (string * Level);
  menus : list (list string);
}.

Definition setCheckpoints (m : gmap string string) (s : St) : St :=
  {| checkpoints := m; resumeCheckpoint := resumeCheckpoint s; repoRoot := repoRoot s;
     isGitRepo := isGitRepo s; pendingCheckpoint := pendingCheckpoint s; git := git s;
     clock := clock s; faults := faults s; rejecting := rejecting s; trace := trace s;
     status := status s; notifications := notifications s; menus := menus s |}.

Definition setResumeCheckpoint (r : option string) (s : St) : St :=
  {| checkpoints := checkpoints s; resumeCheckpoint := r; repoRoot := repoRoot s;
     isGitRepo := isGitRepo s; pendingCheckpoint := pendingCheckpoint s; git := git s;
     clock := clock s; faults := faults s; rejecting := rejecting s; trace := trace s;
     status := status s; notifications := notifications s; menus := menus s |}.

Definition setRepoRoot (r : option string) (s : St) : St :=
  {| checkpoints := checkpoints s; resumeCheckpoint := resumeCheckpoint s; repoRoot := r;
     isGitRepo := isGitRepo s; pendingCheckpoint := pendingCheckpoint s; git := git s;
     clock := clock s; faults := faults s; rejecting := rejecting s; trace := trace s;
     status := status s; notifications := notifications s; menus := menus s |}.

Definition setIsGitRepo (b : bool) (s : St) : St :=
  {| checkpoints := checkpoints s; resumeCheckpoint := resumeCheckpoint s; repoRoot := repoRoot s;
     isGitRepo := b; pendingCheckpoint := pendingCheckpoint s; git := git s;
     clock := clock s; faults := faults s; rejecting := rejecting s; trace := trace s;
     status := status s; notifications := notifications s; menus := menus s |}.

Definition setPendingCheckpoint (p : option Pending) (s : St) : St :=
  {| checkpoints := checkpoints s; resumeCheckpoint := resumeCheckpoint s; repoRoot := repoRoot s;
     isGitRepo := isGitRepo s; pendingCheckpoint := p; git := git s;
     clock := clock s; faults := faults s; rejecting := rejecting s; trace := trace s;
     status := status s; notifications := notifications s; menus := menus s |}.

Definition setGit (g : Git) (s : St) : St :=
  {| checkpoints := checkpoints s; resumeCheckpoint := resumeCheckpoint s; repoRoot := repoRoot s;
     isGitRepo := isGitRepo s; pendingCheckpoint := pendingCheckpoint s; git := g;
     clock := clock s; faults := faults s; rejecting := rejecting s; trace := trace s;
     status := status s; notifications := notifications s; menus := menus s |}.

Definition setClock (t : N) (s : St) : St :=
  {| checkpoints := checkpoints s; resumeCheckpoint := resumeCheckpoint s; repoRoot := repoRoot s;
     isGitRepo := isGitRepo s; pendingCheckpoint := pendingCheckpoint s; git := git s;
     clock := t; faults := faults s; rejecting := rejecting s; trace := trace s;
     status := status s; notifications := notifications s; menus := menus s |}.

Definition setFaults (f : list bool) (s : St) : St :=
  {| checkpoints := checkpoints s; resumeCheckpoint := resumeCheckpoint s; repoRoot := repoRoot s;
     isGitRepo := isGitRepo s; pendingCheckpoint := pendingCheckpoint s; git := git s;
     clock := clock s; faults := f; rejecting := rejecting s; trace := trace s;
     status := status s; notifications := notifications s; menus := menus s |}.

Definition setTrace (t : list (Call * Fate)) (s : St) : St :=
  {| checkpoints := checkpoints s; resumeCheckpoint := resumeCheckpoint s; repoRoot := repoRoot s;
     isGitRepo := isGitRepo s; pendingCheckpoint := pendingCheckpoint s; git := git s;
     clock := clock s; faults := faults s; rejecting := rejecting s; trace := t;
     status := status s; notifications := notifications s; menus := menus s |}.

Definition setStatus (v : option string) (s : St) : St :=
  {| checkpoints := checkpoints s; resumeCheckpoint := resumeCheckpoint s; repoRoot := repoRoot s;
     isGitRepo := isGitRepo s; pendingCheckpoint := pendingCheckpoint s; git := git s;
     clock := clock s; faults := faults s; rejecting := rejecting s; trace := trace s;
     status := v; notifications := notifications s; menus := menus s |}.

Definition setNotifications (n : list (string * Level)) (s : St) : St :=
  {| checkpoints := checkpoints s; resumeCheckpoint := resumeCheckpoint s; repoRoot := repoRoot s;
     isGitRepo := isGitRepo s; pendingCheckpoint := pendingCheckpoint s; git := git s;
     clock := clock s; faults := faults s; rejecting := rejecting s; trace := trace s;
     status := status s; notifications := n; menus := menus s |}.

Definition setMenus (m : list (list string)) (s : St) : St :=
  {| checkpoints := checkpoints s; resumeCheckpoint := resumeCheckpoint s; repoRoot := repoRoot s;
     isGitRepo := isGitRepo s; pendingCheckpoint := pendingCheckpoint s; git := git s;
     clock := clock s; faults := faults s; rejecting := rejecting s; trace := trace s;
     status := status s; notifications := notifications s; menus := m |}.

(** ** Asynchronous code with exceptions, as a state monad *)

Inductive Completion (A : Type) := Normal (a : A) | Thrown (err : string).
Arguments Normal {A} a.
Arguments Thrown {A} err.

Definition M (A : Type) : Type := St -> Completion A * St.

Definition ret {A} (a : A) : M A := fun s => (Normal a, s).

Definition bind {A B} (m : M A) (k : A -> M B) : M B :=
  fun s => match m s with
           | (Normal a, s') => k a s'
           | (Thrown e, s') => (Thrown e, s')
           end.

Definition throw {A} (e : string) : M A := fun s => (Thrown e, s).

Definition gets {A} (f : St -> A) : M A := fun s => (Normal (f s), s).

Definition modify (f : St -> St) : M unit := fun s => (Normal tt, f s).

(** [try { body } catch (err) { handler }] *)
Definition tryCatch {A} (body : M A) (handler : string -> M A) : M A :=
  fun s => match body s with
           | (Normal a, s') => (Normal a, s')
           | (Thrown e, s') => handler e s'
           end.

(** [try { body } finally { final }] *)
Definition tryFinally {A} (body : M A) (final : M unit) : M A :=
  fun s => match body s with
           | (r, s') =>
               match final s' with
               | (Normal _, s'') => (r, s'')
               | (Thrown e, s'') => (Thrown e, s'')
               end
           end.

Notation "x <- m ;; k" := (bind m (fun x => k))
  (at level 100, m at next level, right associativity).
Notation "m ;;; k" := (bind m (fun _ => k))
  (at level 100, right associativity).

(** [for (const x of xs) { body }] *)
Fixpoint forOf {A} (xs : list A) (body : A -> M unit) : M unit :=
  match xs with
  | [] => ret tt
  | x :: xs' => body x ;;; forOf xs' body
  end.

(** the state a computation ends in, and its value when it completes *)
Definition exec_state {A} (m : M A) (s : St) : St := (m s).2.
Definition exec_value {A} (m : M A) (s : St) : option A :=
  match (m s).1 with Normal a => Some a | Thrown _ => None end.

(** ** Running commands *)

Record ExecResult := { stdout : string; stderr : string; code : N }.

(** the next entry of the fault schedule; an exhausted schedule means that
    no further command fails *)
Definition nextFault (s : St) : bool * St :=
  (hd false (faults s), setFaults (tl (faults s)) s).

Definition record (c : Call) (f : Fate) (s : St) : St :=
  setTrace (trace s ++ [(c, f)]) s.

(** [pi.exec("git", args)].  A command that fails leaves the repository as
    it is; the failure surfaces as a rejection or as a non-zero [code],
    depending on the host. *)
Definition exec (args : list string) : M ExecResult :=
  fun s =>
    let '(fail, s1) := nextFault s in
    match (if fail then None else Git.run args (git s1)) with
    | Some (out, g') =>
        (Normal {| stdout := out; stderr := ""; code := 0 |},
         record (PiExec args) Ran (setGit g' s1))
    | None =>
        if rejecting s1
        then (Thrown "Error: command failed", record (PiExec args) Rejected s1)
        else (Normal {| stdout := ""; stderr := "fatal"; code := 1 |},
              record (PiExec args) ExitedNonZero s1)
    end.

(** [execAsync("git add -A")], [execAsync("git write-tree")] and
    [execAsync("git commit-tree ...")] on the temporary index: together they
    commit a snapshot of the worktree, dated by the clock in seconds, without
    moving any ref.  [execAsync] rejects when a command fails. *)
Definition execAsyncSnapshot (root : string) : M string :=
  fun s =>
    let '(fail, s1) := nextFault s in
    if fail || negb (insideWorkTree (git s1))
    then (Thrown "Error: Command failed", record ExecAsyncSnapshot Rejected s1)
    else
      let c := {| tree := Git.snapshot (git s1); cdate := (clock s1 / 1000)%N |} in
      let '(sha, g') := Git.commitTree c (git s1) in
      (Normal sha, record ExecAsyncSnapshot Ran (setGit g' s1)).

(** ** The extension *)

(** an entry of the session, as far as the extension looks at it *)
Record Entry := { entry_id : string; entry_type : string; message_role : option string }.

(** the context handed to a handler: [ctx.hasUI], [ctx.sessionManager] and
    the answer of [ctx.ui.select("Restore Options", options)] *)
Record Ctx := {
  hasUI : bool;
  getLeafId : option string;
  getBranch : string -> list Entry;
  select : list string -> option string;
}.

Record TurnEvent := { turnIndex : Z; eventTimestamp : N }.

(** what [findBeforeRestoreRef] answers: [{ refName, commitSha }] *)
Record BackupRef := { refName : string; backupSha : string }.

(** the value a [session_before_*] handler resolves to: [undefined],
    [{ cancel: true }] or [{ skipConversationRestore: true }] *)
Inductive HandlerResult := Undefined | Cancel | SkipConversationRestore.

Definition truthyOpt (o : option string) : bool :=
  match o with Some s => Js.truthy s | None => false end.

(** [ctx.ui.notify(msg, level)] *)
Definition notify (msg : string) (level : Level) : M unit :=
  modify (fun s => setNotifications (notifications s ++ [(msg, level)]) s).

(** [ctx.ui.select("Restore Options", options)]: the menu is shown, the
    user answers *)
Definition uiSelect (ctx : Ctx) (options : list string) : M (option string) :=
  modify (fun s => setMenus (menus s ++ [options]) s) ;;;
  ret (select ctx options).

(** [result.stdout.trim().split("\n").filter(Boolean)] *)
Definition stdoutLines (result : ExecResult) : list string :=
  Js.filterBoolean (Js.split LF (Js.trim (stdout result))).

Definition updateStatus (ctx : Ctx) : M unit :=
  if negb (hasUI ctx) then ret tt else
  count <- gets (fun s => size (checkpoints s)) ;;
  modify (setStatus (Some ("◆ " +:+ Js.decimal (N.of_nat count) +:+ " checkpoint"
                           +:+ (if Nat.eqb count 1 then "" else "s")))).

Definition resetState : M unit :=
  modify (fun s =>
    setPendingCheckpoint None (setIsGitRepo false (setRepoRoot None
      (setResumeCheckpoint None (setCheckpoints ∅ s))))).

(** one round of the loop of [rebuildCheckpointsMap] *)
Definition rebuildOne (ref : string) : M unit :=
  let checkpointId := Js.replace ref REF_PREFIX "" in
  if negb (Js.startsWith checkpointId "checkpoint-") then ret tt
  else if Js.startsWith checkpointId "checkpoint-resume-" then ret tt
  else match matchCheckpoint checkpointId with
       | Some (_, entryId) =>
           modify (fun s => setCheckpoints (<[entryId := checkpointId]> (checkpoints s)) s)
       | None => ret tt
       end.

Definition rebuildCheckpointsMap (exec : list string -> M ExecResult) : M unit :=
  tryCatch
    (result <- exec ["for-each-ref"; "--sort=creatordate"; "--format=%(refname)"; REF_PREFIX] ;;
     let refs := stdoutLines result in
     forOf refs rebuildOne)
    (fun _ => ret tt).

Definition findBeforeRestoreRef (exec : list string -> M ExecResult) : M (option BackupRef) :=
  tryCatch
    (result <- exec ["for-each-ref"; "--sort=-creatordate"; "--count=1";
                     "--format=%(refname) %(objectname)";
                     REF_PREFIX +:+ BEFORE_RESTORE_PREFIX +:+ "*"] ;;
     let line := Js.trim (stdout result) in
     if negb (Js.truthy line) then ret None else
     match Js.split SP line with
     | p0 :: p1 :: _ =>
         if negb (Js.truthy p0) || negb (Js.truthy p1) then ret None
         else ret (Some {| refName := p0; backupSha := p1 |})
     | _ => ret None
     end)
    (fun _ => ret None).

Definition getRepoRoot (exec : list string -> M ExecResult) : M string :=
  cached <- gets repoRoot ;;
  if truthyOpt cached then ret (default "" cached) else
  result <- exec ["rev-parse"; "--show-toplevel"] ;;
  let root := Js.trim (stdout result) in
  modify (setRepoRoot (Some root)) ;;;
  ret root.

(** The temporary directory made by [mkdtemp] and removed in the [finally]
    holds the throw-away index and nothing else. *)
Definition captureWorktree (pi_exec : list string -> M ExecResult) : M string :=
  root <- getRepoRoot pi_exec ;;
  execAsyncSnapshot root.

Definition restoreWithBackup (pi_exec exec : list string -> M ExecResult)
    (targetRef : string) (notify : string -> Level -> M unit) : M bool :=
  tryCatch
    (existingBackup <- findBeforeRestoreRef exec ;;
     backupCommit <- captureWorktree pi_exec ;;
     now <- gets clock ;;
     let newBackupId := BEFORE_RESTORE_PREFIX +:+ Js.decimal now in
     exec ["update-ref"; REF_PREFIX +:+ newBackupId; backupCommit] ;;;
     match existingBackup with
     | Some b => exec ["update-ref"; "-d"; refName b] ;;; ret tt
     | None => ret tt
     end ;;;
     exec ["checkout"; targetRef; "--"; "."] ;;;
     ret true)
    (fun err => notify ("Failed to restore: " +:+ err) error ;;; ret false).

Definition createCheckpointFromWorktree (pi_exec exec : list string -> M ExecResult)
    (checkpointId : string) : M bool :=
  tryCatch
    (commitSha <- captureWorktree pi_exec ;;
     exec ["update-ref"; REF_PREFIX +:+ checkpointId; commitSha] ;;;
     ret true)
    (fun _ => ret false).

Definition isUserMessage (e : Entry) : bool :=
  String.eqb (entry_type e) "message" &&
  match message_role e with Some r => String.eqb r "user" | None => false end.

(** the last user message on the branch that ends at the leaf *)
Definition findUserMessageEntry (ctx : Ctx) : option Entry :=
  if negb (truthyOpt (getLeafId ctx)) then None
  else List.find isUserMessage (rev (getBranch ctx (default "" (getLeafId ctx)))).

Definition isTurnRef (r : string) : bool :=
  negb (Js.includes r BEFORE_RESTORE_PREFIX) && negb (Js.includes r "checkpoint-resume-").

(** one round of the loop of [pruneCheckpoints]: delete the ref, then drop
    its entry from the map if the map still points to it *)
Definition pruneOne (exec : list string -> M ExecResult) (ref : string) : M unit :=
  exec ["update-ref"; "-d"; ref] ;;;
  let checkpointId := Js.replace ref REF_PREFIX "" in
  match matchCheckpoint checkpointId with
  | Some (_, entryId) =>
      current <- gets (fun s => checkpoints s !! entryId) ;;
      if decide (current = Some checkpointId)
      then modify (fun s => setCheckpoints (delete entryId (checkpoints s)) s)
      else ret tt
  | None => ret tt
  end.

Definition pruneCheckpoints (exec : list string -> M ExecResult) : M unit :=
  tryCatch
    (result <- exec ["for-each-ref"; "--sort=creatordate"; "--format=%(refname)"; REF_PREFIX] ;;
     let refs := stdoutLines result in
     let checkpointRefs := filter (fun r => isTurnRef r = true) refs in
     if Nat.ltb MAX_CHECKPOINTS (length checkpointRefs) then
       let toDelete := take (length checkpointRefs - MAX_CHECKPOINTS) checkpointRefs in
       forOf toDelete (pruneOne exec)
     else ret tt)
    (fun _ => ret tt).

Definition initializeForSession (pi_exec : list string -> M ExecResult) (ctx : Ctx) : M unit :=
  if negb (hasUI ctx) then ret tt else
  resetState ;;;
  tryCatch
    (result <- pi_exec ["rev-parse"; "--is-inside-work-tree"] ;;
     modify (setIsGitRepo (String.eqb (Js.trim (stdout result)) "true")))
    (fun _ => modify (setIsGitRepo false)) ;;;
  inRepo <- gets isGitRepo ;;
  if negb inRepo then modify (setStatus None) else
  rebuildCheckpointsMap pi_exec ;;;
  now <- gets clock ;;
  let checkpointId := "checkpoint-resume-" +:+ Js.decimal now in
  tryCatch
    (success <- createCheckpointFromWorktree pi_exec pi_exec checkpointId ;;
     if success : bool then modify (setResumeCheckpoint (Some checkpointId)) else ret tt)
    (fun _ => ret tt) ;;;
  updateStatus ctx.

Definition session_start := initializeForSession.
Definition session_switch := initializeForSession.

Definition turn_start (pi_exec : list string -> M ExecResult)
    (event : TurnEvent) (ctx : Ctx) : M unit :=
  if negb (hasUI ctx) then ret tt else
  inRepo <- gets isGitRepo ;;
  if negb inRepo then ret tt else
  if negb (turnIndex event =? 0)%Z then ret tt else
  tryCatch
    (sha <- captureWorktree pi_exec ;;
     modify (setPendingCheckpoint
               (Some {| commitSha := sha; timestamp := eventTimestamp event |})))
    (fun _ => modify (setPendingCheckpoint None)).

(** the [try] block of [turn_end] once the user message is found: commit
    the pending snapshot under the entry id, record it in the map, prune *)
Definition commitPending (pi_exec : list string -> M ExecResult) (ctx : Ctx)
    (pendingCheckpoint : Pending) (userEntry : Entry) : M unit :=
  let entryId := entry_id userEntry in
  let sanitizedEntryId := sanitizeForRef entryId in
  let checkpointId :=
    "checkpoint-" +:+ Js.decimal (timestamp pendingCheckpoint)
    +:+ "-" +:+ sanitizedEntryId in
  pi_exec ["update-ref"; REF_PREFIX +:+ checkpointId; commitSha pendingCheckpoint] ;;;
  modify (fun s =>
    setCheckpoints (<[sanitizedEntryId := checkpointId]> (checkpoints s)) s) ;;;
  countBeforePrune <- gets (fun s => size (checkpoints s)) ;;
  pruneCheckpoints pi_exec ;;;
  updateStatus ctx ;;;
  notify ("Checkpoint " +:+ Js.decimal (N.of_nat countBeforePrune) +:+ " saved") info.

Definition turn_end (pi_exec : list string -> M ExecResult)
    (event : TurnEvent) (ctx : Ctx) : M unit :=
  if negb (hasUI ctx) then ret tt else
  inRepo <- gets isGitRepo ;;
  if negb inRepo then ret tt else
  pending <- gets pendingCheckpoint ;;
  match pending with
  | None => ret tt
  | Some pendingCheckpoint =>
      if negb (turnIndex event =? 0)%Z then ret tt else
      tryFinally
        (tryCatch
           match findUserMessageEntry ctx with
           | None => ret tt
           | Some userEntry => commitPending pi_exec ctx pendingCheckpoint userEntry
           end
           (fun _ => ret tt))
        (modify (setPendingCheckpoint None))
  end.

(** the [rev-parse --is-inside-work-tree] guard of the two restore handlers *)
Definition insideWorkTreeGuard (pi_exec : list string -> M ExecResult) : M bool :=
  tryCatch
    (result <- pi_exec ["rev-parse"; "--is-inside-work-tree"] ;;
     ret (String.eqb (Js.trim (stdout result)) "true"))
    (fun _ => ret false).

(** the restore target of an entry: the mapped checkpoint, else the resume
    checkpoint (flagged) *)
Definition resolveCheckpoint (sanitizedEntryId : string) : M (option string * bool) :=
  checkpointId <- gets (fun s => checkpoints s !! sanitizedEntryId) ;;
  resume <- gets resumeCheckpoint ;;
  if negb (truthyOpt checkpointId) && truthyOpt resume
  then ret (resume, true)
  else ret (checkpointId, false).

(** [`${REF_PREFIX}${checkpointId}`], where a missing id prints as
    [undefined] *)
Definition refOf (checkpointId : option string) : string :=
  REF_PREFIX +:+ default "undefined" checkpointId.

Definition branchOptions (checkpointId : option string) (usingResumeCheckpoint hasUndo : bool)
    : list string :=
  (if truthyOpt checkpointId then
     if usingResumeCheckpoint then
       ["Restore to session start (files + conversation)";
        "Conversation only (keep current files)";
        "Restore to session start (files only, keep conversation)"]
     else
       ["Restore all (files + conversation)";
        "Conversation only (keep current files)";
        "Code only (restore files, keep conversation)"]
   else ["Conversation only (keep current files)"])
  ++ (if hasUndo then ["Undo last file rewind"] else []).

(** the undo path shared by the two restore handlers *)
Definition undoLastRewind (pi_exec : list string -> M ExecResult)
    (beforeRestoreRef : option BackupRef) : M HandlerResult :=
  match beforeRestoreRef with
  | None => throw "TypeError: Cannot read properties of null (reading 'commitSha')"
  | Some b =>
      success <- restoreWithBackup pi_exec pi_exec (backupSha b) notify ;;
      (if success : bool then notify "Files restored to before last rewind" info else ret tt) ;;;
      ret Cancel
  end.

(** what [session_before_branch] does with the answer of the menu *)
Definition branchChoice (pi_exec : list string -> M ExecResult)
    (checkpointId : option string) (usingResumeCheckpoint : bool)
    (beforeRestoreRef : option BackupRef) (choice : option string) : M HandlerResult :=
  if negb (truthyOpt choice) then notify "Rewind cancelled" info ;;; ret Cancel else
  let choice := default "" choice in
  if Js.startsWith choice "Conversation only" then ret Undefined else
  let isCodeOnly :=
    String.eqb choice "Code only (restore files, keep conversation)" ||
    String.eqb choice "Restore to session start (files only, keep conversation)" in
  if String.eqb choice "Undo last file rewind" then undoLastRewind pi_exec beforeRestoreRef else
  let ref := refOf checkpointId in
  success <- restoreWithBackup pi_exec pi_exec ref notify ;;
  if negb success then ret Cancel else
  notify (if usingResumeCheckpoint then "Files restored to session start"
          else "Files restored from checkpoint") info ;;;
  if isCodeOnly then ret SkipConversationRestore else ret Undefined.

Definition session_before_branch (pi_exec : list string -> M ExecResult)
    (entryId : string) (ctx : Ctx) : M HandlerResult :=
  if negb (hasUI ctx) then ret Undefined else
  inside <- insideWorkTreeGuard pi_exec ;;
  if negb inside then ret Undefined else
  let sanitizedEntryId := sanitizeForRef entryId in
  resolved <- resolveCheckpoint sanitizedEntryId ;;
  let '(checkpointId, usingResumeCheckpoint) := resolved in
  beforeRestoreRef <- findBeforeRestoreRef pi_exec ;;
  let hasUndo := match beforeRestoreRef with Some _ => true | None => false end in
  let options := branchOptions checkpointId usingResumeCheckpoint hasUndo in
  choice <- uiSelect ctx options ;;
  branchChoice pi_exec checkpointId usingResumeCheckpoint beforeRestoreRef choice.

Definition treeOptions (checkpointId : option string) (usingResumeCheckpoint hasUndo : bool)
    : list string :=
  (if truthyOpt checkpointId then
     if usingResumeCheckpoint then ["Restore files to session start"]
     else ["Restore files to that point"]
   else [])
  ++ ["Keep current files"]
  ++ (if hasUndo then ["Undo last file rewind"] else [])
  ++ ["Cancel navigation"].

(** what [session_before_tree] does with the answer of the menu *)
Definition treeChoice (pi_exec : list string -> M ExecResult)
    (checkpointId : option string) (usingResumeCheckpoint : bool)
    (beforeRestoreRef : option BackupRef) (choice : option string) : M HandlerResult :=
  if negb (truthyOpt choice) || String.eqb (default "" choice) "Cancel navigation"
  then notify "Navigation cancelled" info ;;; ret Cancel else
  let choice := default "" choice in
  if String.eqb choice "Keep current files" then ret Undefined else
  if String.eqb choice "Undo last file rewind" then undoLastRewind pi_exec beforeRestoreRef else
  let ref := refOf checkpointId in
  success <- restoreWithBackup pi_exec pi_exec ref notify ;;
  if negb success then ret Cancel else
  notify (if usingResumeCheckpoint then "Files restored to session start"
          else "Files restored to checkpoint") info ;;;
  ret Undefined.

Definition session_before_tree (pi_exec : list string -> M ExecResult)
    (targetId : string) (ctx : Ctx) : M HandlerResult :=
  if negb (hasUI ctx) then ret Undefined else
  inside <- insideWorkTreeGuard pi_exec ;;
  if negb inside then ret Undefined else
  let sanitizedTargetId := sanitizeForRef targetId in
  resolved <- resolveCheckpoint sanitizedTargetId ;;
  let '(checkpointId, usingResumeCheckpoint) := resolved in
  beforeRestoreRef <- findBeforeRestoreRef pi_exec ;;
  let hasUndo := match beforeRestoreRef with Some _ => true | None => false end in
  let options := treeOptions checkpointId usingResumeCheckpoint hasUndo in
  choice <- uiSelect ctx options ;;
  treeChoice pi_exec checkpointId usingResumeCheckpoint beforeRestoreRef choice.


(** * Properties of the model: the definitions they are stated with *)

(** the lines of a listing, joined without the final line feed *)
Fixpoint joinLines (ls : list string) : string :=
  match ls with
  | [] => EmptyString
  | [l] => l
  | l :: ls' => l +:+ String LF (joinLines ls')
  end.

(** the store as git keeps it: ref names are well formed and point to
    objects that exist *)
Definition wf_git (g : Git) : Prop :=
  map_Forall (fun n sha => Git.validRefName n = true /\ is_Some (Git.catFile g sha)) (refs g).

Global Instance wf_git_dec g : Decision (wf_git g).
Proof. unfold wf_git. apply _. Defined.

(** a computation that leaves one component of the state as it is *)
Definition keeps {A X} (f : St -> X) (m : M A) : Prop :=
  forall s, f (m s).2 = f s.

(** a component that commands cannot touch *)
Definition internal {X} (f : St -> X) : Prop :=
  (forall g s, f (setGit g s) = f s) /\
  (forall l s, f (setFaults l s) = f s) /\
  (forall t s, f (setTrace t s) = f s).

(** what a restore handler does once a checkpoint restore was chosen *)
Definition restoreFrom (ref okMessage : string) (codeOnly : bool) : M HandlerResult :=
  success <- restoreWithBackup exec exec ref notify ;;
  if negb success then ret Cancel else
  notify okMessage info ;;;
  if codeOnly then ret SkipConversationRestore else ret Undefined.

(** a computation that never throws *)
Definition unfailing {A} (m : M A) : Prop :=
  forall s, exists a, (m s).1 = Normal a.

Definition listingArgs : list string :=
  ["for-each-ref"; "--sort=creatordate"; "--format=%(refname)"; REF_PREFIX].

Definition backupArgs : list string :=
  ["for-each-ref"; "--sort=-creatordate"; "--count=1";
   "--format=%(refname) %(objectname)"; REF_PREFIX +:+ BEFORE_RESTORE_PREFIX +:+ "*"].

Definition ran (args : list string) (out : string) (g' : Git) (s : St) : Completion ExecResult * St :=
  (Normal {| stdout := out; stderr := ""; code := 0 |},
   record (PiExec args) Ran (setGit g' (setFaults (tl (faults s)) s))).

Definition rejected (args : list string) (s : St) : Completion ExecResult * St :=
  (Thrown "Error: command failed",
   record (PiExec args) Rejected (setFaults (tl (faults s)) s)).

Definition exitedNonZero (args : list string) (s : St) : Completion ExecResult * St :=
  (Normal {| stdout := ""; stderr := "fatal"; code := 1 |},
   record (PiExec args) ExitedNonZero (setFaults (tl (faults s)) s)).

(** no fault is scheduled and the work tree is there *)
Definition calm (s : St) : Prop :=
  faults s = [] /\ insideWorkTree (git s) = true.

(** the map values are named after their keys *)
Definition wellKeyed (s : St) : Prop :=
  forall E v, checkpoints s !! E = Some v -> exists ts, matchCheckpoint v = Some (ts, E).

(** every map entry points to a ref of the store *)
Definition backed (s : St) : Prop :=
  forall E v, checkpoints s !! E = Some v -> is_Some (refs (git s) !! (REF_PREFIX +:+ v)).

(** what pruning has done to the map so far, relative to the state [s0]
    it started from *)
Definition pruned (s0 s : St) : Prop :=
  (exists t, trace s = trace s0 ++ t /\
     forall E v, checkpoints s0 !! E = Some v -> checkpoints s !! E = None ->
       exists ref fate ts,
         (PiExec ["update-ref"; "-d"; ref], fate) ∈ t /\
         Js.replace ref REF_PREFIX "" = v /\
         matchCheckpoint v = Some (ts, E)) /\
  (forall E v, checkpoints s !! E = Some v -> checkpoints s0 !! E = Some v) /\
  (forall E v ts, checkpoints s !! E = Some v -> matchCheckpoint v = Some (ts, E) ->
     is_Some (refs (git s0) !! (REF_PREFIX +:+ v)) ->
     is_Some (refs (git s) !! (REF_PREFIX +:+ v))).

(** a property of the state that a computation maintains *)
Definition preserves {A} (I : St -> Prop) (m : M A) : Prop :=
  forall s, I s -> I (m s).2.

(** the name under which [turn_end] commits the pending snapshot *)
Definition turnRefName (p : Pending) (e : Entry) : string :=
  REF_PREFIX +:+ "checkpoint-" +:+ Js.decimal (timestamp p) +:+ "-" +:+
  sanitizeForRef (entry_id e).

(** the state in which [turn_end] has committed the pending snapshot [p]
    under the entry [e]: the ref is written and the map points to it; the
    pruning pass of that turn end is still to come *)
Definition committed (p : Pending) (e : Entry) (s : St) : St :=
  let key := sanitizeForRef (entry_id e) in
  let checkpointId := "checkpoint-" +:+ Js.decimal (timestamp p) +:+ "-" +:+ key in
  setCheckpoints (<[key := checkpointId]> (checkpoints s))
    (ran ["update-ref"; REF_PREFIX +:+ checkpointId; commitSha p] ""
         (Git.setRefs (<[REF_PREFIX +:+ checkpointId := commitSha p]> (refs (git s))) (git s))
         s).2.

(** the turn refs of the store, oldest first: what [pruneCheckpoints] counts *)
Definition turnRefs (g : Git) : list RefInfo :=
  filter (fun r => isTurnRef (refname r) = true) (Git.listAscending REF_PREFIX g).

Definition solid (c : ascii) : bool := negb (Js.isSpace c).

(** nothing is scheduled to fail, the work tree is there, the store is
    well formed *)
Definition sound (s : St) : Prop := calm s /\ wf_git (git s).

Definition checkpointIdOf (ref : string) : string := Js.replace ref REF_PREFIX "".

(** the entry id a ref name decodes to, if it names a turn checkpoint *)
Definition turnEntry (ref : string) : option string :=
  let checkpointId := checkpointIdOf ref in
  if negb (Js.startsWith checkpointId "checkpoint-") then None
  else if Js.startsWith checkpointId "checkpoint-resume-" then None
  else snd <$> matchCheckpoint checkpointId.

(** the turn checkpoints of an entry, oldest first *)
Definition candidates (g : Git) (E : string) : list RefInfo :=
  filter (fun r => turnEntry (refname r) = Some E) (Git.listAscending REF_PREFIX g).

(** for an entry id, the turn checkpoint created last *)
Definition latestFor (g : Git) (E : string) : option string :=
  (fun r => checkpointIdOf (refname r)) <$> last (candidates g E).

Definition rebuildStep (m : gmap string string) (ref : string) : gmap string string :=
  match turnEntry ref with
  | Some E => <[E := checkpointIdOf ref]> m
  | None => m
  end.

(** the store [g'] has the turn refs of [g], and the objects of [g] are
    still there *)
Definition sameTurnRefs (g g' : Git) : Prop :=
  (exists tl, objects g' = objects g ++ tl) /\
  (forall n, turnEntry n = None \/ refs g' !! n = refs g !! n).

(** what a step leaves alone apart from the repository, the fault schedule
    and the trace *)
Definition sameSession (s s' : St) : Prop :=
  rejecting s' = rejecting s /\ clock s' = clock s /\
  notifications s' = notifications s /\ checkpoints s' = checkpoints s /\
  resumeCheckpoint s' = resumeCheckpoint s /\ menus s' = menus s.


Definition ranAll (cs : list Call) : list (Call * Fate) := (fun c => (c, Ran)) <$> cs.


Definition backupPattern : string := REF_PREFIX +:+ BEFORE_RESTORE_PREFIX +:+ "*".

(** the answer of [findBeforeRestoreRef] for a listed ref *)
Definition backupOf (r : RefInfo) : BackupRef :=
  {| refName := refname r; backupSha := objectname r |}.

(** the before-restore refs of the store *)
Definition backups (g : Git) : gmap string string :=
  filter (fun kv => Git.refMatches backupPattern kv.1 = true) (refs g).

(** the commit [captureWorktree] makes in state [s], and the name of the
    backup written at time [t] *)
Definition snapshotCommit (s : St) : Commit :=
  {| tree := Git.snapshot (git s); cdate := (clock s / 1000)%N |}.

Definition backupName (t : N) : string :=
  REF_PREFIX +:+ BEFORE_RESTORE_PREFIX +:+ Js.decimal t.

(** the refs a restore leaves: the new backup written, the previous one
    deleted *)
Definition refsAfterRestore (s : St) : gmap string string :=
  let sha := (Git.commitTree (snapshotCommit s) (git s)).1 in
  let written := <[backupName (clock s) := sha]> (refs (git s)) in
  match head (Git.listDescending backupPattern (git s)) with
  | Some r => delete (refname r) written
  | None => written
  end.

(** the repository when a restore reaches its checkout *)
Definition gitBeforeCheckout (s : St) : Git :=
  Git.setRefs (refsAfterRestore s) (Git.commitTree (snapshotCommit s) (git s)).2.

(** the worktree after [git checkout <rev> -- .] run in the directory [dir],
    for a revision with the tree [t]: the files of [t] below [dir] written
    over [w], or [w] as it was when git fails for want of such a file *)
Definition afterCheckout (dir : string) (t w : gmap string string) : gmap string string :=
  if decide (Git.below dir t = ∅) then w else Git.overlay (Git.below dir t) w.

(** no file of the worktree is a directory above another file of it *)
Definition treeLike (w : gmap string string) : Prop :=
  forall p q, is_Some (w !! p) -> is_Some (w !! q) -> Git.clashes p q = false.

(** a restore, and then, at time [t2], the undo of the handlers: the
    backup is looked up and restored *)
Definition restoreThenUndo (target : string) (t2 : N) : M HandlerResult :=
  restoreWithBackup exec exec target notify ;;;
  modify (setClock t2) ;;;
  beforeRestoreRef <- findBeforeRestoreRef exec ;;
  undoLastRewind exec beforeRestoreRef.

(** the guard command of a session start *)
Definition insideArgs : list string := ["rev-parse"; "--is-inside-work-tree"].

(** the closure variables after [resetState] *)
Definition cleared (s : St) : St :=
  setPendingCheckpoint None (setIsGitRepo false (setRepoRoot None
    (setResumeCheckpoint None (setCheckpoints ∅ s)))).

Definition worktreeOf (s : St) : gmap string string := worktree (git s).


(** the name the specification gives to the ref of a turn checkpoint *)
Definition spec_turnRefName (sessionId : string) (timestampMs : N) (sanitizedEntryId : string)
    : string :=
  REF_PREFIX +:+ "checkpoint-" +:+ sessionId +:+ "-" +:+ Js.decimal timestampMs
  +:+ "-" +:+ sanitizedEntryId.

Module Demo.

Definition repo (w : gmap string string) (objs : list Commit) (rs : gmap string string) : Git :=
  {| insideWorkTree := true; toplevel := "/repo"; cwd := ""; worktree := w;
     ignored := fun p => Js.startsWith p "node_modules/";
     objects := objs; refs := rs |}.

Definition state (g : Git) (now : N) : St :=
  {| checkpoints := ∅; resumeCheckpoint := None; repoRoot := None; isGitRepo := true;
     pendingCheckpoint := None; git := g; clock := now; faults := []; rejecting := true;
     trace := []; status := None; notifications := []; menus := [] |}.

Definition userEntry (id : string) : Entry :=
  {| entry_id := id; entry_type := "message"; message_role := Some "user" |}.

Definition ctx (entries : list Entry) (answer : option string) : Ctx :=
  {| hasUI := true; getLeafId := Some "leaf"; getBranch := fun _ => entries;
     select := fun _ => answer |}.

Definition firstTurn (t : N) : TurnEvent := {| turnIndex := 0; eventTimestamp := t |}.

(** a repository with one file, at the start of a turn *)
Definition s0 : St := state (repo {[ "a.txt" := "A1" ]} [] ∅) 1700000000000.
Definition ctx1 : Ctx := ctx [userEntry "e1"] None.

Definition afterTurnStart : St := exec_state (turn_start exec (firstTurn 1700000000000) ctx1) s0.
Definition afterTurnEnd : St :=
  exec_state (turn_end exec (firstTurn 1700000000000) ctx1) afterTurnStart.

(** the user edits the file after the checkpoint of entry e1 *)
Definition e1Ref : string := "refs/pi-checkpoints/checkpoint-1700000000000-e1".
Definition e1Commit : Commit := {| tree := {[ "a.txt" := "A1" ]}; cdate := 1700000000 |}.
Definition edited : St :=
  setClock 1700000060000
    (setGit (Git.setWorktree {[ "a.txt" := "A2" ]} (git afterTurnEnd)) afterTurnEnd).

(** the refs of another session, named as the specification names them:
    101 turn checkpoints of session B, one a second *)
Definition stamps : list nat := seq 0 101.
Definition secondly : list Commit := (fun i => {| tree := ∅; cdate := N.of_nat i |}) <$> stamps.
Definition besideSessionB : St :=
  state (repo {[ "a.txt" := "A1" ]} secondly
           (list_to_map ((fun i => (spec_turnRefName "B" (N.of_nat i * 1000) "e", Git.shaOf i))
                           <$> stamps)))
        1700000000000.

(** 101 turn checkpoints, one a second, for the entries e0 .. e99 and then
    e0 again; the map is the one a rebuild gives *)
Definition turnName (i : nat) : string :=
  "checkpoint-" +:+ Js.decimal (N.of_nat i * 1000) +:+ "-e" +:+ Js.decimal (N.of_nat (i mod 100)).
Definition hundredAndOne : St :=
  exec_state (rebuildCheckpointsMap exec)
    (state (repo {[ "a.txt" := "A1" ]} secondly
              (list_to_map ((fun i => (REF_PREFIX +:+ turnName i, Git.shaOf i)) <$> stamps)))
           1700000000000).

(** a map with an entry for which the store has no ref *)
Definition stale : St := setCheckpoints {[ "gone" := "checkpoint-1-gone" ]} edited.

(** after a restore to the checkpoint of e1, a minute later *)
Definition restored : St :=
  setClock 1700000120000 (exec_state (restoreWithBackup exec exec e1Ref notify) edited).

(** two backups are in the store *)
Definition twoBackups : St :=
  state (repo {[ "a.txt" := "A1" ]}
           [ {| tree := {[ "a.txt" := "A0" ]}; cdate := 1 |};
             {| tree := {[ "a.txt" := "A0'" ]}; cdate := 2 |} ]
           {[ "refs/pi-checkpoints/before-restore-1000" := "0";
              "refs/pi-checkpoints/before-restore-2000" := "1";
              "refs/pi-checkpoints/checkpoint-1000-e1" := "0" ]})
        3000.

(** no backup is in the store, and the snapshot of the worktree fails *)
Definition failingCapture : St :=
  setFaults [false; false; true]
    (state (repo {[ "a.txt" := "A1" ]}
              [ {| tree := {[ "a.txt" := "A0" ]}; cdate := 1 |} ]
              {[ "refs/pi-checkpoints/checkpoint-1000-e1" := "0" ]})
           3000).

(** the checkpoint has a file that the worktree does not have *)
Definition addedFile : St :=
  setCheckpoints {[ "e1" := "checkpoint-1000-e1" ]}
    (state (repo {[ "a.txt" := "A1" ]}
              [ {| tree := {[ "a.txt" := "A0"; "b.txt" := "B0" ]}; cdate := 1 |} ]
              {[ "refs/pi-checkpoints/checkpoint-1000-e1" := "0" ]})
           3000).

(** one agent loop at time [ti.1] whose user message has the entry id
    [ti.2]: turn 0 starts and ends *)
Definition loop (s : St) (ti : N * string) : St :=
  let c := ctx [userEntry ti.2] None in
  exec_state (turn_end exec (firstTurn ti.1) c)
    (exec_state (turn_start exec (firstTurn ti.1) c) (setClock ti.1 s)).

(** the time and the entry id of the i-th loop: one loop a second; the user
    message of the first has the empty entry id *)
Definition nthLoop (i : nat) : N * string :=
  ((1700000000000 + N.of_nat i * 1000)%N,
   match i with 0 => "" | _ => "e" +:+ Js.decimal (N.of_nat i) end).

Definition loops (n : nat) : St := foldl loop s0 (nthLoop <$> seq 0 n).

(** after the first loop: the store has got the turn checkpoints of the
    99 seconds that follow, whoever wrote them *)
Definition laterCommits : list Commit :=
  (fun i => {| tree := {[ "a.txt" := "A1" ]}; cdate := 1700000000 + N.of_nat i |}) <$> seq 1 99.
Definition laterRefs : gmap string string :=
  list_to_map ((fun i => (REF_PREFIX +:+ "checkpoint-" +:+ Js.decimal (nthLoop i).1 +:+ "-" +:+ (nthLoop i).2,
                          Git.shaOf i)) <$> seq 1 99).
Definition crowded : St :=
  let s := loops 1 in
  setGit (Git.setRefs (refs (git s) ∪ laterRefs)
            (Git.setObjects (objects (git s) ++ laterCommits) (git s))) s.

(** the next loop, when [turn_end] has written its ref and its map entry
    and is about to prune *)
Definition beforeLastPrune : St :=
  committed {| commitSha := "100"; timestamp := 1700000100000 |} (userEntry "e100")
    (exec_state (turn_start exec (firstTurn 1700000100000) (ctx [userEntry "e100"] None))
       (setClock 1700000100000 crowded)).


(** the worktree has the file d; the checkpoint has a directory d *)
Definition fileAgainstDirectory : St :=
  state (repo {[ "d" := "D"; "keep" := "K1" ]}
              [ {| tree := {[ "d/x" := "X"; "keep" := "K0" ]}; cdate := 1 |} ]
              {[ "refs/pi-checkpoints/checkpoint-1000-e1" := "0" ]})
        3000.

(** the host runs in the directory src of the repository *)
Definition inSubdirectory : St :=
  state {| insideWorkTree := true; toplevel := "/repo"; cwd := "src/";
           worktree := {[ "README" := "R1"; "src/a.ts" := "A1" ]};
           ignored := fun _ => false;
           objects := [ {| tree := {[ "README" := "R0"; "src/a.ts" := "A0" ]}; cdate := 1 |};
                        {| tree := {[ "README" := "R0" ]}; cdate := 2 |} ];
           refs := {[ "refs/pi-checkpoints/checkpoint-1000-e1" := "0";
                      "refs/pi-checkpoints/checkpoint-2000-e2" := "1" ]} |}
        3000.

(** a directory that is not in a repository *)
Definition outside : St :=
  state {| insideWorkTree := false; toplevel := ""; cwd := ""; worktree := {[ "a.txt" := "A1" ]};
           ignored := fun _ => false; objects := []; refs := ∅ |}
        1700000000000.

(** a context without a user interface *)
Definition headless : Ctx :=
  {| hasUI := false; getLeafId := Some "leaf"; getBranch := fun _ => [userEntry "e1"];
     select := fun _ => None |}.


End Demo.

(** * Theorems *)

(** ** The string functions on examples *)

Example sanitize_ex : sanitizeForRef "a.b/c d-9Z" = "a_b_c_d-9Z".
Proof. reflexivity. Qed.

Example match_ex1 : matchCheckpoint "checkpoint-1700000000000-e1" = Some ("1700000000000", "e1").
Proof. reflexivity. Qed.

Example match_ex2 : matchCheckpoint "checkpoint-17-5-abc" = Some ("17", "5-abc").
Proof. reflexivity. Qed.

Example match_ex3 : matchCheckpoint "checkpoint-resume-17" = None.
Proof. reflexivity. Qed.

Example match_ex4 : matchCheckpoint "checkpoint-17-" = None.
Proof. reflexivity. Qed.

Example split_ex : Js.filterBoolean (Js.split LF (Js.trim (String LF ("a" +:+ String LF ("b" +:+ String LF ""))))) = ["a"; "b"].
Proof. reflexivity. Qed.

Example replace_ex : Js.replace "refs/pi-checkpoints/checkpoint-1-a" REF_PREFIX "" = "checkpoint-1-a".
Proof. reflexivity. Qed.

Example decimal_ex : Js.decimal 1700000000000 = "1700000000000".
Proof. reflexivity. Qed.

(** ** Strings: prefixes, decimal numerals, trimming and splitting *)

Module JsFacts.
Import Js.

Lemma append_cons a s t : String a s +:+ t = String a (s +:+ t).
Proof. reflexivity. Qed.

Lemma startsWith_app p v : startsWith (p +:+ v) p = true.
Proof. induction p as [|a p IH]; simpl; [done|]. by rewrite Ascii.eqb_refl, IH. Qed.

Lemma drop_app p v : drop (String.length p) (p +:+ v) = v.
Proof. induction p; simpl; auto. Qed.

Lemma replace_unfold s pat r :
  replace s pat r =
  if startsWith s pat then r +:+ drop (String.length pat) s
  else match s with
       | EmptyString => EmptyString
       | String c s' => String c (replace s' pat r)
       end.
Proof. by destruct s. Qed.

Lemma replace_prefix p v : replace (p +:+ v) p "" = v.
Proof. rewrite replace_unfold, startsWith_app, drop_app. done. Qed.

Lemma startsWith_inv s p : startsWith s p = true -> s = p +:+ drop (String.length p) s.
Proof.
  revert s. induction p as [|a p IH]; intros s H; simpl in *; [done|].
  destruct s as [|b s]; [done|]. apply andb_prop in H as [Hab H].
  apply Ascii.eqb_eq in Hab. subst. simpl. rewrite append_cons. f_equal. by apply IH.
Qed.

Lemma forallb_app p s t : forallb p (s +:+ t) = forallb p s && forallb p t.
Proof. induction s; simpl; [done|]. rewrite IHs. by rewrite andb_assoc. Qed.

Lemma forallb_impl (p q : ascii -> bool) s :
  (forall c, p c = true -> q c = true) -> forallb p s = true -> forallb q s = true.
Proof.
  intros Hpq. induction s; simpl; [done|]. intros [H1 H2]%andb_prop.
  rewrite (Hpq _ H1). auto.
Qed.

Lemma spanDigits_app d r :
  forallb isDigit d = true ->
  match r with EmptyString => True | String c _ => isDigit c = false end ->
  spanDigits (d +:+ r) = (d, r).
Proof.
  intros Hd Hr. induction d as [|c d IH].
  - change (EmptyString +:+ r) with r. destruct r; [done|].
    cbn [spanDigits]. by rewrite Hr.
  - cbn [forallb] in Hd. apply andb_prop in Hd as [Hc Hd].
    rewrite append_cons. cbn [spanDigits]. rewrite Hc, IH; auto.
Qed.

Lemma uint_digits d : forallb isDigit (NilEmpty.string_of_uint d) = true.
Proof. induction d; simpl; auto. Qed.

Lemma decimal_digits n : forallb isDigit (decimal n) = true.
Proof.
  unfold decimal, NilZero.string_of_uint.
  destruct (N.to_uint n) eqn:E; try done; rewrite <- E; apply uint_digits.
Qed.

Lemma decimal_truthy n : truthy (decimal n) = true.
Proof.
  unfold decimal, NilZero.string_of_uint. by destruct (N.to_uint n).
Qed.

Lemma to_uint_nonnil n : N.to_uint n <> Decimal.Nil.
Proof.
  rewrite <- (DecimalN.Unsigned.of_to n), DecimalN.Unsigned.to_of.
  unfold Decimal.unorm. by destruct (Decimal.nzhead _).
Qed.

Lemma decimal_inj n m : decimal n = decimal m -> n = m.
Proof.
  unfold decimal. intros H.
  apply DecimalN.Unsigned.to_uint_inj.
  pose proof (NilZero.usu _ (to_uint_nonnil n)) as Hn.
  pose proof (NilZero.usu _ (to_uint_nonnil m)) as Hm.
  rewrite H in Hn. congruence.
Qed.


Lemma append_nil_l s : EmptyString +:+ s = s.
Proof. reflexivity. Qed.

Lemma append_assoc s t u : (s +:+ t) +:+ u = s +:+ (t +:+ u).
Proof. induction s; [done|]. rewrite !append_cons. by f_equal. Qed.

Lemma append_nil_r s : s +:+ EmptyString = s.
Proof. induction s; [done|]. rewrite append_cons. by f_equal. Qed.

Lemma trimEnd_cons c s :
  trimEnd (String c s) =
  match trimEnd s with
  | EmptyString => if isSpace c then EmptyString else String c EmptyString
  | t => String c t
  end.
Proof. reflexivity. Qed.

Lemma trimEnd_app_keep s t :
  truthy (trimEnd t) = true -> trimEnd (s +:+ t) = s +:+ trimEnd t.
Proof.
  intros Ht. induction s as [|c s IH]; [done|].
  rewrite !append_cons, trimEnd_cons, IH.
  destruct (s +:+ trimEnd t) eqn:E; [|done].
  destruct s; [|done]. rewrite append_nil_l in E. by rewrite E in Ht.
Qed.

Lemma trimEnd_app_blank s t :
  trimEnd t = EmptyString -> trimEnd (s +:+ t) = trimEnd s.
Proof.
  intros Ht. induction s as [|c s IH]; [done|].
  by rewrite append_cons, !trimEnd_cons, IH.
Qed.

Lemma trimEnd_token t : isToken t = true -> trimEnd t = t.
Proof.
  unfold isToken. intros [_ H]%andb_prop.
  induction t as [|c t IH]; [done|].
  cbn [forallb] in H. apply andb_prop in H as [Hc H].
  rewrite trimEnd_cons, IH by done.
  destruct t; [|done]. by destruct (isSpace c).
Qed.

Lemma trimStart_token t r : isToken t = true -> trimStart (t +:+ r) = t +:+ r.
Proof.
  unfold isToken. intros [Hne H]%andb_prop. destruct t as [|c t]; [done|].
  cbn [forallb] in H. apply andb_prop in H as [Hc H].
  rewrite append_cons. cbn [trimStart]. by destruct (isSpace c).
Qed.

Lemma token_truthy t : isToken t = true -> truthy t = true.
Proof. unfold isToken. by intros [? _]%andb_prop. Qed.

Lemma split_cons c a s :
  split c (String a s) =
  if Ascii.eqb a c then EmptyString :: split c s
  else match split c s with
       | [] => [String a EmptyString]
       | h :: t => String a h :: t
       end.
Proof. reflexivity. Qed.

Lemma split_sep c l r :
  forallb (fun a => negb (Ascii.eqb a c)) l = true ->
  split c (l +:+ String c r) = l :: split c r.
Proof.
  intros H. induction l as [|a l IH].
  - rewrite append_nil_l, split_cons. by rewrite Ascii.eqb_refl.
  - cbn [forallb] in H. apply andb_prop in H as [Ha H].
    rewrite append_cons, split_cons, IH by done.
    apply negb_true_iff in Ha. by rewrite Ha.
Qed.

Lemma split_last c l :
  forallb (fun a => negb (Ascii.eqb a c)) l = true -> split c l = [l].
Proof.
  intros H. induction l as [|a l IH]; [done|].
  cbn [forallb] in H. apply andb_prop in H as [Ha H].
  rewrite split_cons, IH by done. apply negb_true_iff in Ha. by rewrite Ha.
Qed.

Lemma token_no (c : ascii) t :
  isSpace c = true -> isToken t = true ->
  forallb (fun a => negb (Ascii.eqb a c)) t = true.
Proof.
  intros Hc [_ H]%andb_prop. revert H. apply forallb_impl.
  intros a Ha. apply negb_true_iff. apply negb_true_iff in Ha.
  destruct (Ascii.eqb a c) eqn:E; [|done]. apply Ascii.eqb_eq in E. congruence.
Qed.

End JsFacts.

Import JsFacts.

Module OutputFacts.
Import Js JsFacts Git.

Lemma joinLines_truthy l ls :
  isToken l = true -> truthy (joinLines (l :: ls)) = true.
Proof.
  intros H%token_truthy. destruct ls; [done|].
  cbn [joinLines]. by destruct l.
Qed.

Lemma trimEnd_unlines ls :
  Forall (fun l => isToken l = true) ls -> trimEnd (unlines ls) = joinLines ls.
Proof.
  induction 1 as [|l ls Hl Hls IH]; [done|].
  cbn [unlines]. destruct ls as [|l' ls].
  - cbn [unlines joinLines]. rewrite trimEnd_app_blank by done. by apply trimEnd_token.
  - rewrite trimEnd_app_keep.
    + rewrite trimEnd_cons, IH.
      inversion Hls; subst.
      pose proof (joinLines_truthy l' ls ltac:(done)) as Ht.
      change (joinLines (l :: l' :: ls)) with (l +:+ String LF (joinLines (l' :: ls))).
      by destruct (joinLines (l' :: ls)).
    + rewrite trimEnd_cons, IH. inversion Hls; subst.
      pose proof (joinLines_truthy l' ls ltac:(done)) as Ht.
      by destruct (joinLines (l' :: ls)).
Qed.

Lemma trim_unlines ls :
  Forall (fun l => isToken l = true) ls -> trim (unlines ls) = joinLines ls.
Proof.
  intros H. unfold trim. destruct H as [|l ls Hl Hls]; [done|].
  cbn [unlines]. rewrite trimStart_token by done.
  apply (trimEnd_unlines (l :: ls)). by constructor.
Qed.

Lemma split_joinLines l ls :
  Forall (fun l => isToken l = true) (l :: ls) -> split LF (joinLines (l :: ls)) = l :: ls.
Proof.
  revert l. induction ls as [|l' ls IH]; intros l H; inversion H; subst.
  - cbn [joinLines]. apply split_last. by apply token_no.
  - change (joinLines (l :: l' :: ls)) with (l +:+ String LF (joinLines (l' :: ls))).
    rewrite split_sep by (by apply token_no). by rewrite IH.
Qed.

Lemma filterBoolean_tokens ls :
  Forall (fun l => isToken l = true) ls -> filterBoolean ls = ls.
Proof.
  induction 1 as [|l ls Hl Hls IH]; [done|].
  unfold filterBoolean in *. rewrite filter_cons_True by (by apply token_truthy). by rewrite IH.
Qed.

(** Parsing a listing gives back the lines git printed. *)
Lemma stdoutLines_unlines ls e c :
  Forall (fun l => isToken l = true) ls ->
  stdoutLines {| stdout := unlines ls; stderr := e; code := c |} = ls.
Proof.
  intros H. unfold stdoutLines. cbn [stdout]. rewrite trim_unlines by done.
  destruct ls as [|l ls]; [done|].
  rewrite split_joinLines by done. by apply filterBoolean_tokens.
Qed.

End OutputFacts.

Import OutputFacts.

(** ** The listing of refs: its order and its elements *)

Module ListingFacts.
Import Git.

Lemma charCode_inj a b : Js.charCode a = Js.charCode b -> a = b.
Proof.
  unfold Js.charCode. intros H.
  rewrite <- (ascii_N_embedding a), <- (ascii_N_embedding b). by rewrite H.
Qed.

Lemma strLeb_refl a : strLeb a a = true.
Proof. induction a; simpl; [done|]. rewrite N.ltb_irrefl, N.eqb_refl. done. Qed.

Lemma strLeb_total a b : strLeb a b = true \/ strLeb b a = true.
Proof.
  revert b. induction a as [|x a IH]; intros [|y b]; simpl; auto.
  destruct (N.ltb_spec (Js.charCode x) (Js.charCode y)); [auto|].
  destruct (N.ltb_spec (Js.charCode y) (Js.charCode x)); [auto|].
  assert (Js.charCode x = Js.charCode y) as -> by lia.
  rewrite N.eqb_refl. apply IH.
Qed.

Lemma strLeb_trans a b c : strLeb a b = true -> strLeb b c = true -> strLeb a c = true.
Proof.
  revert b c. induction a as [|x a IH]; intros [|y b] [|z c]; simpl; auto; try done.
  destruct (N.ltb_spec (Js.charCode x) (Js.charCode y)) as [Hxy|Hxy].
  - intros _.
    destruct (N.ltb_spec (Js.charCode y) (Js.charCode z)) as [Hyz|Hyz].
    + intros _. destruct (N.ltb_spec (Js.charCode x) (Js.charCode z)); [done|lia].
    + destruct (N.eqb_spec (Js.charCode y) (Js.charCode z)) as [E|E]; [|done].
      intros _. destruct (N.ltb_spec (Js.charCode x) (Js.charCode z)); [done|lia].
  - destruct (N.eqb_spec (Js.charCode x) (Js.charCode y)) as [E|E]; [|done].
    intros Hab. rewrite E.
    destruct (N.ltb_spec (Js.charCode y) (Js.charCode z)) as [Hyz|Hyz]; [done|].
    destruct (N.eqb_spec (Js.charCode y) (Js.charCode z)) as [E'|E']; [|done].
    eauto.
Qed.

Lemma strLeb_antisym a b : strLeb a b = true -> strLeb b a = true -> a = b.
Proof.
  revert b. induction a as [|x a IH]; intros [|y b]; simpl; auto; try done.
  destruct (N.ltb_spec (Js.charCode x) (Js.charCode y)) as [Hxy|Hxy].
  - intros _. destruct (N.ltb_spec (Js.charCode y) (Js.charCode x)); [lia|].
    destruct (N.eqb_spec (Js.charCode y) (Js.charCode x)); [lia|done].
  - destruct (N.eqb_spec (Js.charCode x) (Js.charCode y)) as [E|E]; [|done].
    rewrite E, N.ltb_irrefl, N.eqb_refl. intros H1 H2.
    apply charCode_inj in E. subst. f_equal. auto.
Qed.

Lemma olderFirst_total : Total olderFirst.
Proof.
  intros a b. unfold olderFirst.
  destruct (N.lt_trichotomy (creatordate a) (creatordate b)) as [?|[?|?]]; auto.
  destruct (strLeb_total (refname a) (refname b)); auto.
Qed.

#[global] Existing Instance olderFirst_total.

Lemma olderFirst_trans : Transitive olderFirst.
Proof.
  intros a b c. unfold olderFirst. intros [?|[? ?]] [?|[? ?]]; try (left; lia).
  right. split; [congruence|]. eauto using strLeb_trans.
Qed.

#[global] Existing Instance olderFirst_trans.

Lemma newerFirst_total : Total newerFirst.
Proof.
  intros a b. unfold newerFirst.
  destruct (N.lt_trichotomy (creatordate a) (creatordate b)) as [?|[?|?]]; auto.
  destruct (strLeb_total (refname a) (refname b)); auto.
Qed.

#[global] Existing Instance newerFirst_total.

Lemma newerFirst_trans : Transitive newerFirst.
Proof.
  intros a b c. unfold newerFirst. intros [?|[? ?]] [?|[? ?]]; try (left; lia).
  right. split; [congruence|]. eauto using strLeb_trans.
Qed.

#[global] Existing Instance newerFirst_trans.

Lemma listAscending_sorted pat g : StronglySorted olderFirst (listAscending pat g).
Proof. apply StronglySorted_merge_sort; apply _. Qed.

Lemma listDescending_sorted pat g : StronglySorted newerFirst (listDescending pat g).
Proof. apply StronglySorted_merge_sort; apply _. Qed.

Lemma elem_of_refInfos g r :
  r ∈ refInfos g <-> exists n sha, refs g !! n = Some sha /\ r = refInfo g (n, sha).
Proof.
  unfold refInfos. rewrite list_elem_of_fmap. split.
  - intros [[n sha] [-> H%elem_of_map_to_list]]. eauto.
  - intros (n & sha & H & ->). exists (n, sha). split; [done|]. by apply elem_of_map_to_list.
Qed.

Lemma elem_of_listAscending pat g r :
  r ∈ listAscending pat g <-> r ∈ refInfos g /\ refMatches pat (refname r) = true.
Proof.
  unfold listAscending. rewrite merge_sort_Permutation, list_elem_of_filter. tauto.
Qed.

Lemma elem_of_listDescending pat g r :
  r ∈ listDescending pat g <-> r ∈ refInfos g /\ refMatches pat (refname r) = true.
Proof.
  unfold listDescending. rewrite merge_sort_Permutation, list_elem_of_filter. tauto.
Qed.

Lemma refname_refInfos g : refname <$> refInfos g = (map_to_list (refs g)).*1.
Proof.
  unfold refInfos. rewrite <- list_fmap_compose. by apply list_fmap_ext.
Qed.

Lemma NoDup_refname_refInfos g : NoDup (refname <$> refInfos g).
Proof. rewrite refname_refInfos. apply NoDup_fst_map_to_list. Qed.

Lemma NoDup_fmap_filter {A B} (f : A -> B) (P : A -> Prop) `{!forall x, Decision (P x)} l :
  NoDup (f <$> l) -> NoDup (f <$> filter P l).
Proof.
  intros Hnd. eapply sublist_NoDup; [exact Hnd|]. apply fmap_sublist, sublist_filter.
Qed.

Lemma NoDup_listAscending pat g : NoDup (refname <$> listAscending pat g).
Proof.
  unfold listAscending. rewrite merge_sort_Permutation.
  apply NoDup_fmap_filter, NoDup_refname_refInfos.
Qed.

Lemma NoDup_listDescending pat g : NoDup (refname <$> listDescending pat g).
Proof.
  unfold listDescending. rewrite merge_sort_Permutation.
  apply NoDup_fmap_filter, NoDup_refname_refInfos.
Qed.

(** the names of a listing are exactly the matching refs of the store *)
Lemma elem_of_listAscending_names pat g n :
  n ∈ refname <$> listAscending pat g <-> is_Some (refs g !! n) /\ refMatches pat n = true.
Proof.
  rewrite list_elem_of_fmap. split.
  - intros (r & -> & [Hr Hm]%elem_of_listAscending).
    apply elem_of_refInfos in Hr as (n & sha & H & ->). eauto.
  - intros [[sha H] Hm]. exists (refInfo g (n, sha)). split; [done|].
    apply elem_of_listAscending. split; [|done]. apply elem_of_refInfos. eauto.
Qed.

Lemma refMatches_prefix n : refMatches REF_PREFIX n = true -> Js.startsWith n REF_PREFIX = true.
Proof.
  unfold refMatches. cbn [stripStar REF_PREFIX]. simpl.
  intros [H|H]%orb_prop; [|done].
  apply String.eqb_eq in H. by subst.
Qed.

End ListingFacts.


Import ListingFacts.

(** ** Objects and refs of the repository *)

Module ObjectFacts.
Import Git ListingFacts.

Lemma shaOf_inj i j : shaOf i = shaOf j -> i = j.
Proof. unfold shaOf. intros H%decimal_inj. lia. Qed.

Lemma findObject_Some sha k objs c :
  findObject sha k objs = Some c -> exists j, objs !! j = Some c /\ shaOf (k + j) = sha.
Proof.
  revert k. induction objs as [|c' objs IH]; intros k; simpl; [done|].
  destruct (String.eqb_spec (shaOf k) sha) as [E|E].
  - intros [= <-]. exists 0. by rewrite Nat.add_0_r.
  - intros (j & Hj & <-)%IH. exists (S j). split; [done|]. f_equal. lia.
Qed.

Lemma findObject_shaOf k objs j :
  findObject (shaOf (k + j)) k objs = objs !! j.
Proof.
  revert k j. induction objs as [|c' objs IH]; intros k j; simpl; [done|].
  destruct (String.eqb_spec (shaOf k) (shaOf (k + j))) as [E|E].
  - apply shaOf_inj in E. assert (j = 0) as -> by lia. done.
  - destruct j as [|j]; [by rewrite Nat.add_0_r in E|].
    simpl. rewrite <- (IH (S k) j). f_equal. f_equal. lia.
Qed.

Lemma catFile_shaOf g i : catFile g (shaOf i) = objects g !! i.
Proof. unfold catFile. apply (findObject_shaOf 0). Qed.

Lemma indexOf_Some c k objs i :
  indexOf c k objs = Some i -> exists j, i = k + j /\ objs !! j = Some c.
Proof.
  revert k. induction objs as [|c' objs IH]; intros k; simpl; [done|].
  destruct (decide (c' = c)) as [->|].
  - intros [= <-]. exists 0. split; [lia|done].
  - intros (j & -> & Hj)%IH. exists (S j). split; [lia|done].
Qed.

Lemma catFile_Some g sha c :
  catFile g sha = Some c -> exists i, sha = shaOf i /\ objects g !! i = Some c.
Proof. intros (j & Hj & <-)%findObject_Some. eauto. Qed.

Lemma wf_git_lookup g n sha :
  wf_git g -> refs g !! n = Some sha ->
  validRefName n = true /\ exists i, sha = shaOf i /\ i < length (objects g).
Proof.
  intros Hwf H. destruct (Hwf _ _ H) as [Hv [c Hc]]. split; [done|].
  apply catFile_Some in Hc as (i & -> & Hi). exists i. split; [done|].
  by eapply lookup_lt_Some.
Qed.

(** what [commitTree] changes: at most one object is added, and the name
    it answers denotes the commit *)
Lemma commitTree_spec c g :
  exists i, (commitTree c g).1 = shaOf i /\
    objects (commitTree c g).2 !! i = Some c /\
    (exists tl, objects (commitTree c g).2 = objects g ++ tl) /\
    refs (commitTree c g).2 = refs g /\
    worktree (commitTree c g).2 = worktree g /\
    insideWorkTree (commitTree c g).2 = insideWorkTree g /\
    ignored (commitTree c g).2 = ignored g /\
    toplevel (commitTree c g).2 = toplevel g /\
    cwd (commitTree c g).2 = cwd g.
Proof.
  unfold commitTree. destruct (indexOf c 0 (objects g)) as [i|] eqn:E.
  - apply indexOf_Some in E as (j & -> & Hj). exists j. simpl.
    split_and!; try done. exists []. by rewrite app_nil_r.
  - exists (length (objects g)). simpl. split_and!; try done.
    + rewrite lookup_app_r by lia. by rewrite Nat.sub_diag.
    + by exists [c].
Qed.

Lemma refInfos_grow g g' :
  wf_git g -> refs g' = refs g ->
  (exists tl, objects g' = objects g ++ tl) ->
  refInfos g' = refInfos g.
Proof.
  intros Hwf Hrefs [tl Hobj]. unfold refInfos. rewrite Hrefs.
  apply list_fmap_ext.
  intros k [n sha] H%list_elem_of_lookup_2%elem_of_map_to_list.
  destruct (wf_git_lookup _ _ _ Hwf H) as (_ & i & -> & Hi).
  unfold refInfo. cbn [fst snd]. f_equal.
  rewrite !catFile_shaOf, Hobj. by rewrite lookup_app_l.
Qed.

Lemma listAscending_grow pat g g' :
  wf_git g -> refs g' = refs g ->
  (exists tl, objects g' = objects g ++ tl) ->
  listAscending pat g' = listAscending pat g.
Proof. intros. unfold listAscending. by erewrite refInfos_grow. Qed.

Lemma listDescending_grow pat g g' :
  wf_git g -> refs g' = refs g ->
  (exists tl, objects g' = objects g ++ tl) ->
  listDescending pat g' = listDescending pat g.
Proof. intros. unfold listDescending. by erewrite refInfos_grow. Qed.

Lemma wf_git_grow g g' :
  wf_git g -> refs g' = refs g ->
  (exists tl, objects g' = objects g ++ tl) -> wf_git g'.
Proof.
  intros Hwf Hrefs [tl Hobj] n sha H. rewrite Hrefs in H.
  destruct (wf_git_lookup _ _ _ Hwf H) as (? & i & -> & Hi). split; [done|].
  rewrite catFile_shaOf, Hobj. apply lookup_lt_is_Some. rewrite length_app. lia.
Qed.

Lemma wf_git_insert g n sha :
  wf_git g -> validRefName n = true -> is_Some (catFile g sha) ->
  wf_git (setRefs (<[n := sha]> (refs g)) g).
Proof.
  intros Hwf Hn Hi n' sha'. cbn [refs setRefs].
  rewrite lookup_insert. case_decide; [|by apply Hwf].
  intros [= <-]. subst. done.
Qed.

Lemma wf_git_delete g n : wf_git g -> wf_git (setRefs (delete n (refs g)) g).
Proof.
  intros Hwf n' sha. cbn [refs setRefs].
  rewrite lookup_delete. case_decide; [done|]. by apply Hwf.
Qed.

Lemma wf_git_worktree g w : wf_git g -> wf_git (setWorktree w g).
Proof. intros Hwf n sha. cbn [refs setWorktree]. by apply Hwf. Qed.

Lemma checkoutPaths_Some t g g' :
  checkoutPaths t g = Some g' ->
  below (cwd g) t <> ∅ /\ g' = setWorktree (overlay (below (cwd g) t) (worktree g)) g.
Proof. unfold checkoutPaths. cbn zeta. case_decide; [done|]. by intros [= <-]. Qed.

Lemma checkout_Some rev g g' :
  checkout rev g = Some g' ->
  exists c, revParse g rev = Some c /\ checkoutPaths (tree c) g = Some g'.
Proof. unfold checkout. destruct (revParse g rev) as [c|]; [|done]. eauto. Qed.

Lemma wf_git_checkout rev g g' : checkout rev g = Some g' -> wf_git g -> wf_git g'.
Proof.
  intros (c & _ & [_ ->]%checkoutPaths_Some)%checkout_Some Hwf. by apply wf_git_worktree.
Qed.

Lemma wf_git_names g pat :
  wf_git g -> Forall (fun l => Js.isToken l = true) (refname <$> listAscending pat g).
Proof.
  intros Hwf. apply Forall_forall. intros n [[sha H] _]%elem_of_listAscending_names.
  destruct (Hwf _ _ H) as [Hv _]. unfold validRefName in Hv.
  by apply andb_prop in Hv as [? _].
Qed.

End ObjectFacts.


Import ObjectFacts.

(** ** Frame rules: what a computation leaves as it is *)

Section Keeps.
Context {X : Type} (f : St -> X).

Lemma keeps_ret {A} (a : A) : keeps f (ret a).
Proof. by intros s. Qed.

Lemma keeps_throw {A} e : keeps f (@throw A e).
Proof. by intros s. Qed.

Lemma keeps_gets {A} (h : St -> A) : keeps f (gets h).
Proof. by intros s. Qed.

Lemma keeps_modify (h : St -> St) : (forall s, f (h s) = f s) -> keeps f (modify h).
Proof. intros H s. apply H. Qed.

Lemma keeps_bind {A B} (m : M A) (k : A -> M B) :
  keeps f m -> (forall a, keeps f (k a)) -> keeps f (bind m k).
Proof.
  intros Hm Hk s. unfold bind. specialize (Hm s).
  destruct (m s) as [[a|e] s']; cbn [snd] in *; [|done]. by rewrite Hk.
Qed.

Lemma keeps_tryCatch {A} (m : M A) (h : string -> M A) :
  keeps f m -> (forall e, keeps f (h e)) -> keeps f (tryCatch m h).
Proof.
  intros Hm Hh s. unfold tryCatch. specialize (Hm s).
  destruct (m s) as [[a|e] s']; cbn [snd] in *; [done|]. by rewrite Hh.
Qed.

Lemma keeps_tryFinally {A} (m : M A) (fin : M unit) :
  keeps f m -> keeps f fin -> keeps f (tryFinally m fin).
Proof.
  intros Hm Hf s. unfold tryFinally. specialize (Hm s).
  destruct (m s) as [r s']. specialize (Hf s').
  destruct (fin s') as [[u|e] s'']; cbn [snd] in *; congruence.
Qed.

Lemma keeps_forOf {A} (xs : list A) (body : A -> M unit) :
  (forall x, keeps f (body x)) -> keeps f (forOf xs body).
Proof.
  intros Hb. induction xs as [|x xs IH]; cbn [forOf].
  - apply keeps_ret.
  - apply keeps_bind; auto.
Qed.

Lemma keeps_exec args : internal f -> keeps f (exec args).
Proof.
  intros (Hg & Hf & Ht) s. unfold exec, nextFault, record.
  destruct (hd false (faults s)); cbn [snd].
  - destruct (rejecting _); cbn [snd]; by rewrite Ht, Hf.
  - destruct (Git.run args _) as [[out g']|]; cbn [snd].
    + by rewrite Ht, Hg, Hf.
    + destruct (rejecting _); cbn [snd]; by rewrite Ht, Hf.
Qed.

Lemma keeps_execAsyncSnapshot root : internal f -> keeps f (execAsyncSnapshot root).
Proof.
  intros (Hg & Hf & Ht) s. unfold execAsyncSnapshot, nextFault, record.
  destruct (hd false (faults s) || _); cbn [snd].
  - by rewrite Ht, Hf.
  - destruct (Git.commitTree _ _) as [sha g']. cbn [snd]. by rewrite Ht, Hg, Hf.
Qed.

End Keeps.

Ltac keeps_step :=
  first
    [ apply keeps_ret | apply keeps_throw | apply keeps_gets
    | apply keeps_bind | apply keeps_tryCatch | apply keeps_tryFinally
    | apply keeps_forOf
    | apply keeps_exec; [first [assumption | by repeat split]]
    | apply keeps_execAsyncSnapshot; [first [assumption | by repeat split]]
    | apply keeps_modify; [done]
    | progress intros
    | match goal with
      | |- keeps _ (match ?x with _ => _ end) => destruct x
      | |- keeps _ (if ?x then _ else _) => destruct x
      | |- keeps _ (let '(_, _) := ?x in _) => destruct x
      end ].

Ltac keeps := repeat keeps_step.

Lemma keeps_findBeforeRestoreRef {X} (f : St -> X) :
  internal f -> keeps f (findBeforeRestoreRef exec).
Proof. intros Hf. unfold findBeforeRestoreRef. keeps. Qed.

Lemma keeps_insideWorkTreeGuard {X} (f : St -> X) :
  internal f -> keeps f (insideWorkTreeGuard exec).
Proof. intros Hf. unfold insideWorkTreeGuard. keeps. Qed.

Lemma internal_checkpoints : internal checkpoints.
Proof. by repeat split. Qed.
Lemma internal_resumeCheckpoint : internal resumeCheckpoint.
Proof. by repeat split. Qed.
Lemma internal_menus : internal menus.
Proof. by repeat split. Qed.
Lemma internal_pendingCheckpoint : internal pendingCheckpoint.
Proof. by repeat split. Qed.

Lemma keeps_getRepoRoot {X} (f : St -> X) :
  internal f -> (forall r s, f (setRepoRoot r s) = f s) -> keeps f (getRepoRoot exec).
Proof. intros Hf Hr. unfold getRepoRoot. keeps. Qed.

Lemma keeps_captureWorktree {X} (f : St -> X) :
  internal f -> (forall r s, f (setRepoRoot r s) = f s) -> keeps f (captureWorktree exec).
Proof.
  intros Hf Hr. unfold captureWorktree. apply keeps_bind; [by apply keeps_getRepoRoot|].
  intros. by apply keeps_execAsyncSnapshot.
Qed.

Lemma keeps_notify {X} (f : St -> X) msg lvl :
  (forall n s, f (setNotifications n s) = f s) -> keeps f (notify msg lvl).
Proof. intros H. unfold notify. by apply keeps_modify. Qed.

Lemma keeps_restoreWithBackup {X} (f : St -> X) target :
  internal f -> (forall r s, f (setRepoRoot r s) = f s) ->
  (forall n s, f (setNotifications n s) = f s) ->
  keeps f (restoreWithBackup exec exec target notify).
Proof.
  intros Hf Hr Hn. unfold restoreWithBackup.
  apply keeps_tryCatch.
  - apply keeps_bind; [by apply keeps_findBeforeRestoreRef|]. intros existing.
    apply keeps_bind; [by apply keeps_captureWorktree|]. intros sha.
    keeps.
  - intros e. apply keeps_bind; [by apply keeps_notify|]. keeps.
Qed.

(** C10: for an event whose turnIndex is not 0, turn_start and turn_end
    return at once and leave the whole state as it is: no snapshot, no ref
    written, the map and the pending slot unchanged. *)
Theorem later_turns_are_ignored (event : TurnEvent) (ctx : Ctx) (s : St) :
  turnIndex event <> 0%Z ->
  turn_start exec event ctx s = (Normal tt, s) /\
  turn_end exec event ctx s = (Normal tt, s).
Proof.
  intros H%Z.eqb_neq. unfold turn_start, turn_end, bind, gets.
  rewrite H. cbn [negb]. cbv beta iota.
  destruct (hasUI ctx); cbn [negb]; [|done].
  destruct (isGitRepo s); cbn [negb]; [|done].
  destruct (pendingCheckpoint s); done.
Qed.


(** ** The restore handlers *)

Lemma unfailing_tryCatch {A} (m : M A) h :
  (forall e, unfailing (h e)) -> unfailing (tryCatch m h).
Proof.
  intros Hh s. unfold tryCatch. destruct (m s) as [[a|e] s']; [by exists a|]. apply Hh.
Qed.

Lemma unfailing_ret {A} (a : A) : unfailing (ret a).
Proof. intros s. by exists a. Qed.

Lemma unfailing_bind {A B} (m : M A) (k : A -> M B) :
  unfailing m -> (forall a, unfailing (k a)) -> unfailing (bind m k).
Proof.
  intros Hm Hk s. unfold bind. destruct (Hm s) as [a Ha].
  destruct (m s) as [[a'|e] s']; [|done]. apply Hk.
Qed.

Lemma unfailing_notify msg lvl : unfailing (notify msg lvl).
Proof. intros s. by exists tt. Qed.

Lemma unfailing_findBeforeRestoreRef : unfailing (findBeforeRestoreRef exec).
Proof. apply unfailing_tryCatch. intros _. apply unfailing_ret. Qed.

Lemma unfailing_insideWorkTreeGuard : unfailing (insideWorkTreeGuard exec).
Proof. apply unfailing_tryCatch. intros _. apply unfailing_ret. Qed.

Lemma unfailing_restoreWithBackup target : unfailing (restoreWithBackup exec exec target notify).
Proof.
  apply unfailing_tryCatch. intros e.
  apply unfailing_bind; [apply unfailing_notify|]. intros _. apply unfailing_ret.
Qed.

Lemma run_pair {A} (m : M A) s : m s = ((m s).1, (m s).2).
Proof. by destruct (m s). Qed.

Lemma keeps_undoLastRewind {X} (f : St -> X) b :
  internal f -> (forall r s, f (setRepoRoot r s) = f s) ->
  (forall n s, f (setNotifications n s) = f s) ->
  keeps f (undoLastRewind exec b).
Proof.
  intros Hf Hr Hn. unfold undoLastRewind. destruct b; [|apply keeps_throw].
  apply keeps_bind; [by apply keeps_restoreWithBackup|]. intros ok.
  apply keeps_bind; [destruct ok; [by apply keeps_notify|apply keeps_ret]|].
  intros. apply keeps_ret.
Qed.

Lemma keeps_branchChoice {X} (f : St -> X) cid fromResume b choice :
  internal f -> (forall r s, f (setRepoRoot r s) = f s) ->
  (forall n s, f (setNotifications n s) = f s) ->
  keeps f (branchChoice exec cid fromResume b choice).
Proof.
  intros Hf Hr Hn. unfold branchChoice.
  destruct (negb (truthyOpt choice)).
  { apply keeps_bind; [by apply keeps_notify|]. intros. apply keeps_ret. }
  destruct (Js.startsWith _ _); [apply keeps_ret|].
  destruct (String.eqb _ "Undo last file rewind"); [by apply keeps_undoLastRewind|].
  apply keeps_bind; [by apply keeps_restoreWithBackup|]. intros ok.
  destruct (negb ok); [apply keeps_ret|].
  apply keeps_bind; [by apply keeps_notify|]. intros.
  destruct (_ || _); apply keeps_ret.
Qed.

(** the handler, up to the menu *)
Lemma session_before_branch_menu x ctx s :
  hasUI ctx = true ->
  exec_value (insideWorkTreeGuard exec) s = Some true ->
  let key := sanitizeForRef x in
  let s1 := exec_state (insideWorkTreeGuard exec) s in
  let s2 := exec_state (findBeforeRestoreRef exec) s1 in
  let backup := default None (exec_value (findBeforeRestoreRef exec) s1) in
  let resolved :=
    if negb (truthyOpt (checkpoints s !! key)) && truthyOpt (resumeCheckpoint s)
    then (resumeCheckpoint s, true) else (checkpoints s !! key, false) in
  let menu := branchOptions resolved.1 resolved.2 (bool_decide (is_Some backup)) in
  session_before_branch exec x ctx s =
  branchChoice exec resolved.1 resolved.2 backup (select ctx menu)
    (setMenus (menus s ++ [menu]) s2).
Proof.
  intros Hui Hguard key s1 s2 backup resolved menu.
  unfold session_before_branch. rewrite Hui. cbn [negb].
  unfold bind at 1. unfold exec_value in Hguard. subst s1. unfold exec_state in *.
  destruct (insideWorkTreeGuard exec s) as [[b|e] s1] eqn:Eg; cbn [fst snd] in *; [|done].
  injection Hguard as ->. cbn [negb].
  assert (checkpoints s1 = checkpoints s) as Hc.
  { pose proof (keeps_insideWorkTreeGuard checkpoints internal_checkpoints s) as H.
    by rewrite Eg in H. }
  assert (resumeCheckpoint s1 = resumeCheckpoint s) as Hr.
  { pose proof (keeps_insideWorkTreeGuard resumeCheckpoint internal_resumeCheckpoint s) as H.
    by rewrite Eg in H. }
  assert (menus s1 = menus s) as Hm.
  { pose proof (keeps_insideWorkTreeGuard menus internal_menus s) as H.
    by rewrite Eg in H. }
  unfold bind at 1. unfold resolveCheckpoint at 1. unfold bind, gets, ret. cbn beta iota.
  rewrite Hc, Hr. fold key. subst resolved.
  destruct (unfailing_findBeforeRestoreRef s1) as [bk Hbk].
  pose proof (keeps_findBeforeRestoreRef menus internal_menus s1) as Hm2.
  subst backup s2. unfold exec_value.
  destruct (findBeforeRestoreRef exec s1) as [r s2] eqn:Ef. cbn [fst snd] in *. subst r.
  cbn [default].
  subst menu.
  destruct (negb (truthyOpt (checkpoints s !! key)) && truthyOpt (resumeCheckpoint s));
    cbn [fst snd]; unfold uiSelect, bind, modify, ret, exec_value; cbn beta iota;
    rewrite !Ef; cbn [fst snd default]; rewrite Hm2, Hm; destruct bk; reflexivity.
Qed.

(** C9: how the branch handler resolves the restore target of entry id x.
    (a) If the map has the sanitized x, the menu offers the restore of that
    checkpoint, and choosing it restores refs/pi-checkpoints/{its id}.
    (b) Otherwise, if there is a resume checkpoint, the menu is worded as a
    restore to the session start and choosing it restores the resume
    checkpoint.  (c) Otherwise the menu offers no restore of files, only
    the conversation-only entry.  (In all three the undo entry follows when
    a backup exists.) *)
Theorem restore_target_resolution (x : string) (ctx : Ctx) (s : St) :
  hasUI ctx = true ->
  exec_value (insideWorkTreeGuard exec) s = Some true ->
  let key := sanitizeForRef x in
  let s1 := exec_state (insideWorkTreeGuard exec) s in
  let s2 := exec_state (findBeforeRestoreRef exec) s1 in
  let undo :=
    match exec_value (findBeforeRestoreRef exec) s1 with
    | Some (Some _) => ["Undo last file rewind"]
    | _ => []
    end in
  let run := session_before_branch exec x ctx s in
  let shown (menu : list string) := setMenus (menus s ++ [menu]) s2 in
  (forall cid, checkpoints s !! key = Some cid -> Js.truthy cid = true ->
     let menu := ["Restore all (files + conversation)";
                  "Conversation only (keep current files)";
                  "Code only (restore files, keep conversation)"] ++ undo in
     menus run.2 = menus s ++ [menu] /\
     (select ctx menu = Some "Restore all (files + conversation)" ->
      run = restoreFrom (REF_PREFIX +:+ cid) "Files restored from checkpoint" false (shown menu)) /\
     (select ctx menu = Some "Code only (restore files, keep conversation)" ->
      run = restoreFrom (REF_PREFIX +:+ cid) "Files restored from checkpoint" true (shown menu))) /\
  (forall r, truthyOpt (checkpoints s !! key) = false ->
     resumeCheckpoint s = Some r -> Js.truthy r = true ->
     let menu := ["Restore to session start (files + conversation)";
                  "Conversation only (keep current files)";
                  "Restore to session start (files only, keep conversation)"] ++ undo in
     menus run.2 = menus s ++ [menu] /\
     (select ctx menu = Some "Restore to session start (files + conversation)" ->
      run = restoreFrom (REF_PREFIX +:+ r) "Files restored to session start" false (shown menu)) /\
     (select ctx menu = Some "Restore to session start (files only, keep conversation)" ->
      run = restoreFrom (REF_PREFIX +:+ r) "Files restored to session start" true (shown menu))) /\
  (truthyOpt (checkpoints s !! key) = false -> truthyOpt (resumeCheckpoint s) = false ->
     let menu := ["Conversation only (keep current files)"] ++ undo in
     menus run.2 = menus s ++ [menu] /\
     (select ctx menu = Some "Conversation only (keep current files)" ->
      run = (Normal Undefined, shown menu))).
Proof.
  intros Hui Hguard key s1 s2 undo run shown.
  pose proof (session_before_branch_menu x ctx s Hui Hguard) as Hrun.
  cbn zeta in Hrun. fold key s1 s2 run in Hrun.
  assert (forall cid fromResume b choice st, menus (branchChoice exec cid fromResume b choice st).2 = menus st) as Hkeep.
  { intros. by apply keeps_branchChoice. }
  assert (undo = if bool_decide (is_Some (default None (exec_value (findBeforeRestoreRef exec) s1)))
                 then ["Undo last file rewind"] else []) as Hundo.
  { subst undo. destruct (exec_value (findBeforeRestoreRef exec) s1) as [[b|]|]; try done. }
  split_and!.
  - intros cid Hcid Ht menu.
    rewrite Hcid in Hrun. cbn [truthyOpt] in Hrun. rewrite Ht in Hrun.
    cbn [negb andb fst snd] in Hrun. unfold branchOptions in Hrun.
    cbn [truthyOpt] in Hrun. rewrite Ht, <- Hundo in Hrun. fold menu in Hrun.
    split_and!.
    + rewrite Hrun, Hkeep. done.
    + intros Hsel. rewrite Hrun, Hsel. reflexivity.
    + intros Hsel. rewrite Hrun, Hsel. reflexivity.
  - intros r Hnone Hr Ht menu.
    rewrite Hnone, Hr in Hrun. cbn [truthyOpt] in Hrun. rewrite Ht in Hrun.
    cbn [negb andb fst snd] in Hrun. unfold branchOptions in Hrun.
    cbn [truthyOpt] in Hrun. rewrite Ht, <- Hundo in Hrun. fold menu in Hrun.
    split_and!.
    + rewrite Hrun, Hkeep. done.
    + intros Hsel. rewrite Hrun, Hsel. reflexivity.
    + intros Hsel. rewrite Hrun, Hsel. reflexivity.
  - intros Hnone Hr menu.
    rewrite Hnone, Hr in Hrun. cbn [negb andb fst snd] in Hrun.
    unfold branchOptions in Hrun. rewrite Hnone, <- Hundo in Hrun. fold menu in Hrun.
    split.
    + rewrite Hrun, Hkeep. done.
    + intros Hsel. rewrite Hrun, Hsel. reflexivity.
Qed.


(** ** Commands and their outcomes *)

(** ** The commands the extension runs *)

Lemma run_listing g :
  Git.run listingArgs g =
  if negb (insideWorkTree g) then None
  else Some (Git.unlines (Git.fmtRefname <$> Git.listAscending REF_PREFIX g), g).
Proof. reflexivity. Qed.

Lemma run_backup g :
  Git.run backupArgs g =
  if negb (insideWorkTree g) then None
  else Some (Git.unlines (Git.fmtRefnameObjectname <$>
               take 1 (Git.listDescending (REF_PREFIX +:+ BEFORE_RESTORE_PREFIX +:+ "*") g)), g).
Proof. reflexivity. Qed.

Lemma run_delete ref g :
  Git.run ["update-ref"; "-d"; ref] g =
  if negb (insideWorkTree g) then None
  else Some ("", Git.setRefs (delete ref (refs g)) g).
Proof. reflexivity. Qed.

Lemma run_update x sha g :
  Git.run ["update-ref"; REF_PREFIX +:+ x; sha] g =
  if negb (insideWorkTree g) then None
  else if Git.validRefName (REF_PREFIX +:+ x)
       then match Git.catFile g sha with
            | Some _ => Some ("", Git.setRefs (<[REF_PREFIX +:+ x := sha]> (refs g)) g)
            | None => None
            end
       else None.
Proof. reflexivity. Qed.

Lemma run_checkout target g :
  Git.run ["checkout"; target; "--"; "."] g =
  if negb (insideWorkTree g) then None
  else match Git.revParse g target with
       | Some c =>
           match Git.checkoutPaths (tree c) g with
           | Some g' => Some ("", g')
           | None => None
           end
       | None => None
       end.
Proof.
  unfold Git.run. destruct (negb (insideWorkTree g)); [reflexivity|].
  change (match Git.checkout target g with Some g' => Some ("", g') | None => None end =
          match Git.revParse g target with
          | Some c => match Git.checkoutPaths (tree c) g with
                      | Some g' => Some ("", g')
                      | None => None
                      end
          | None => None
          end).
  unfold Git.checkout. by destruct (Git.revParse g target).
Qed.

Lemma run_inside g :
  Git.run ["rev-parse"; "--is-inside-work-tree"] g =
  if negb (insideWorkTree g) then None else Some ("true" +:+ String LF "", g).
Proof. reflexivity. Qed.

Lemma run_toplevel g :
  Git.run ["rev-parse"; "--show-toplevel"] g =
  if negb (insideWorkTree g) then None else Some (toplevel g +:+ String LF "", g).
Proof. reflexivity. Qed.

(** ** How a command ends *)

Lemma exec_cases args s :
  (exists out g', hd false (faults s) = false /\ Git.run args (git s) = Some (out, g') /\
                  exec args s = ran args out g' s) \/
  (rejecting s = true /\ exec args s = rejected args s) \/
  (rejecting s = false /\ exec args s = exitedNonZero args s).
Proof.
  unfold exec, nextFault, ran, rejected, exitedNonZero.
  destruct (hd false (faults s)) eqn:Hf; cbn [git setFaults rejecting].
  - destruct (rejecting s); auto.
  - destruct (Git.run args (git s)) as [[out g']|] eqn:Hr.
    + left. eauto.
    + destruct (rejecting s); auto.
Qed.

Lemma exec_calm args s out g' :
  faults s = [] -> Git.run args (git s) = Some (out, g') ->
  exec args s = ran args out g' s.
Proof.
  intros Hf Hr. unfold exec, nextFault, ran. rewrite Hf. cbn [hd tl git setFaults].
  by rewrite Hr.
Qed.

Lemma exec_state_tryCatch_ret {A} (m : M A) (a : A) s :
  exec_state (tryCatch m (fun _ => ret a)) s = exec_state m s.
Proof. unfold exec_state, tryCatch. by destruct (m s) as [[?|?] ?]. Qed.

Lemma forOf_preserves {A} (I : St -> Prop) (xs : list A) (body : A -> M unit) :
  (forall x s, x ∈ xs -> I s -> I (body x s).2) ->
  forall s, I s -> I (forOf xs body s).2.
Proof.
  induction xs as [|x xs IH]; intros Hb s Hs; cbn [forOf]; [done|].
  unfold bind. pose proof (Hb x s ltac:(left) Hs) as H1.
  destruct (body x s) as [[u|e] s1]; cbn [snd] in *; [|done].
  apply IH; [|done]. intros y s' Hy. apply Hb. by right.
Qed.

Lemma pruneCheckpoints_unfold s :
  exec_state (pruneCheckpoints exec) s =
  exec_state
    (result <- exec listingArgs ;;
     let checkpointRefs := filter (fun r => isTurnRef r = true) (stdoutLines result) in
     if Nat.ltb MAX_CHECKPOINTS (length checkpointRefs)
     then forOf (take (length checkpointRefs - MAX_CHECKPOINTS) checkpointRefs) (pruneOne exec)
     else ret tt) s.
Proof. unfold pruneCheckpoints. by rewrite exec_state_tryCatch_ret. Qed.

(** the effect of one round on the map, the store and the trace *)
Lemma pruneOne_spec ref s :
  let s' := (pruneOne exec ref s).2 in
  let cid := Js.replace ref REF_PREFIX "" in
  exists fate,
    trace s' = trace s ++ [(PiExec ["update-ref"; "-d"; ref], fate)] /\
    (refs (git s') = refs (git s) \/
     (fate = Ran /\ (pruneOne exec ref s).1 = Normal tt /\ refs (git s') = delete ref (refs (git s)))) /\
    (checkpoints s' = checkpoints s \/
     exists ts E, matchCheckpoint cid = Some (ts, E) /\ checkpoints s !! E = Some cid /\
                 checkpoints s' = delete E (checkpoints s)) /\
    (refs (git s') = refs (git s) \/
     forall ts E, matchCheckpoint cid = Some (ts, E) -> checkpoints s !! E = Some cid ->
                  checkpoints s' = delete E (checkpoints s)).
Proof.
  intros s' cid. subst s'. unfold pruneOne, bind.
  destruct (exec_cases ["update-ref"; "-d"; ref] s)
    as [(out & g' & Hf & Hrun & ->)|[[Hrej ->]|[Hrej ->]]];
    unfold ran, rejected, exitedNonZero.
  - rewrite run_delete in Hrun. destruct (negb (insideWorkTree (git s))); [done|].
    injection Hrun as <- <-. exists Ran. fold cid.
    destruct (matchCheckpoint cid) as [[ts E]|] eqn:Em.
    + unfold gets. cbn [checkpoints record setTrace setGit setFaults].
      destruct (decide (checkpoints s !! E = Some cid)) as [Hc|Hc]; cbn.
      * split_and!; [done| right; done | right; eauto |].
        right. intros ts' E' [= <- <-] _. done.
      * split_and!; [done| right; done | by left |].
        right. intros ts' E' [= <- <-] ?. done.
    + cbn. split_and!; [done| right; done | by left |]. by right.
  - exists Rejected. cbn. split_and!; auto.
  - exists ExitedNonZero. fold cid.
    destruct (matchCheckpoint cid) as [[ts E]|] eqn:Em.
    + unfold gets. cbn [checkpoints record setTrace setGit setFaults].
      destruct (decide (checkpoints s !! E = Some cid)) as [Hc|Hc]; cbn.
      * split_and!; [done| by left | right; eauto | by left].
      * split_and!; [done| by left | by left | by left].
    + cbn. split_and!; auto.
Qed.


(** ** Pruning and the checkpoint map *)

(** a listing reads the store and changes nothing but the trace *)
Lemma exec_listing_spec s :
  exists fate,
    checkpoints (exec listingArgs s).2 = checkpoints s /\
    git (exec listingArgs s).2 = git s /\
    trace (exec listingArgs s).2 = trace s ++ [(PiExec listingArgs, fate)].
Proof.
  destruct (exec_cases listingArgs s)
    as [(out & g' & Hf & Hrun & ->)|[[Hrej ->]|[Hrej ->]]].
  - rewrite run_listing in Hrun. destruct (negb _); [done|]. injection Hrun as <- <-.
    by exists Ran.
  - by exists Rejected.
  - by exists ExitedNonZero.
Qed.

Lemma pruned_refl s : pruned s s.
Proof.
  split_and!; [|done|by intros]. exists []. split; [by rewrite app_nil_r|].
  intros E v H1 H2. congruence.
Qed.

Lemma pruned_pruneOne s0 s ref : pruned s0 s -> pruned s0 (pruneOne exec ref s).2.
Proof.
  intros ([t [Ht Hrem]] & Hsub & Hback).
  destruct (pruneOne_spec ref s) as (fate & Htr & Hrefs & Hcp & Hboth).
  cbn zeta in *. set (s' := (pruneOne exec ref s).2) in *.
  set (cid := Js.replace ref REF_PREFIX "") in *.
  assert (forall E v, checkpoints s' !! E = Some v -> checkpoints s !! E = Some v) as Hsub'.
  { intros E v. destruct Hcp as [->|(ts & E' & _ & _ & ->)]; [done|].
    rewrite lookup_delete. by case_decide. }
  split_and!.
  - exists (t ++ [(PiExec ["update-ref"; "-d"; ref], fate)]).
    split; [by rewrite Htr, Ht, app_assoc|].
    intros E v H0 Hnone.
    destruct (checkpoints s !! E) as [v'|] eqn:Es.
    + pose proof (Hsub _ _ Es) as H0'. assert (v' = v) as -> by congruence.
      destruct Hcp as [Hcp|(ts & E' & Hm & Hcur & Hcp)]; [congruence|].
      rewrite Hcp, lookup_delete in Hnone. case_decide; [|congruence]. subst E'.
      assert (v = cid) as -> by congruence.
      exists ref, fate, ts. split_and!; [|done|done].
      apply elem_of_app. right. by left.
    + destruct (Hrem _ _ H0 Es) as (r & f & ts & Hin & Hr & Hm).
      exists r, f, ts. split_and!; [|done|done]. apply elem_of_app. by left.
  - eauto.
  - intros E v ts Hv Hm Hb0. pose proof (Hsub' _ _ Hv) as Hs.
    destruct (Hback _ _ _ Hs Hm Hb0) as [sha Hsha].
    destruct Hrefs as [->|(_ & _ & Hd)]; [by exists sha|].
    rewrite Hd, lookup_delete. case_decide as Hne; [|by exists sha]. exfalso.
    destruct Hboth as [Hsame|Hboth].
    { rewrite Hsame in Hd. rewrite Hd, <- Hne, lookup_delete_eq in Hsha. done. }
    assert (cid = v) as Hcid by (subst cid; rewrite Hne; apply replace_prefix).
    rewrite <- Hcid in Hm, Hs. rewrite (Hboth _ _ Hm Hs), lookup_delete_eq in Hv. done.
Qed.

Lemma pruned_pruneCheckpoints s : pruned s (exec_state (pruneCheckpoints exec) s).
Proof.
  rewrite pruneCheckpoints_unfold. unfold exec_state, bind.
  destruct (exec_listing_spec s) as (fate & Hc & Hg & Ht).
  assert (pruned s (exec listingArgs s).2) as H1.
  { split_and!.
    - exists [(PiExec listingArgs, fate)]. split; [done|]. intros E v H0 Hn. congruence.
    - intros E v. by rewrite Hc.
    - intros E v ts _ _. by rewrite Hg. }
  destruct (exec listingArgs s) as [[result|e] s1]; cbn [snd] in *; [|done].
  destruct (Nat.ltb _ _); [|done].
  apply forOf_preserves; [|done]. intros ref s2 _. apply pruned_pruneOne.
Qed.

(** ** Invariants, and the refs that the operations move *)

Section Preserves.
Context (I : St -> Prop).

Lemma preserves_ret {A} (a : A) : preserves I (ret a).
Proof. by intros s. Qed.

Lemma preserves_gets {A} (h : St -> A) : preserves I (gets h).
Proof. by intros s. Qed.

Lemma preserves_bind {A B} (m : M A) (k : A -> M B) :
  preserves I m -> (forall a, preserves I (k a)) -> preserves I (bind m k).
Proof.
  intros Hm Hk s Hs. unfold bind. specialize (Hm s Hs).
  destruct (m s) as [[a|e] s']; cbn [snd] in *; [|done]. by apply Hk.
Qed.

Lemma preserves_tryCatch {A} (m : M A) (h : string -> M A) :
  preserves I m -> (forall e, preserves I (h e)) -> preserves I (tryCatch m h).
Proof.
  intros Hm Hh s Hs. unfold tryCatch. specialize (Hm s Hs).
  destruct (m s) as [[a|e] s']; cbn [snd] in *; [done|]. by apply Hh.
Qed.

Lemma preserves_tryFinally {A} (m : M A) (fin : M unit) :
  preserves I m -> preserves I fin -> preserves I (tryFinally m fin).
Proof.
  intros Hm Hf s Hs. unfold tryFinally. specialize (Hm s Hs).
  destruct (m s) as [r s']. specialize (Hf s' Hm).
  by destruct (fin s') as [[u|e] s''].
Qed.

Lemma preserves_forOf {A} (xs : list A) (body : A -> M unit) :
  (forall x, x ∈ xs -> preserves I (body x)) -> preserves I (forOf xs body).
Proof. intros Hb s Hs. apply forOf_preserves; [|done]. intros x s' Hx. by apply Hb. Qed.

Lemma preserves_keeps {A X} (f : St -> X) (m : M A) :
  (forall s s', f s = f s' -> I s -> I s') -> keeps f m -> preserves I m.
Proof. intros HI Hk s Hs. eapply HI; [|done]. symmetry. apply Hk. Qed.

End Preserves.

(** what a command can do to the repository *)
Lemma exec_git args s :
  git (exec args s).2 = git s \/
  exists out, Git.run args (git s) = Some (out, git (exec args s).2).
Proof.
  destruct (exec_cases args s)
    as [(out & g' & Hf & Hrun & ->)|[[Hrej ->]|[Hrej ->]]]; [|by left..].
  right. by exists out.
Qed.

Lemma keeps_git_listing : keeps git (exec listingArgs).
Proof.
  intros s. destruct (exec_git listingArgs s) as [?|[out H]]; [done|].
  rewrite run_listing in H. destruct (negb _); [done|]. by injection H.
Qed.

Lemma keeps_git_toplevel : keeps git (exec ["rev-parse"; "--show-toplevel"]).
Proof.
  intros s. destruct (exec_git ["rev-parse"; "--show-toplevel"] s) as [?|[out H]]; [done|].
  rewrite run_toplevel in H. destruct (negb _); [done|]. by injection H.
Qed.

Lemma keeps_git_inside : keeps git (exec ["rev-parse"; "--is-inside-work-tree"]).
Proof.
  intros s. destruct (exec_git ["rev-parse"; "--is-inside-work-tree"] s) as [?|[out H]]; [done|].
  rewrite run_inside in H. destruct (negb _); [done|]. by injection H.
Qed.

Lemma keeps_git_backup : keeps git (exec backupArgs).
Proof.
  intros s. destruct (exec_git backupArgs s) as [?|[out H]]; [done|].
  rewrite run_backup in H. destruct (negb _); [done|]. by injection H.
Qed.

Lemma keeps_git_rebuild : keeps git (rebuildCheckpointsMap exec).
Proof.
  unfold rebuildCheckpointsMap. apply keeps_tryCatch; [|intros; apply keeps_ret].
  apply keeps_bind; [apply keeps_git_listing|]. intros result.
  apply keeps_forOf. intros ref. unfold rebuildOne. keeps.
Qed.

Lemma keeps_refs_snapshot root : keeps (fun s => refs (git s)) (execAsyncSnapshot root).
Proof.
  intros s. unfold execAsyncSnapshot, nextFault.
  destruct (_ || _); [done|].
  pose proof (commitTree_spec
    {| tree := Git.snapshot (git (setFaults (tl (faults s)) s));
       cdate := (clock (setFaults (tl (faults s)) s) / 1000)%N |}
    (git (setFaults (tl (faults s)) s))) as (i & _ & _ & _ & Hr & _).
  destruct (Git.commitTree _ _) as [sha g']. cbn in *. done.
Qed.

Lemma keeps_refs_capture : keeps (fun s => refs (git s)) (captureWorktree exec).
Proof.
  unfold captureWorktree, getRepoRoot.
  apply keeps_bind; [|intros; apply keeps_refs_snapshot].
  apply keeps_bind; [apply keeps_gets|]. intros cached.
  destruct (truthyOpt cached); [apply keeps_ret|].
  apply keeps_bind.
  { intros s. by rewrite keeps_git_toplevel. }
  intros. apply keeps_bind; [by apply keeps_modify|]. intros. apply keeps_ret.
Qed.

(** pruning only deletes, and only turn refs *)
Lemma pruneCheckpoints_refs s n :
  let s' := exec_state (pruneCheckpoints exec) s in
  refs (git s') !! n = refs (git s) !! n \/
  (refs (git s') !! n = None /\ isTurnRef n = true).
Proof.
  cbn zeta. rewrite pruneCheckpoints_unfold. unfold exec_state, bind.
  pose proof (keeps_git_listing s) as Hg.
  destruct (exec listingArgs s) as [[result|e] s1]; cbn [snd] in *; rewrite <- Hg; [|by left].
  destruct (Nat.ltb _ _); [|by left].
  set (xs := take _ _).
  assert (forall x, x ∈ xs -> isTurnRef x = true) as Hxs.
  { intros x Hx. subst xs. apply elem_of_take in Hx as (i & Hi & _).
    apply list_elem_of_lookup_2 in Hi. by apply list_elem_of_filter in Hi as [? _]. }
  apply (forOf_preserves
    (fun st => refs (git st) !! n = refs (git s1) !! n \/
               (refs (git st) !! n = None /\ isTurnRef n = true))); [|by left].
  intros ref st Href Hst.
  destruct (pruneOne_spec ref st) as (fate & _ & [->|(_ & _ & ->)] & _); [done|].
  rewrite lookup_delete. case_decide; [subst; right; auto|done].
Qed.

Lemma keeps_git_updateStatus ctx : keeps git (updateStatus ctx).
Proof. unfold updateStatus. keeps. Qed.

(** the three ways [turn_end] can go *)
Lemma turn_end_cases event ctx s :
  turn_end exec event ctx s = (Normal tt, s) \/
  (exists p, hasUI ctx = true /\ isGitRepo s = true /\ pendingCheckpoint s = Some p /\
     turnIndex event = 0%Z /\
     ((findUserMessageEntry ctx = None /\
       turn_end exec event ctx s = (Normal tt, setPendingCheckpoint None s)) \/
      (exists e, findUserMessageEntry ctx = Some e /\
         turn_end exec event ctx s =
         tryFinally (tryCatch (commitPending exec ctx p e) (fun _ => ret tt))
                    (modify (setPendingCheckpoint None)) s))).
Proof.
  unfold turn_end, bind, gets. cbv beta iota.
  destruct (hasUI ctx); cbn [negb]; [|by left].
  destruct (isGitRepo s); cbn [negb]; [|by left].
  destruct (pendingCheckpoint s) as [p|]; [|by left].
  destruct (Z.eqb_spec (turnIndex event) 0) as [Hz|Hz]; cbn [negb]; [|by left].
  right. exists p. split_and!; try done.
  destruct (findUserMessageEntry ctx) as [e|];
    [right; exists e; split; reflexivity|left; split; reflexivity].
Qed.

Lemma commitPending_refs ctx p e s n :
  let s' := (commitPending exec ctx p e s).2 in
  refs (git s') !! n = refs (git s) !! n \/
  n = turnRefName p e \/
  (refs (git s') !! n = None /\ isTurnRef n = true).
Proof.
  cbn zeta.
  set (I := fun st : St =>
    refs (git st) !! n = refs (git s) !! n \/
    n = turnRefName p e \/
    (refs (git st) !! n = None /\ isTurnRef n = true)).
  change (I (commitPending exec ctx p e s).2).
  assert (forall {A} (m : M A), keeps git m -> preserves I m) as Hk.
  { intros A m Hm st Hst. unfold I. by rewrite Hm. }
  unfold commitPending.
  apply preserves_bind; [| |by left].
  { intros st Hst. unfold I in *. fold (turnRefName p e).
    destruct (exec_git ["update-ref"; turnRefName p e; commitSha p] st) as [->|[out H]]; [done|].
    unfold turnRefName at 1 in H. rewrite run_update in H.
    destruct (negb _); [done|]. destruct (Git.validRefName _); [|done].
    destruct (Git.catFile _ _); [|done].
    injection H as _ <-. cbn [refs Git.setRefs].
    fold (turnRefName p e). rewrite lookup_insert. case_decide; [by right; left|done]. }
  intros _. apply preserves_bind; [by apply Hk, keeps_modify|]. intros _.
  apply preserves_bind; [apply preserves_gets|]. intros c.
  apply preserves_bind.
  { intros st Hst. destruct (pruneCheckpoints_refs st n) as [H|H]; cbn zeta in H.
    - unfold I in *. unfold exec_state in H. by rewrite H.
    - right. by right. }
  intros _. apply preserves_bind; [apply Hk, keeps_git_updateStatus|]. intros _.
  apply Hk. by apply keeps_notify.
Qed.

Lemma turn_end_refs event ctx s n :
  let s' := exec_state (turn_end exec event ctx) s in
  refs (git s') !! n = refs (git s) !! n \/
  (exists p e, pendingCheckpoint s = Some p /\ findUserMessageEntry ctx = Some e /\
               n = turnRefName p e) \/
  (refs (git s') !! n = None /\ isTurnRef n = true).
Proof.
  cbn zeta. unfold exec_state.
  destruct (turn_end_cases event ctx s)
    as [->|(p & _ & _ & Hp & _ & [[_ ->]|(e & He & ->)])]; [by left..|].
  unfold tryFinally, tryCatch, modify.
  pose proof (commitPending_refs ctx p e s n) as H. cbn zeta in H.
  destruct (commitPending exec ctx p e s) as [[u|err] s1]; cbn [snd fst git] in *.
  - destruct H as [H|[H|H]]; [by left| |by right; right]. right. left. eauto.
  - destruct H as [H|[H|H]]; [by left| |by right; right]. right. left. eauto.
Qed.


(** ** Pruning and the store *)

Lemma filter_fmap {A B} (f : A -> B) (P : B -> Prop) `{!forall x, Decision (P x)} (l : list A) :
  filter P (f <$> l) = f <$> filter (fun x => P (f x)) l.
Proof.
  induction l as [|x l IH]; [done|]. cbn [fmap list_fmap].
  destruct (decide (P (f x))) as [Hx|Hx].
  - rewrite !filter_cons_True by done. cbn [fmap list_fmap]. by rewrite IH.
  - rewrite !filter_cons_False by done. done.
Qed.

Lemma StronglySorted_filter {A} (R : relation A) (P : A -> Prop)
    `{!forall x, Decision (P x)} (l : list A) :
  StronglySorted R l -> StronglySorted R (filter P l).
Proof.
  induction 1 as [|x l Hl IH Hx]; [constructor|].
  destruct (decide (P x)).
  - rewrite filter_cons_True by done. constructor; [done|].
    apply Forall_forall. intros y [_ Hy]%list_elem_of_filter.
    by eapply Forall_forall in Hx.
  - by rewrite filter_cons_False.
Qed.

Lemma setRefs_id g : Git.setRefs (refs g) g = g.
Proof. by destruct g. Qed.

Lemma calm_ran args out g' s :
  calm s -> insideWorkTree g' = true -> calm (ran args out g' s).2.
Proof. intros [Hf Hi] Hg. split; [cbn; by rewrite Hf|done]. Qed.

(** a listing that succeeds, parsed *)
Lemma exec_listing_calm s :
  calm s -> wf_git (git s) ->
  exists result,
    exec listingArgs s = (Normal result, (ran listingArgs "" (git s) s).2) /\
    stdoutLines result = refname <$> Git.listAscending REF_PREFIX (git s).
Proof.
  intros [Hf Hi] Hwf. eexists. split.
  - erewrite exec_calm; [reflexivity|done|]. rewrite run_listing, Hi. reflexivity.
  - change (Git.fmtRefname <$> ?l) with (refname <$> l).
    apply stdoutLines_unlines. by apply wf_git_names.
Qed.

Lemma pruneOne_calm ref s :
  calm s ->
  (pruneOne exec ref s).1 = Normal tt /\
  calm (pruneOne exec ref s).2 /\
  git (pruneOne exec ref s).2 = Git.setRefs (delete ref (refs (git s))) (git s).
Proof.
  intros [Hf Hi]. unfold pruneOne, bind.
  erewrite exec_calm; [|done|rewrite run_delete, Hi; reflexivity].
  unfold ran. destruct (matchCheckpoint _) as [[ts E]|].
  - unfold gets. cbn beta iota. destruct (decide _); cbn; rewrite Hf; done.
  - cbn. by rewrite Hf.
Qed.

Lemma forOf_pruneOne_calm xs s :
  calm s ->
  (forOf xs (pruneOne exec) s).1 = Normal tt /\
  calm (forOf xs (pruneOne exec) s).2 /\
  git (forOf xs (pruneOne exec) s).2 =
    Git.setRefs (foldl (fun m x => delete x m) (refs (git s)) xs) (git s).
Proof.
  revert s. induction xs as [|x xs IH]; intros s Hs; cbn [forOf foldl].
  - split_and!; [done|done|]. cbn. by rewrite setRefs_id.
  - unfold bind. destruct (pruneOne_calm x s Hs) as (Hv & Hc & Hg).
    destruct (pruneOne exec x s) as [[[]|e] s1]; cbn [fst snd] in *; [|done].
    destruct (IH s1 Hc) as (Hv' & Hc' & Hg'). split_and!; [done|done|].
    rewrite Hg', Hg. done.
Qed.

Lemma lookup_foldl_delete (m : gmap string string) xs x :
  foldl (fun m x => delete x m) m xs !! x = if decide (x ∈ xs) then None else m !! x.
Proof.
  revert m. induction xs as [|y xs IH]; intros m; cbn [foldl]; [done|].
  rewrite IH. destruct (decide (x ∈ xs)) as [Hx|Hx].
  - rewrite decide_True; [done|by right].
  - rewrite lookup_delete. destruct (decide (y = x)) as [->|Hne].
    + rewrite decide_True; [done|by left].
    + rewrite decide_False; [done|]. intros [?|?]%elem_of_cons; congruence.
Qed.

Lemma turnRefs_sorted g : StronglySorted Git.olderFirst (turnRefs g).
Proof. apply StronglySorted_filter, listAscending_sorted. Qed.

Lemma NoDup_turnRefs g : NoDup (refname <$> turnRefs g).
Proof. apply NoDup_fmap_filter, NoDup_listAscending. Qed.

Lemma turnRefs_names g :
  filter (fun x => isTurnRef x = true) (refname <$> Git.listAscending REF_PREFIX g) =
  refname <$> turnRefs g.
Proof. unfold turnRefs. exact (filter_fmap refname (fun x => isTurnRef x = true) _). Qed.

Lemma elem_of_turnRefs_names g x :
  x ∈ refname <$> turnRefs g <->
  is_Some (refs g !! x) /\ Git.refMatches REF_PREFIX x = true /\ isTurnRef x = true.
Proof.
  rewrite <- turnRefs_names.
  rewrite list_elem_of_filter, elem_of_listAscending_names. tauto.
Qed.

(** C7: a prune pass and the store, when no command fails.  The turn-kind
    refs (those that are neither before-restore nor resume refs) are taken
    oldest first; with n of them, n at most 100 leaves every ref as it is,
    and n above 100 deletes exactly the n - 100 oldest: all other refs stay
    as they are, and the turn-kind refs left are the 100 newest. *)
Theorem prune_keeps_newest_hundred (s : St) :
  calm s -> wf_git (git s) ->
  let turns := turnRefs (git s) in
  let n := length turns in
  let oldest := refname <$> take (n - 100) turns in
  let newest := refname <$> drop (n - 100) turns in
  let s' := exec_state (pruneCheckpoints exec) s in
  StronglySorted Git.olderFirst turns /\
  (n <= 100 -> refs (git s') = refs (git s)) /\
  (100 < n ->
     (forall x, refs (git s') !! x = if decide (x ∈ oldest) then None else refs (git s) !! x) /\
     refname <$> turnRefs (git s') ≡ₚ newest /\
     length (turnRefs (git s')) = 100).
Proof.
  intros Hcalm Hwf turns n oldest newest s'.
  split; [apply turnRefs_sorted|].
  subst s'. rewrite pruneCheckpoints_unfold. unfold exec_state, bind.
  destruct (exec_listing_calm s Hcalm Hwf) as (result & -> & Hlines).
  cbn beta iota. rewrite Hlines.
  rewrite turnRefs_names. fold turns. rewrite length_fmap. fold n. unfold MAX_CHECKPOINTS.
  assert (calm (ran listingArgs "" (git s) s).2) as Hcalm1.
  { apply calm_ran; [done|apply Hcalm]. }
  destruct (Nat.ltb_spec 100 n) as [Hn|Hn].
  - split; [lia|]. intros _.
    destruct (forOf_pruneOne_calm (take (n - 100) (refname <$> turns)) _ Hcalm1)
      as (_ & _ & Hg).
    rewrite <- fmap_take in Hg. fold oldest in Hg. rewrite <- fmap_take. fold oldest.
    set (sf := (forOf oldest (pruneOne exec) (ran listingArgs "" (git s) s).2).2) in *.
    assert (forall x, refs (git sf) !! x =
                      if decide (x ∈ oldest) then None else refs (git s) !! x) as Hrefs.
    { intros x. rewrite Hg. cbn [refs Git.setRefs]. apply lookup_foldl_delete. }
    assert (refname <$> turnRefs (git sf) ≡ₚ newest) as Hperm.
    { apply NoDup_Permutation.
      - apply NoDup_turnRefs.
      - subst newest. rewrite fmap_drop.
        pose proof (NoDup_turnRefs (git s)) as Hnd. fold turns in Hnd.
        rewrite <- (take_drop (n - 100) (refname <$> turns)) in Hnd.
        by apply NoDup_app in Hnd as (_ & _ & ?).
      - intros x. rewrite elem_of_turnRefs_names, Hrefs.
        pose proof (NoDup_turnRefs (git s)) as Hnd. fold turns in Hnd.
        pose proof (elem_of_turnRefs_names (git s) x) as Hx. fold turns in Hx.
        rewrite <- (take_drop (n - 100) (refname <$> turns)) in Hnd, Hx.
        rewrite <- !fmap_take, <- !fmap_drop in Hnd, Hx. fold oldest newest in Hnd, Hx.
        apply NoDup_app in Hnd as (_ & Hdisj & _).
        rewrite elem_of_app in Hx.
        destruct (decide (x ∈ oldest)) as [Ho|Ho].
        + split; [by intros [[? [=]] _]|]. intros Hnew. by destruct (Hdisj _ Ho).
        + split; [intros H; apply Hx in H; tauto|]. intros Hnew. apply Hx. by right. }
    split_and!; [done|done|].
    rewrite <- (length_fmap refname), Hperm. subst newest.
    rewrite length_fmap, length_drop. lia.
  - split; [|lia]. intros _. done.
Qed.


(** ** The names of the refs, and the commit of a turn *)

Lemma digit_solid c : Js.isDigit c = true -> solid c = true.
Proof. destruct c as [[] [] [] [] [] [] [] []]; by vm_compute. Qed.

Lemma sanitized_solid c : solid (if Js.isRefSafe c then c else "_"%char) = true.
Proof. destruct c as [[] [] [] [] [] [] [] []]; by vm_compute. Qed.

Lemma decimal_solid n : Js.forallb solid (Js.decimal n) = true.
Proof. eapply forallb_impl; [apply digit_solid|apply decimal_digits]. Qed.

Lemma sanitizeForRef_solid x : Js.forallb solid (sanitizeForRef x) = true.
Proof.
  unfold sanitizeForRef. induction x as [|c x IH]; [done|].
  cbn [Js.mapChars Js.forallb]. by rewrite sanitized_solid, IH.
Qed.

Lemma validRefName_prefix x :
  Js.forallb solid x = true -> Git.validRefName (REF_PREFIX +:+ x) = true.
Proof.
  intros Hx. unfold Git.validRefName, Js.isToken. fold solid.
  rewrite forallb_app, Hx. reflexivity.
Qed.


Lemma valid_backupName t :
  Git.validRefName (REF_PREFIX +:+ BEFORE_RESTORE_PREFIX +:+ Js.decimal t) = true.
Proof.
  apply validRefName_prefix. rewrite forallb_app, decimal_solid. reflexivity.
Qed.

Lemma valid_resumeName t :
  Git.validRefName (REF_PREFIX +:+ "checkpoint-resume-" +:+ Js.decimal t) = true.
Proof.
  apply validRefName_prefix. rewrite forallb_app, decimal_solid. reflexivity.
Qed.

Lemma length_listAscending pat g : length (Git.listAscending pat g) <= size (refs g).
Proof.
  unfold Git.listAscending. rewrite merge_sort_Permutation.
  etrans; [apply length_filter|]. unfold Git.refInfos.
  by rewrite length_fmap, length_map_to_list.
Qed.

Lemma length_turnRefs g : length (turnRefs g) <= size (refs g).
Proof. unfold turnRefs. etrans; [apply length_filter|]. apply length_listAscending. Qed.








(** ** Commands keep the repository well formed *)

Lemma run_sound args g out g' :
  Git.run args g = Some (out, g') ->
  insideWorkTree g' = true /\ (wf_git g -> wf_git g').
Proof.
  unfold Git.run. destruct (insideWorkTree g) eqn:Hi; cbn [negb]; [|done].
  destruct args as [|cmd [|a [|b [|c [|d [|? ?]]]]]]; try done.
  - repeat case_match; try done; intros [= <- <-]; done.
  - repeat case_match; try done; intros [= <- <-]; (split; [done|]); intros Hwf.
    + by apply wf_git_delete.
    + apply wf_git_insert; [done| |by eauto].
      match goal with H : _ && _ = true |- _ => by apply andb_prop in H as [_ ?] end.
  - repeat case_match; try done; intros [= <- <-]; (split; [|intros Hwf]); try done.
    + match goal with H : Git.checkout _ _ = Some _ |- _ =>
        apply checkout_Some in H as (? & _ & [_ ->]%checkoutPaths_Some) end. done.
    + by eapply wf_git_checkout.
  - repeat case_match; try done; intros [= <- <-]; done.
Qed.

Lemma sound_ext s s' :
  git s' = git s -> faults s' = faults s -> sound s -> sound s'.
Proof. intros Hg Hf [[? ?] ?]. unfold sound, calm. by rewrite Hg, Hf. Qed.

Lemma preserves_sound_exec args : preserves sound (exec args).
Proof.
  intros s [[Hf Hi] Hwf].
  destruct (exec_cases args s)
    as [(out & g' & _ & Hrun & ->)|[[Hrej ->]|[Hrej ->]]].
  - destruct (run_sound _ _ _ _ Hrun) as [Hi' Hwf'].
    split; [split|]; cbn; [by rewrite Hf|done|auto].
  - split; [split|]; cbn; [by rewrite Hf|done|done].
  - split; [split|]; cbn; [by rewrite Hf|done|done].
Qed.

Lemma preserves_sound_snapshot root : preserves sound (execAsyncSnapshot root).
Proof.
  intros s [[Hf Hi] Hwf]. unfold execAsyncSnapshot, nextFault.
  destruct (_ || _).
  - split; [split|]; cbn; [by rewrite Hf|done|done].
  - cbn [git setFaults clock].
    pose proof (commitTree_spec {| tree := Git.snapshot (git s); cdate := (clock s / 1000)%N |}
                  (git s)) as (i & _ & _ & Hobj & Hrefs & _ & Hi' & _).
    destruct (Git.commitTree _ _) as [sha g']. cbn [fst snd] in *.
    split; [split|]; cbn; [by rewrite Hf|congruence|].
    by eapply wf_git_grow.
Qed.

Lemma preserves_sound_modify (f : St -> St) :
  (forall s, git (f s) = git s) -> (forall s, faults (f s) = faults s) ->
  preserves sound (modify f).
Proof. intros Hg Hf s Hs. eapply sound_ext; [apply Hg|apply Hf|done]. Qed.

Ltac sound_step :=
  first
    [ apply preserves_ret | apply preserves_gets
    | apply preserves_bind | apply preserves_tryCatch | apply preserves_tryFinally
    | apply preserves_forOf
    | apply preserves_sound_exec
    | apply preserves_sound_snapshot
    | apply preserves_sound_modify; [done|done]
    | progress intros
    | match goal with
      | |- preserves _ (match ?x with _ => _ end) => destruct x
      | |- preserves _ (if ?x then _ else _) => destruct x
      | |- preserves _ (let '(_, _) := ?x in _) => destruct x
      end ].

Ltac sound := repeat sound_step.

Lemma preserves_sound_notify msg l : preserves sound (notify msg l).
Proof. unfold notify. sound. Qed.

Lemma preserves_sound_captureWorktree : preserves sound (captureWorktree exec).
Proof. unfold captureWorktree, getRepoRoot. sound. Qed.

Lemma preserves_sound_findBeforeRestoreRef : preserves sound (findBeforeRestoreRef exec).
Proof. unfold findBeforeRestoreRef. sound. Qed.

Lemma preserves_sound_restoreWithBackup target :
  preserves sound (restoreWithBackup exec exec target notify).
Proof.
  unfold restoreWithBackup. apply preserves_tryCatch.
  - apply preserves_bind; [apply preserves_sound_findBeforeRestoreRef|]. intros b.
    apply preserves_bind; [apply preserves_sound_captureWorktree|]. intros sha. sound.
  - intros e. apply preserves_bind; [apply preserves_sound_notify|]. sound.
Qed.

Lemma preserves_sound_rebuild : preserves sound (rebuildCheckpointsMap exec).
Proof. unfold rebuildCheckpointsMap, rebuildOne. sound. Qed.

Lemma preserves_sound_prune : preserves sound (pruneCheckpoints exec).
Proof. unfold pruneCheckpoints, pruneOne. sound. Qed.

Lemma preserves_sound_updateStatus ctx : preserves sound (updateStatus ctx).
Proof. unfold updateStatus. sound. Qed.

Lemma preserves_sound_initializeForSession ctx :
  preserves sound (initializeForSession exec ctx).
Proof.
  unfold initializeForSession, resetState, createCheckpointFromWorktree.
  destruct (negb (hasUI ctx)); [apply preserves_ret|].
  apply preserves_bind; [sound|]. intros _.
  apply preserves_bind; [sound|]. intros _.
  apply preserves_bind; [sound|]. intros inRepo.
  destruct (negb inRepo); [sound|].
  apply preserves_bind; [apply preserves_sound_rebuild|]. intros _.
  apply preserves_bind; [sound|]. intros now.
  apply preserves_bind; [|intros; apply preserves_sound_updateStatus].
  apply preserves_tryCatch; [|sound].
  apply preserves_bind; [|sound].
  apply preserves_tryCatch; [|sound].
  apply preserves_bind; [apply preserves_sound_captureWorktree|]. sound.
Qed.


(** ** Rebuilding the checkpoint map *)

Ltac st_simpl :=
  cbn [checkpoints resumeCheckpoint repoRoot isGitRepo pendingCheckpoint git clock
       faults rejecting trace status notifications menus
       setCheckpoints setResumeCheckpoint setRepoRoot setIsGitRepo setPendingCheckpoint
       setGit setClock setFaults setTrace setStatus setNotifications setMenus
       record ran fst snd] in *.

(** ** The mapping a ref listing stands for *)

Lemma rebuildOne_spec ref s :
  (rebuildOne ref s).1 = Normal tt /\
  checkpoints (rebuildOne ref s).2 = rebuildStep (checkpoints s) ref.
Proof.
  unfold rebuildOne, rebuildStep, turnEntry, checkpointIdOf.
  destruct (negb _); [done|]. destruct (Js.startsWith _ "checkpoint-resume-"); [done|].
  by destruct (matchCheckpoint _) as [[ts E]|].
Qed.

Lemma forOf_rebuildOne names s :
  (forOf names rebuildOne s).1 = Normal tt /\
  checkpoints (forOf names rebuildOne s).2 = foldl rebuildStep (checkpoints s) names.
Proof.
  revert s. induction names as [|x names IH]; intros s; cbn [forOf foldl]; [done|].
  unfold bind. destruct (rebuildOne_spec x s) as [Hv Hc].
  destruct (rebuildOne x s) as [[[]|e] s1]; cbn [fst snd] in *; [|done].
  rewrite <- Hc. apply IH.
Qed.

Lemma foldl_rebuildStep_lookup E (l : list RefInfo) (m : gmap string string) :
  foldl rebuildStep m (refname <$> l) !! E =
  match last (filter (fun r => turnEntry (refname r) = Some E) l) with
  | Some r => Some (checkpointIdOf (refname r))
  | None => m !! E
  end.
Proof.
  revert m. induction l as [|x l IH]; intros m; [done|].
  cbn [fmap list_fmap foldl]. rewrite IH. unfold rebuildStep.
  destruct (decide (turnEntry (refname x) = Some E)) as [Hx|Hx].
  - rewrite filter_cons_True by done. rewrite last_cons, Hx.
    destruct (last _); [done|]. by rewrite lookup_insert_eq.
  - rewrite filter_cons_False by done.
    destruct (last _); [done|].
    destruct (turnEntry (refname x)) as [E'|]; [|done].
    rewrite lookup_insert_ne; [done|congruence].
Qed.

Lemma rebuild_sound s :
  sound s ->
  forall E, checkpoints (exec_state (rebuildCheckpointsMap exec) s) !! E =
            match latestFor (git s) E with
            | Some cid => Some cid
            | None => checkpoints s !! E
            end.
Proof.
  intros [Hcalm Hwf] E. unfold rebuildCheckpointsMap. rewrite exec_state_tryCatch_ret.
  unfold exec_state, bind. change (exec _ s) with (exec listingArgs s).
  destruct (exec_listing_calm s Hcalm Hwf) as (result & -> & ->).
  cbn beta iota.
  destruct (forOf_rebuildOne (refname <$> Git.listAscending REF_PREFIX (git s))
              (ran listingArgs "" (git s) s).2) as [_ ->].
  cbn [checkpoints ran snd record setTrace setGit setFaults].
  rewrite foldl_rebuildStep_lookup. unfold latestFor, candidates.
  by destruct (last _).
Qed.

(** among the turn checkpoints of an entry, the one listed last was
    created last *)
Lemma last_candidate_newest g E r r' :
  last (candidates g E) = Some r -> r' ∈ candidates g E ->
  (creatordate r' <= creatordate r)%N.
Proof.
  intros (l & Hl)%last_Some Hr'.
  pose proof (StronglySorted_filter Git.olderFirst
    (fun r => turnEntry (refname r) = Some E) _ (listAscending_sorted REF_PREFIX g)) as Hs.
  fold (candidates g E) in Hs. rewrite Hl in Hs, Hr'.
  apply elem_of_app in Hr' as [Hin|Hin%list_elem_of_singleton]; [|subst; lia].
  assert (Git.olderFirst r' r) as [?|[? _]]; [|lia..].
  eapply StronglySorted_app_1_elem_of; [exact Hs|done|by left].
Qed.

Lemma bind_checkpoints {A B} (m : M A) (k : A -> M B) s :
  (forall a, keeps checkpoints (k a)) ->
  checkpoints (bind m k s).2 = checkpoints (m s).2.
Proof.
  intros Hk. unfold bind. destruct (m s) as [[a|e] s1]; [|done]. apply Hk.
Qed.

Lemma keeps_checkpoints_createCheckpoint cid :
  keeps checkpoints (createCheckpointFromWorktree exec exec cid).
Proof.
  unfold createCheckpointFromWorktree. apply keeps_tryCatch; [|keeps].
  apply keeps_bind; [by apply keeps_captureWorktree|]. keeps.
Qed.

(** the session start, up to and including the rebuild of the map *)
Lemma initializeForSession_checkpoints ctx s :
  hasUI ctx = true -> sound s ->
  forall E, checkpoints (exec_state (initializeForSession exec ctx) s) !! E =
            latestFor (git s) E.
Proof.
  intros Hui Hs E. pose proof Hs as [[Hf Hi] Hwf].
  unfold exec_state, initializeForSession. rewrite Hui. cbn [negb].
  unfold bind at 1, resetState at 1, modify at 1. cbn beta iota.
  unfold bind at 1, tryCatch at 1, bind at 1.
  erewrite exec_calm; [|done|rewrite run_inside; st_simpl; rewrite Hi; reflexivity].
  unfold ran at 1. cbn beta iota. unfold modify at 1. cbn beta iota.
  unfold bind at 1, gets at 1. cbn beta iota.
  cbn [stdout].
  change (String.eqb (Js.trim ("true" +:+ String LF "")) "true") with true.
  cbn [isGitRepo setIsGitRepo negb].
  rewrite bind_checkpoints.
  2:{ intros _. apply keeps_bind; [apply keeps_gets|]. intros now.
      apply keeps_bind; [|intros; unfold updateStatus; keeps].
      apply keeps_tryCatch; [|keeps].
      apply keeps_bind; [apply keeps_checkpoints_createCheckpoint|]. keeps. }
  match goal with |- checkpoints (rebuildCheckpointsMap exec ?st).2 !! _ = _ =>
    pose proof (rebuild_sound st) as Hr end.
  unfold exec_state in Hr. rewrite Hr.
  - st_simpl. destruct (latestFor (git s) E); [done|]. apply lookup_empty.
  - split; [split|]; cbn; [by rewrite Hf|done|done].
Qed.


(** ** The rebuilt map depends on the store only *)

Lemma NoDup_fmap_eq {A B} (f : A -> B) (l : list A) x y :
  NoDup (f <$> l) -> x ∈ l -> y ∈ l -> f x = f y -> x = y.
Proof.
  induction l as [|a l IH]; cbn [fmap list_fmap]; [by intros _ ?%elem_of_nil|].
  intros [Ha Hl]%NoDup_cons [->|Hx]%elem_of_cons [->|Hy]%elem_of_cons Hf; auto.
  - destruct Ha. rewrite Hf. by apply list_elem_of_fmap_2.
  - destruct Ha. rewrite <- Hf. by apply list_elem_of_fmap_2.
Qed.

(** two listings in creation order with the same refs are the same list *)
Lemma sorted_listing_ext (l1 l2 : list RefInfo) :
  StronglySorted Git.olderFirst l1 -> StronglySorted Git.olderFirst l2 ->
  NoDup (refname <$> l1) -> NoDup (refname <$> l2) ->
  (forall x, x ∈ l1 <-> x ∈ l2) -> l1 = l2.
Proof.
  intros Hs1 Hs2 Hn1 Hn2 Hel.
  apply (StronglySorted_unique_strong Git.olderFirst); [|done|done|].
  - intros x y Hx Hy%Hel [?|[? Hxy]] [?|[? Hyx]]; try lia.
    apply (NoDup_fmap_eq refname l1); [done..|]. by apply strLeb_antisym.
  - apply NoDup_Permutation; [by eapply NoDup_fmap_1..|done].
Qed.

Lemma candidates_sorted g E : StronglySorted Git.olderFirst (candidates g E).
Proof. apply StronglySorted_filter, listAscending_sorted. Qed.

Lemma NoDup_candidates g E : NoDup (refname <$> candidates g E).
Proof. apply NoDup_fmap_filter, NoDup_listAscending. Qed.

Lemma elem_of_candidates g E r :
  r ∈ candidates g E <->
  exists n sha, refs g !! n = Some sha /\ r = Git.refInfo g (n, sha) /\
                Git.refMatches REF_PREFIX n = true /\ turnEntry n = Some E.
Proof.
  unfold candidates. rewrite list_elem_of_filter, elem_of_listAscending, elem_of_refInfos.
  split.
  - intros (Ht & (n & sha & H & ->) & Hm). exists n, sha. done.
  - intros (n & sha & H & -> & Hm & Ht). split_and!; [done| |done]. eauto.
Qed.

Lemma sameTurnRefs_refl g : sameTurnRefs g g.
Proof. split; [exists []; by rewrite app_nil_r|auto]. Qed.

Lemma refInfo_grow g g' n sha :
  wf_git g -> refs g !! n = Some sha -> (exists tl, objects g' = objects g ++ tl) ->
  Git.refInfo g' (n, sha) = Git.refInfo g (n, sha).
Proof.
  intros Hwf H [tl Hobj].
  destruct (wf_git_lookup _ _ _ Hwf H) as (_ & i & -> & Hi).
  unfold Git.refInfo. cbn [fst snd]. f_equal.
  rewrite !catFile_shaOf, Hobj. by rewrite lookup_app_l.
Qed.

Lemma candidates_sameTurnRefs g g' E :
  wf_git g -> wf_git g' -> sameTurnRefs g g' -> candidates g' E = candidates g E.
Proof.
  intros Hwf Hwf' [Hobj Hrefs].
  apply sorted_listing_ext;
    [apply candidates_sorted..|apply NoDup_candidates|apply NoDup_candidates|].
  intros r. rewrite !elem_of_candidates. split.
  - intros (n & sha & H & -> & Hm & Ht). exists n, sha.
    destruct (Hrefs n) as [?|Hn]; [congruence|]. rewrite Hn in H.
    split_and!; try done. by apply refInfo_grow.
  - intros (n & sha & H & -> & Hm & Ht). exists n, sha.
    destruct (Hrefs n) as [?|Hn]; [congruence|].
    split_and!; try done; [congruence|]. symmetry. by apply refInfo_grow.
Qed.

Lemma latestFor_sameTurnRefs g g' E :
  wf_git g -> wf_git g' -> sameTurnRefs g g' -> latestFor g' E = latestFor g E.
Proof. intros. unfold latestFor. by erewrite candidates_sameTurnRefs. Qed.

Lemma turnEntry_resume x : turnEntry (REF_PREFIX +:+ "checkpoint-resume-" +:+ x) = None.
Proof.
  unfold turnEntry, checkpointIdOf. rewrite replace_prefix.
  change (Js.startsWith ("checkpoint-resume-" +:+ x) "checkpoint-") with true.
  cbn [negb]. by rewrite startsWith_app.
Qed.

Section SameTurnRefs.
Variable s0 : St.
Let I (s : St) : Prop := sameTurnRefs (git s0) (git s).

Lemma preserves_same_git {A} (m : M A) : keeps git m -> preserves I m.
Proof. intros Hm s Hs. unfold I. by rewrite Hm. Qed.

Lemma preserves_same_snapshot root : preserves I (execAsyncSnapshot root).
Proof.
  intros s [[tl Hobj] Hrefs]. unfold execAsyncSnapshot, nextFault.
  destruct (_ || _); [by split; [exists tl|]|].
  cbn [git setFaults clock].
  pose proof (commitTree_spec {| tree := Git.snapshot (git s); cdate := (clock s / 1000)%N |}
                (git s)) as (i & _ & _ & [tl' Hobj'] & Hrefs' & _).
  destruct (Git.commitTree _ _) as [sha g']. cbn [fst snd] in *.
  split; cbn.
  - exists (tl ++ tl'). by rewrite Hobj', Hobj, app_assoc.
  - intros n. rewrite Hrefs'. apply Hrefs.
Qed.

Lemma preserves_same_resume x sha :
  preserves I (exec ["update-ref"; REF_PREFIX +:+ "checkpoint-resume-" +:+ x; sha]).
Proof.
  intros s [Hobj Hrefs].
  destruct (exec_git ["update-ref"; REF_PREFIX +:+ "checkpoint-resume-" +:+ x; sha] s)
    as [Hg|[out H]]; unfold I.
  - by rewrite Hg.
  - rewrite run_update in H. destruct (negb _); [done|].
    destruct (Git.validRefName _); [|done]. destruct (Git.catFile _ _); [|done].
    injection H as _ <-. split; [done|]. intros n. cbn [refs Git.setRefs].
    rewrite lookup_insert. case_decide; [|apply Hrefs].
    left. subst n. apply turnEntry_resume.
Qed.

Lemma preserves_same_initializeForSession ctx :
  preserves I (initializeForSession exec ctx).
Proof.
  unfold initializeForSession, resetState, createCheckpointFromWorktree.
  destruct (negb (hasUI ctx)); [apply preserves_ret|].
  apply preserves_bind; [by apply preserves_same_git, keeps_modify|]. intros _.
  apply preserves_bind.
  { apply preserves_tryCatch; [|intros; by apply preserves_same_git, keeps_modify].
    apply preserves_bind; [apply preserves_same_git, keeps_git_inside|].
    intros. by apply preserves_same_git, keeps_modify. }
  intros _. apply preserves_bind; [apply preserves_gets|]. intros inRepo.
  destruct (negb inRepo); [by apply preserves_same_git, keeps_modify|].
  apply preserves_bind; [apply preserves_same_git, keeps_git_rebuild|]. intros _.
  apply preserves_bind; [apply preserves_gets|]. intros now.
  apply preserves_bind; [|intros; apply preserves_same_git, keeps_git_updateStatus].
  apply preserves_tryCatch; [|intros; apply preserves_ret].
  apply preserves_bind.
  2:{ intros []; [by apply preserves_same_git, keeps_modify|apply preserves_ret]. }
  apply preserves_tryCatch; [|intros; apply preserves_ret].
  apply preserves_bind.
  { unfold captureWorktree, getRepoRoot.
    apply preserves_bind; [|intros; apply preserves_same_snapshot].
    apply preserves_bind; [apply preserves_gets|]. intros cached.
    destruct (truthyOpt cached); [apply preserves_ret|].
    apply preserves_bind; [apply preserves_same_git, keeps_git_toplevel|]. intros.
    apply preserves_bind; [by apply preserves_same_git, keeps_modify|]. intros.
    apply preserves_ret. }
  intros sha. apply preserves_bind; [apply preserves_same_resume|]. intros.
  apply preserves_ret.
Qed.

End SameTurnRefs.

(** C8: the rebuild of a session start (the reset of the state followed by
    rebuildCheckpointsMap, as initializeForSession runs them), when no
    command fails.  Whatever the map held before, afterwards it sends each
    entry id E to the turn-kind ref of E that the listing gives last, the
    one with the latest creation time, and to nothing when the store has
    none (resume refs, before-restore refs and undecodable names are
    skipped).  So the map depends on the store only, and a second rebuild
    gives the same map. *)
Theorem rebuild_is_a_function_of_the_store (ctx : Ctx) (s : St) :
  hasUI ctx = true -> sound s ->
  let s1 := exec_state (initializeForSession exec ctx) s in
  (forall E, checkpoints s1 !! E = latestFor (git s) E) /\
  (forall E r r', last (candidates (git s) E) = Some r -> r' ∈ candidates (git s) E ->
     (creatordate r' <= creatordate r)%N) /\
  (forall s2, sound s2 -> git s2 = git s ->
     checkpoints (exec_state (initializeForSession exec ctx) s2) = checkpoints s1) /\
  checkpoints (exec_state (initializeForSession exec ctx) s1) = checkpoints s1.
Proof.
  intros Hui Hs s1. split_and!.
  - by apply initializeForSession_checkpoints.
  - intros E r r'. apply last_candidate_newest.
  - intros s2 Hs2 Hg. apply map_eq. intros E. subst s1.
    rewrite !initializeForSession_checkpoints by done. by rewrite Hg.
  - assert (sound s1) as Hs1 by exact (preserves_sound_initializeForSession ctx s Hs).
    apply map_eq. intros E.
    rewrite (initializeForSession_checkpoints ctx s1) by done. subst s1.
    rewrite (initializeForSession_checkpoints ctx s) by done.
    apply latestFor_sameTurnRefs; [apply Hs|apply Hs1|].
    apply (preserves_same_initializeForSession s ctx s), sameTurnRefs_refl.
Qed.


(** ** The steps of a restore *)

(** ** The restore protocol, step by step *)




(** a command other than the checkout leaves the files alone *)
Lemma run_worktree args g out g' :
  Git.run args g = Some (out, g') ->
  (forall target, args <> ["checkout"; target; "--"; "."]) ->
  worktree g' = worktree g.
Proof.
  unfold Git.run. destruct (negb _); [done|].
  destruct args as [|cmd [|a [|b [|c [|d [|? ?]]]]]]; try done.
  - repeat case_match; try done; intros [= <- <-]; done.
  - repeat case_match; try done; intros [= <- <-]; done.
  - destruct (_ && _ && _); [by intros [= <- <-]|].
    destruct (String.eqb cmd "checkout" && String.eqb b "--" && String.eqb c ".") eqn:E;
      [|done].
    apply andb_prop in E as [[E1 E2]%andb_prop E3].
    apply String.eqb_eq in E1, E2, E3. subst. intros _ H. by destruct (H a).
  - repeat case_match; try done; intros [= <- <-]; done.
Qed.




(** ** The order of the steps of a restore *)

Lemma ranAll_app l k : ranAll (l ++ k) = ranAll l ++ ranAll k.
Proof. apply fmap_app. Qed.




(** ** A restore when nothing fails: the backup and the undo *)

Lemma isToken_decimal n : Js.isToken (Js.decimal n) = true.
Proof.
  unfold Js.isToken. rewrite decimal_truthy. exact (decimal_solid n).
Qed.

Lemma trim_line n sha :
  Js.isToken n = true -> Js.isToken sha = true ->
  Js.trim ((n +:+ String SP sha) +:+ String LF "") = n +:+ String SP sha.
Proof.
  intros Hn Hsha. unfold Js.trim. rewrite !append_assoc.
  rewrite trimStart_token by done.
  assert (Js.trimEnd (sha +:+ String LF "") = sha) as Hend.
  { rewrite trimEnd_app_blank by done. by apply trimEnd_token. }
  assert (Js.truthy sha = true) as Ht by by apply token_truthy.
  rewrite trimEnd_app_keep.
  - rewrite append_cons, trimEnd_cons, Hend. by destruct sha.
  - rewrite append_cons, trimEnd_cons, Hend. by destruct sha.
Qed.

Lemma split_line n sha :
  Js.isToken n = true -> Js.isToken sha = true ->
  Js.split SP (n +:+ String SP sha) = [n; sha].
Proof.
  intros Hn Hsha. rewrite split_sep by (by apply token_no).
  by rewrite split_last by (by apply token_no).
Qed.

Lemma elem_of_listDescending_refs pat g r :
  r ∈ Git.listDescending pat g ->
  refs g !! refname r = Some (objectname r) /\ Git.refMatches pat (refname r) = true /\
  r = Git.refInfo g (refname r, objectname r).
Proof.
  intros [(n & sha & H & ->)%elem_of_refInfos Hm]%elem_of_listDescending. done.
Qed.

Lemma findBeforeRestoreRef_sound s :
  sound s ->
  findBeforeRestoreRef exec s =
  (Normal (backupOf <$> head (Git.listDescending backupPattern (git s))),
   (ran backupArgs "" (git s) s).2).
Proof.
  intros [[Hf Hi] Hwf]. unfold findBeforeRestoreRef, tryCatch, bind.
  change (exec _ s) with (exec backupArgs s).
  erewrite exec_calm; [|done|rewrite run_backup, Hi; reflexivity].
  unfold ran. cbn beta iota. cbn [stdout]. fold backupPattern.
  destruct (Git.listDescending backupPattern (git s)) as [|r l] eqn:El; [reflexivity|].
  assert (r ∈ Git.listDescending backupPattern (git s)) as Hr by (rewrite El; left).
  apply elem_of_listDescending_refs in Hr as (Hr & _ & _).
  destruct (wf_git_lookup _ _ _ Hwf Hr) as (Hv & i & Hsha & _).
  assert (Js.isToken (refname r) = true) as Hn.
  { unfold Git.validRefName in Hv. by apply andb_prop in Hv as [? _]. }
  assert (Js.isToken (objectname r) = true) as Ho.
  { rewrite Hsha. apply isToken_decimal. }
  change (take 1 (r :: l)) with [r].
  change (Git.unlines (Git.fmtRefnameObjectname <$> [r]))
    with ((refname r +:+ String SP (objectname r)) +:+ String LF "").
  rewrite trim_line by done.
  assert (Js.truthy (refname r +:+ String SP (objectname r)) = true) as ->.
  { apply token_truthy in Hn. by destruct (refname r). }
  cbn [negb]. rewrite split_line by done.
  rewrite (token_truthy _ Hn), (token_truthy _ Ho). reflexivity.
Qed.

Lemma captureWorktree_sound s :
  sound s ->
  exists s1,
    captureWorktree exec s = (Normal (Git.commitTree (snapshotCommit s) (git s)).1, s1) /\
    git s1 = (Git.commitTree (snapshotCommit s) (git s)).2 /\
    faults s1 = [] /\ sameSession s s1.
Proof.
  intros [[Hf Hi] Hwf]. unfold captureWorktree, getRepoRoot, bind, gets, ret, modify.
  cbn beta iota.
  assert (forall s0 root, faults s0 = [] -> insideWorkTree (git s0) = true ->
    execAsyncSnapshot root s0 =
    (Normal (Git.commitTree (snapshotCommit s0) (git s0)).1,
     record ExecAsyncSnapshot Ran
       (setGit (Git.commitTree (snapshotCommit s0) (git s0)).2 (setFaults [] s0)))) as Hsnap.
  { intros s0 root Hf0 Hi0. unfold execAsyncSnapshot, nextFault. rewrite Hf0.
    cbn [hd tl git setFaults clock orb]. rewrite Hi0. cbn [negb].
    unfold snapshotCommit. by destruct (Git.commitTree _ _). }
  destruct (truthyOpt (repoRoot s)).
  - rewrite Hsnap by done. eexists. split; [reflexivity|]. by repeat split.
  - erewrite exec_calm; [|done|rewrite run_toplevel, Hi; reflexivity].
    unfold ran. cbn beta iota. rewrite Hsnap by (cbn; by rewrite ?Hf).
    eexists. split; [reflexivity|]. by repeat split.
Qed.

Lemma exec_calm_git args s :
  faults s = [] ->
  faults (exec args s).2 = [] /\
  git (exec args s).2 =
    match Git.run args (git s) with Some (_, g') => g' | None => git s end.
Proof.
  intros Hf. unfold exec, nextFault. rewrite Hf. cbn [hd tl git setFaults].
  destruct (Git.run args (git s)) as [[out g']|]; [split; reflexivity|].
  change (rejecting (setFaults [] s)) with (rejecting s).
  destruct (rejecting s); split; reflexivity.
Qed.

Lemma restoreWithBackup_sound target s :
  sound s ->
  let r := restoreWithBackup exec exec target notify s in
  faults r.2 = [] /\
  match Git.checkout target (gitBeforeCheckout s) with
  | Some g' => r.1 = Normal true /\ git r.2 = g'
  | None => git r.2 = gitBeforeCheckout s
  end.
Proof.
  intros Hs r. subst r.
  destruct (restoreWithBackup exec exec target notify s) as [res sf] eqn:Hr.
  cbn [fst snd].
  unfold restoreWithBackup, tryCatch in Hr. unfold bind at 1 in Hr.
  rewrite findBeforeRestoreRef_sound in Hr by done. cbn beta iota in Hr.
  set (s0 := (ran backupArgs "" (git s) s).2) in *.
  assert (sound s0) as Hs0.
  { destruct Hs as [[Hf Hi] Hwf]. subst s0.
    split; [split|]; [cbn; by rewrite Hf|exact Hi|exact Hwf]. }
  assert (snapshotCommit s0 = snapshotCommit s) as Hsnap by reflexivity.
  destruct (captureWorktree_sound s0 Hs0) as (s1 & Hcap & Hg1 & Hf1 & Hsame1).
  rewrite Hsnap in Hcap, Hg1. change (git s0) with (git s) in Hcap, Hg1.
  unfold bind at 1 in Hr. rewrite Hcap in Hr. cbn beta iota in Hr.
  unfold bind at 1, gets at 1 in Hr. cbn beta iota in Hr.
  destruct Hsame1 as (_ & Hclock1 & _). change (clock s0) with (clock s) in Hclock1.
  rewrite Hclock1 in Hr.
  destruct (commitTree_spec (snapshotCommit s) (git s))
    as (i & Hsha & Hobj & Hgrow & Hrefs & Hw & Hin & _).
  destruct Hs as [[Hf Hi] Hwf].
  set (sha := (Git.commitTree (snapshotCommit s) (git s)).1) in *.
  set (g1 := (Git.commitTree (snapshotCommit s) (git s)).2) in *.
  assert (wf_git g1) as Hwf1 by by eapply wf_git_grow.
  unfold bind at 1 in Hr.
  erewrite exec_calm in Hr; [|done|].
  2:{ rewrite run_update, Hg1, Hin, Hi, valid_backupName. cbn [negb].
      rewrite Hsha, catFile_shaOf, Hobj. reflexivity. }
  unfold ran in Hr. cbn beta iota in Hr.
  fold (backupName (clock s)) in Hr.
  set (s2 := record _ Ran _) in Hr.
  assert (faults s2 = []) as Hf2. { subst s2. cbn. rewrite Hf1. reflexivity. }
  assert (git s2 = Git.setRefs (<[backupName (clock s) := sha]> (refs (git s))) g1) as Hg2.
  { subst s2. cbn [git record setGit setTrace]. rewrite Hrefs, <- Hsha. reflexivity. }
  clearbody s2.
  (* the previous backup, if there is one, is deleted *)
  assert (exists s3,
    (match backupOf <$> head (Git.listDescending backupPattern (git s)) with
     | Some b => exec ["update-ref"; "-d"; refName b] ;;; ret tt
     | None => ret tt
     end) s2 = (Normal tt, s3) /\ faults s3 = [] /\ git s3 = gitBeforeCheckout s)
    as (s3 & Hdel & Hf3 & Hg3).
  { unfold gitBeforeCheckout, refsAfterRestore. fold sha g1.
    destruct (head _) as [r|]; cbn [fmap option_fmap option_map backupOf refName].
    - unfold bind. erewrite exec_calm; [|done|].
      2:{ rewrite run_delete, Hg2. cbn [insideWorkTree Git.setRefs]. rewrite Hin, Hi.
          reflexivity. }
      unfold ran, ret. cbn beta iota. eexists. split; [reflexivity|].
      split; [cbn; by rewrite Hf2|]. cbn [git record setGit setTrace]. reflexivity.
    - exists s2. by rewrite Hg2. }
  unfold bind at 1 in Hr. rewrite Hdel in Hr. cbn beta iota in Hr.
  unfold bind at 1 in Hr.
  set (checkoutArgs := ["checkout"; target; "--"; "."]) in *.
  pose proof (exec_calm_git checkoutArgs s3 Hf3) as [Hf4 Hg4].
  assert (insideWorkTree (gitBeforeCheckout s) = true) as Hin3.
  { unfold gitBeforeCheckout. cbn. fold g1. by rewrite Hin. }
  assert (Git.run checkoutArgs (git s3) =
          match Git.checkout target (gitBeforeCheckout s) with
          | Some g' => Some ("", g')
          | None => None
          end) as Hrun.
  { rewrite Hg3. unfold checkoutArgs, Git.run. rewrite Hin3. reflexivity. }
  rewrite Hrun in Hg4.
  destruct (Git.checkout target (gitBeforeCheckout s)) as [g'|] eqn:Hco.
  - erewrite exec_calm in Hr; [|done|exact Hrun].
    unfold ran, ret in Hr. cbn beta iota in Hr. injection Hr as <- <-.
    split; [cbn; by rewrite Hf3|]. split; [done|]. reflexivity.
  - destruct (exec checkoutArgs s3) as [[x|e] s4]; cbn [snd] in *;
      unfold bind, notify, modify, ret in Hr; cbn beta iota in Hr;
      injection Hr as <- <-; split; try done; cbn [git setNotifications]; by rewrite <- Hg3.
Qed.

Lemma digit_not_slash c : Js.isDigit c = true -> Ascii.eqb "/" c = false.
Proof. destruct c as [[] [] [] [] [] [] [] []]; by vm_compute. Qed.

Lemma includes_digits s : Js.forallb Js.isDigit s = true -> Js.includes s "/" = false.
Proof.
  induction s as [|a s IH]; [done|]. cbn [Js.forallb]. intros [Ha Hs]%andb_prop.
  cbn [Js.includes Js.startsWith]. by rewrite (digit_not_slash a Ha), IH.
Qed.

Lemma refMatches_backupName t : Git.refMatches backupPattern (backupName t) = true.
Proof.
  unfold Git.refMatches, backupName.
  change (Git.stripStar backupPattern) with (Some (REF_PREFIX +:+ BEFORE_RESTORE_PREFIX)).
  cbn beta iota. rewrite <- append_assoc, startsWith_app, drop_app.
  by rewrite includes_digits by apply decimal_digits.
Qed.

Lemma shaOf_not_ref i : Git.validRefName (Git.shaOf i) = false.
Proof.
  unfold Git.validRefName, Git.shaOf. apply andb_false_intro2.
  pose proof (decimal_digits (N.of_nat i)) as Hd.
  pose proof (decimal_truthy (N.of_nat i)) as Ht.
  destruct (Js.decimal (N.of_nat i)) as [|a d]; [done|].
  cbn [Js.forallb] in Hd. apply andb_prop in Hd as [Ha _].
  cbn [Js.startsWith]. destruct a as [[] [] [] [] [] [] [] []]; try done.
Qed.

Lemma lookup_backups g n sha :
  backups g !! n = Some sha <->
  refs g !! n = Some sha /\ Git.refMatches backupPattern n = true.
Proof. unfold backups. by rewrite map_lookup_filter_Some. Qed.

Lemma map_size_le_1 {A} (m : gmap string A) a b x y :
  size m <= 1 -> m !! a = Some x -> m !! b = Some y -> a = b.
Proof.
  intros Hsz Ha Hb. destruct (decide (a = b)) as [|Hne]; [done|].
  assert (delete a m !! b = Some y) as Hd by by rewrite lookup_delete_ne.
  assert (size (delete a m) <> 0) as Hnz.
  { rewrite map_size_non_empty_iff. intros He. by rewrite He in Hd. }
  rewrite map_size_delete, Ha in Hnz. lia.
Qed.

Lemma head_listDescending_None pat g n sha :
  head (Git.listDescending pat g) = None -> refs g !! n = Some sha ->
  Git.refMatches pat n = false.
Proof.
  intros Hh Hn. destruct (Git.refMatches pat n) eqn:Hm; [|done].
  assert (Git.refInfo g (n, sha) ∈ Git.listDescending pat g) as Hel.
  { apply elem_of_listDescending. split; [|done]. apply elem_of_refInfos. eauto. }
  destruct (Git.listDescending pat g); [|done]. by apply elem_of_nil in Hel.
Qed.

Lemma head_listDescending_Some pat g r :
  head (Git.listDescending pat g) = Some r ->
  refs g !! refname r = Some (objectname r) /\ Git.refMatches pat (refname r) = true /\
  r = Git.refInfo g (refname r, objectname r).
Proof.
  intros Hh. apply elem_of_listDescending_refs.
  destruct (Git.listDescending pat g) as [|r' l]; [done|]. injection Hh as ->. left.
Qed.

(** with at most one backup before, and a fresh name for the new one, the
    refs after a restore hold exactly the new backup *)
Lemma backups_refsAfterRestore s :
  size (backups (git s)) <= 1 -> refs (git s) !! backupName (clock s) = None ->
  filter (fun kv => Git.refMatches backupPattern kv.1 = true) (refsAfterRestore s) =
  {[ backupName (clock s) := (Git.commitTree (snapshotCommit s) (git s)).1 ]}.
Proof.
  intros Hsz Hfresh. unfold refsAfterRestore.
  set (sha := (Git.commitTree (snapshotCommit s) (git s)).1).
  apply map_eq. intros n. apply option_eq. intros x.
  rewrite map_lookup_filter_Some, lookup_singleton_Some. cbn [fst].
  destruct (head (Git.listDescending backupPattern (git s))) as [r|] eqn:Hh.
  - apply head_listDescending_Some in Hh as (Hr & Hm & _).
    rewrite lookup_delete_Some, lookup_insert_Some. split.
    + intros [[Hne [[<- <-]|[Hne' Hn]]] Hmn]; [done|].
      destruct Hne. eapply (map_size_le_1 (backups (git s))); [done|..];
        apply lookup_backups; eauto.
    + intros [<- <-]. split; [|apply refMatches_backupName].
      split; [congruence|by left].
  - rewrite lookup_insert_Some. split.
    + intros [[[<- <-]|[Hne Hn]] Hmn]; [done|].
      by rewrite (head_listDescending_None _ _ _ _ Hh Hn) in Hmn.
    + intros [<- <-]. split; [by left|apply refMatches_backupName].
Qed.

Lemma gitBeforeCheckout_spec s :
  refs (gitBeforeCheckout s) = refsAfterRestore s /\
  worktree (gitBeforeCheckout s) = worktree (git s) /\
  ignored (gitBeforeCheckout s) = ignored (git s) /\
  (exists tl, objects (gitBeforeCheckout s) = objects (git s) ++ tl) /\
  Git.catFile (gitBeforeCheckout s) (Git.commitTree (snapshotCommit s) (git s)).1
    = Some (snapshotCommit s).
Proof.
  destruct (commitTree_spec (snapshotCommit s) (git s))
    as (i & Hsha & Hobj & Hgrow & Hrefs & Hw & Hin & Hig & _).
  unfold gitBeforeCheckout. cbn [refs worktree ignored objects Git.setRefs].
  split_and!; try done. rewrite Hsha, catFile_shaOf. exact Hobj.
Qed.

Lemma wf_gitBeforeCheckout s : wf_git (git s) -> wf_git (gitBeforeCheckout s).
Proof.
  intros Hwf.
  destruct (commitTree_spec (snapshotCommit s) (git s))
    as (i & Hsha & Hobj & Hgrow & Hrefs & _).
  set (g1 := (Git.commitTree (snapshotCommit s) (git s)).2) in *.
  assert (wf_git g1) as Hwf1 by by eapply wf_git_grow.
  assert (wf_git (Git.setRefs (<[backupName (clock s) :=
            (Git.commitTree (snapshotCommit s) (git s)).1]> (refs g1)) g1)) as Hwf2.
  { apply wf_git_insert; [done|apply valid_backupName|].
    rewrite Hsha, catFile_shaOf, Hobj. eauto. }
  unfold gitBeforeCheckout, refsAfterRestore. fold g1. rewrite <- Hrefs.
  destruct (head _) as [r|]; [|done].
  by apply (wf_git_delete _ (refname r)) in Hwf2.
Qed.

Lemma restore_backups target s :
  sound s -> size (backups (git s)) <= 1 -> refs (git s) !! backupName (clock s) = None ->
  let s' := exec_state (restoreWithBackup exec exec target notify) s in
  let sha := (Git.commitTree (snapshotCommit s) (git s)).1 in
  backups (git s') = {[ backupName (clock s) := sha ]} /\
  Git.catFile (git s') sha = Some (snapshotCommit s).
Proof.
  intros Hs Hsz Hfresh s' sha. subst s' sha. unfold exec_state.
  destruct (restoreWithBackup_sound target s Hs) as [_ Hg].
  destruct (gitBeforeCheckout_spec s) as (Hrefs & _ & _ & _ & Hcat).
  assert (backups (gitBeforeCheckout s) =
          {[ backupName (clock s) := (Git.commitTree (snapshotCommit s) (git s)).1 ]}) as Hb.
  { unfold backups. rewrite Hrefs. by apply backups_refsAfterRestore. }
  destruct (Git.checkout target (gitBeforeCheckout s)) as [g'|] eqn:Hco.
  - destruct Hg as [_ ->].
    apply checkout_Some in Hco as (c & _ & [_ ->]%checkoutPaths_Some). done.
  - by rewrite Hg.
Qed.

Lemma head_listDescending_singleton g n sha :
  backups g = {[ n := sha ]} ->
  backupOf <$> head (Git.listDescending backupPattern g) =
  Some {| refName := n; backupSha := sha |}.
Proof.
  intros Hb.
  destruct (head (Git.listDescending backupPattern g)) as [r|] eqn:Hh.
  - apply head_listDescending_Some in Hh as (Hr & Hm & _).
    assert (backups g !! refname r = Some (objectname r)) as Hl by by apply lookup_backups.
    rewrite Hb in Hl. apply lookup_singleton_Some in Hl as [-> ->]. done.
  - assert (backups g !! n = Some sha) as Hl by (rewrite Hb; apply lookup_singleton_eq).
    apply lookup_backups in Hl as [Hl Hm].
    by rewrite (head_listDescending_None _ _ _ _ Hh Hl) in Hm.
Qed.

Lemma cwd_gitBeforeCheckout s : cwd (gitBeforeCheckout s) = cwd (git s).
Proof.
  destruct (commitTree_spec (snapshotCommit s) (git s)) as (i & _ & _ & _ & _ & _ & _ & _ & _ & Hc).
  unfold gitBeforeCheckout. cbn [cwd Git.setRefs]. exact Hc.
Qed.

(** the repository after a restore in which nothing but the checkout can
    fail *)
Lemma restoreWithBackup_git target s :
  sound s ->
  git (restoreWithBackup exec exec target notify s).2 =
  default (gitBeforeCheckout s) (Git.checkout target (gitBeforeCheckout s)).
Proof.
  intros Hs. destruct (restoreWithBackup_sound target s Hs) as [_ Hg]. cbn zeta in Hg.
  destruct (Git.checkout target (gitBeforeCheckout s)); [by destruct Hg|done].
Qed.

Lemma worktree_checkoutPaths t g :
  worktree (default g (Git.checkoutPaths t g)) = afterCheckout (cwd g) t (worktree g) /\
  cwd (default g (Git.checkoutPaths t g)) = cwd g /\
  ignored (default g (Git.checkoutPaths t g)) = ignored g.
Proof.
  unfold Git.checkoutPaths, afterCheckout. cbn zeta. by case_decide.
Qed.

Lemma restoreThenUndo_worktree target shaT cT t2 s :
  sound s -> size (backups (git s)) <= 1 -> refs (git s) !! backupName (clock s) = None ->
  refs (git s) !! target = Some shaT -> Git.catFile (git s) shaT = Some cT ->
  Git.refMatches backupPattern target = false ->
  let dir := cwd (git s) in
  let W1 := afterCheckout dir (tree cT) (worktree (git s)) in
  worktree (git (exec_state (restoreWithBackup exec exec target notify) s)) = W1 /\
  worktree (git (exec_state (restoreThenUndo target t2) s))
    = afterCheckout dir (Git.snapshot (git s)) W1.
Proof.
  intros Hs Hsz Hfresh Ht HcT Hnb dir W1. subst dir W1.
  pose proof (restore_backups target s Hs Hsz Hfresh) as [Hb1 Hcat1].
  pose proof (preserves_sound_restoreWithBackup target s Hs) as Hs1.
  pose proof (restoreWithBackup_git target s Hs) as Hg1.
  destruct (unfailing_restoreWithBackup target s) as [ok1 Hok1].
  cbn zeta in Hb1, Hcat1.
  unfold restoreThenUndo, exec_state in *. unfold bind at 1.
  destruct (restoreWithBackup exec exec target notify s) as [res1 s1]. cbn [fst snd] in *.
  subst res1.
  destruct (gitBeforeCheckout_spec s) as (Hrefs & Hw & _ & [tl Hobj] & _).
  (* the target resolves when the checkout is reached *)
  assert (Git.revParse (gitBeforeCheckout s) target = Some cT) as Hrev.
  { unfold Git.revParse. rewrite Hrefs.
    assert (refsAfterRestore s !! target = Some shaT) as ->.
    { unfold refsAfterRestore.
      assert (<[backupName (clock s) := (Git.commitTree (snapshotCommit s) (git s)).1]>
                (refs (git s)) !! target = Some shaT) as Hin.
      { rewrite lookup_insert_ne; [done|]. intros Heq.
        by rewrite <- Heq, refMatches_backupName in Hnb. }
      destruct (head _) as [r|] eqn:Hh; [|done].
      apply head_listDescending_Some in Hh as (_ & Hm & _).
      rewrite lookup_delete_ne; [done|]. intros Heq. rewrite Heq in Hm. congruence. }
    apply catFile_Some in HcT as (i & -> & Hi).
    rewrite catFile_shaOf, Hobj. by rewrite lookup_app_l by by eapply lookup_lt_Some. }
  unfold Git.checkout in Hg1. rewrite Hrev in Hg1.
  destruct (worktree_checkoutPaths (tree cT) (gitBeforeCheckout s)) as (Hw1 & Hc1 & _).
  rewrite <- Hg1, Hw, cwd_gitBeforeCheckout in Hw1. rewrite <- Hg1, cwd_gitBeforeCheckout in Hc1.
  split; [exact Hw1|].
  (* time passes; the backup is looked up *)
  unfold bind at 1, modify at 1. cbn beta iota.
  set (s1' := setClock t2 s1).
  assert (sound s1') as Hs1'.
  { destruct Hs1 as [[Hf Hi] Hwf]. split; [split|]; [exact Hf|exact Hi|exact Hwf]. }
  unfold bind at 1. rewrite findBeforeRestoreRef_sound by done.
  change (git s1') with (git s1).
  rewrite (head_listDescending_singleton _ _ _ Hb1). cbn beta iota.
  set (s2 := (ran backupArgs "" (git s1) s1').2).
  assert (sound s2) as Hs2.
  { destruct Hs1 as [[Hf Hi] Hwf]. split; [split|]; [cbn; by rewrite Hf|exact Hi|exact Hwf]. }
  (* the undo restores the backup's commit *)
  unfold undoLastRewind. cbn [backupSha]. unfold bind at 1.
  pose proof (restoreWithBackup_git
    (Git.commitTree (snapshotCommit s) (git s)).1 s2 Hs2) as Hg3.
  destruct (gitBeforeCheckout_spec s2) as (Hrefs2 & Hw2 & _ & [tl2 Hobj2] & _).
  pose proof (cwd_gitBeforeCheckout s2) as Hc2.
  change (git s2) with (git s1) in *.
  assert (Git.revParse (gitBeforeCheckout s2) (Git.commitTree (snapshotCommit s) (git s)).1
          = Some (snapshotCommit s)) as Hrev2.
  { apply catFile_Some in Hcat1 as (i & Hi & Hoi). rewrite Hi.
    unfold Git.revParse.
    destruct (refs (gitBeforeCheckout s2) !! Git.shaOf i) as [x|] eqn:Hl.
    - apply (wf_git_lookup _ _ _ (wf_gitBeforeCheckout s2 (proj2 Hs2))) in Hl as [Hv _].
      by rewrite shaOf_not_ref in Hv.
    - rewrite catFile_shaOf, Hobj2. by rewrite lookup_app_l by by eapply lookup_lt_Some. }
  unfold Git.checkout in Hg3. rewrite Hrev2 in Hg3.
  destruct (worktree_checkoutPaths (tree (snapshotCommit s)) (gitBeforeCheckout s2))
    as (Hw3 & _ & _).
  rewrite <- Hg3, Hw2, Hc2, Hc1, Hw1 in Hw3.
  destruct (restoreWithBackup exec exec _ notify s2) as [res3 s3]. cbn [fst snd] in *.
  change (tree (snapshotCommit s)) with (Git.snapshot (git s)) in Hw3.
  destruct res3 as [[|]|e]; unfold bind, notify, modify, ret; cbn beta iota;
    cbn [snd git setNotifications]; exact Hw3.
Qed.

(** ** What a checkout does to the worktree *)

Lemma displaced_false t p :
  Git.displaced t p = false <-> forall q, is_Some (t !! q) -> Git.clashes p q = false.
Proof.
  unfold Git.displaced. split.
  - intros H q [v Hq]. apply not_true_iff_false. intros Hc.
    apply not_true_iff_false in H. apply H. apply existsb_exists.
    exists (q, v). split; [|exact Hc]. apply list_elem_of_In. by apply elem_of_map_to_list.
  - intros H. apply not_true_iff_false. intros [[q v] [Hin Hc]]%existsb_exists.
    apply list_elem_of_In, elem_of_map_to_list in Hin. cbn [fst] in Hc.
    rewrite H in Hc by eauto. discriminate.
Qed.

Lemma lookup_overlay t w p :
  Git.overlay t w !! p =
  match t !! p with
  | Some v => Some v
  | None => if Git.displaced t p then None else w !! p
  end.
Proof.
  unfold Git.overlay. destruct (t !! p) as [v|] eqn:Ht.
  - by apply lookup_union_Some_l.
  - rewrite lookup_union_r by done.
    destruct (Git.displaced t p) eqn:Hd.
    + apply map_lookup_filter_None. right. intros x _. cbn [fst]. by rewrite Hd.
    + destruct (w !! p) as [x|] eqn:Hw.
      * by apply map_lookup_filter_Some.
      * apply map_lookup_filter_None. by left.
Qed.

Lemma displaced_empty p : Git.displaced ∅ p = false.
Proof. apply displaced_false. intros q [v Hq]. by rewrite lookup_empty in Hq. Qed.

Lemma lookup_afterCheckout dir t w p :
  afterCheckout dir t w !! p =
  match Git.below dir t !! p with
  | Some v => Some v
  | None => if Git.displaced (Git.below dir t) p then None else w !! p
  end.
Proof.
  unfold afterCheckout. case_decide as He; [|apply lookup_overlay].
  by rewrite He, lookup_empty, displaced_empty.
Qed.

Lemma lookup_below dir t p v :
  Git.below dir t !! p = Some v <-> t !! p = Some v /\ Js.startsWith p dir = true.
Proof. unfold Git.below. by rewrite map_lookup_filter_Some. Qed.

(** C3 (as amended): when no command fails, the store holds at most one
    before-restore ref before the call, and the name of the new backup,
    before-restore-{now}, is not taken, then after restoreWithBackup the
    before-restore refs of the store are exactly the new one; it points to
    a commit of the worktree as it was before the call.  This holds whether
    or not the target resolves, that is, whether the call answers true or
    fails at the checkout. *)
Theorem restore_leaves_one_backup (target : string) (s : St) :
  sound s -> size (backups (git s)) <= 1 -> refs (git s) !! backupName (clock s) = None ->
  let s' := exec_state (restoreWithBackup exec exec target notify) s in
  let sha := (Git.commitTree (snapshotCommit s) (git s)).1 in
  backups (git s') = {[ backupName (clock s) := sha ]} /\
  size (backups (git s')) = 1 /\
  Git.catFile (git s') sha = Some (snapshotCommit s).
Proof.
  intros Hs Hsz Hfresh s' sha.
  destruct (restore_backups target s Hs Hsz Hfresh) as [Hb Hcat].
  split; [exact Hb|]. split; [|exact Hcat].
  subst s'. rewrite Hb. apply map_size_singleton.
Qed.

(** C5 (as amended): a restore to a checkpoint followed by the undo, when
    no command fails, the store holds at most one backup before, the name of
    the new backup is free and the target is a ref of the store that is not
    a backup.  Both steps are [git checkout <rev> -- .] in the directory the
    host runs in.  So every file of W below that directory that git does not
    ignore (every such file of the backup) has its content of W again; a
    file that the restore wrote and that the backup does not have stays,
    unless it is in the way of a file of the backup; and the final worktree
    is W when W is a tree of files and every file the restore wrote was a
    file of the backup. *)
Theorem restore_then_undo (target shaT : string) (cT : Commit) (t2 : N) (s : St) :
  sound s -> size (backups (git s)) <= 1 -> refs (git s) !! backupName (clock s) = None ->
  refs (git s) !! target = Some shaT -> Git.catFile (git s) shaT = Some cT ->
  Git.refMatches backupPattern target = false ->
  let W := worktree (git s) in
  let captured := Git.below (cwd (git s)) (Git.snapshot (git s)) in
  let written := Git.below (cwd (git s)) (tree cT) in
  let W' := worktree (git (exec_state (restoreThenUndo target t2) s)) in
  (forall p, is_Some (captured !! p) -> W' !! p = W !! p) /\
  (forall p v, written !! p = Some v -> captured !! p = None ->
     Git.displaced captured p = false -> W' !! p = Some v) /\
  (treeLike W -> (forall p, is_Some (written !! p) -> is_Some (captured !! p)) -> W' = W).
Proof.
  intros Hs Hsz Hfresh Ht HcT Hnb W captured written W'.
  destruct (restoreThenUndo_worktree target shaT cT t2 s Hs Hsz Hfresh Ht HcT Hnb)
    as [_ H2]. cbn zeta in H2. fold W in H2.
  assert (forall p x, captured !! p = Some x -> W !! p = Some x) as Hcap.
  { intros p x [Hx _]%lookup_below. by apply map_lookup_filter_Some in Hx as [Hx _]. }
  subst W'. rewrite H2. split_and!.
  - intros p [x Hx]. rewrite lookup_afterCheckout. fold captured. rewrite Hx.
    symmetry. by apply Hcap.
  - intros p v Hwr Hc Hd. rewrite lookup_afterCheckout. fold captured. rewrite Hc, Hd.
    rewrite lookup_afterCheckout. fold written. by rewrite Hwr.
  - intros Htree Hsub. apply map_eq. intros p.
    rewrite lookup_afterCheckout. fold captured.
    destruct (captured !! p) as [x|] eqn:Hc; [symmetry; by apply Hcap|].
    assert (written !! p = None) as Hwr.
    { apply eq_None_not_Some. intros Hw. apply Hsub in Hw. rewrite Hc in Hw. by destruct Hw. }
    rewrite lookup_afterCheckout. fold written. rewrite Hwr.
    destruct (W !! p) as [x|] eqn:HW; [|by repeat case_match].
    assert (forall t, (forall q, is_Some (t !! q) -> is_Some (captured !! q)) ->
                      Git.displaced t p = false) as Hfree.
    { intros t Hin. apply displaced_false. intros q Hq. apply Htree; [by rewrite HW|].
      apply Hin in Hq as [y Hy]. apply Hcap in Hy. by rewrite Hy. }
    rewrite (Hfree captured) by done. by rewrite (Hfree written).
Qed.



(** ** The values of the checkpoint map *)

Lemma sanitizeForRef_no_terminator id :
  Js.forallb (fun c => negb (Js.isLineTerminator c)) (sanitizeForRef id) = true.
Proof.
  eapply forallb_impl; [|apply sanitizeForRef_solid].
  intros c. destruct c as [[] [] [] [] [] [] [] []]; by vm_compute.
Qed.

Lemma sanitizeForRef_truthy id : id <> "" -> Js.truthy (sanitizeForRef id) = true.
Proof. by destruct id. Qed.

(** a checkpoint id built from a timestamp and a key that is not empty
    decodes to them *)
Lemma matchCheckpoint_encode (ts : N) (key : string) :
  Js.truthy key = true ->
  Js.forallb (fun c => negb (Js.isLineTerminator c)) key = true ->
  matchCheckpoint ("checkpoint-" +:+ Js.decimal ts +:+ "-" +:+ key) = Some (Js.decimal ts, key).
Proof.
  intros Ht Hl. unfold matchCheckpoint. rewrite startsWith_app.
  change 11 with (String.length "checkpoint-"). rewrite drop_app.
  rewrite (spanDigits_app (Js.decimal ts) ("-" +:+ key)); [|apply decimal_digits|done].
  pose proof (decimal_truthy ts) as Hd.
  destruct (Js.decimal ts) as [|d ds]; [done|].
  change ("-" +:+ key) with (String "-" key). cbn beta iota. by rewrite Ht, Hl.
Qed.

(** a round of the rebuild writes an entry only under the key its value
    decodes to *)
Lemma rebuildOne_keyed ref s E v :
  checkpoints (rebuildOne ref s).2 !! E = Some v ->
  checkpoints s !! E = Some v \/ exists ts, matchCheckpoint v = Some (ts, E).
Proof.
  unfold rebuildOne. cbn zeta. repeat case_match; try by left.
  subst. cbn. rewrite lookup_insert. case_decide as He; [|by left].
  intros [= <-]. subst. right. eauto.
Qed.

(** C6 (as amended): a prune pass and the map, for every state and every
    way the commands may end.  An entry id E leaves the map only when the
    pass issued the deletion of a ref whose checkpoint id is the value the
    map had for E (so the deletion of an older ref of E, whose id is another
    one, does not evict the newer checkpoint of E); the pass adds nothing to
    the map and changes no value; and an entry still in the map whose value
    checkpoint-{digits}-{E} decodes to its own key E and whose ref was in
    the store before the pass still has its ref in the store after it.  The
    values that the extension writes decode to their keys when the entry id
    is not empty: turn_end writes checkpoint-{timestampMs}-{key} under the
    sanitized entry id key, and the rebuild writes an entry only under the
    key its value decodes to. *)
Theorem prune_keeps_map_consistent (s : St) :
  let s' := exec_state (pruneCheckpoints exec) s in
  (exists t, trace s' = trace s ++ t /\
     forall E v, checkpoints s !! E = Some v -> checkpoints s' !! E = None ->
       exists ref fate ts,
         (PiExec ["update-ref"; "-d"; ref], fate) ∈ t /\
         Js.replace ref REF_PREFIX "" = v /\
         matchCheckpoint v = Some (ts, E)) /\
  (forall E v, checkpoints s' !! E = Some v -> checkpoints s !! E = Some v) /\
  (forall E v ts, checkpoints s' !! E = Some v -> matchCheckpoint v = Some (ts, E) ->
     is_Some (refs (git s) !! (REF_PREFIX +:+ v)) ->
     is_Some (refs (git s') !! (REF_PREFIX +:+ v))) /\
  (forall p e, entry_id e <> "" ->
     let key := sanitizeForRef (entry_id e) in
     let checkpointId := "checkpoint-" +:+ Js.decimal (timestamp p) +:+ "-" +:+ key in
     checkpoints (committed p e s) !! key = Some checkpointId /\
     matchCheckpoint checkpointId = Some (Js.decimal (timestamp p), key)) /\
  (forall ref E v, checkpoints (rebuildOne ref s).2 !! E = Some v ->
     checkpoints s !! E = Some v \/ exists ts, matchCheckpoint v = Some (ts, E)).
Proof.
  destruct (pruned_pruneCheckpoints s) as (H1 & H2 & H3).
  split; [exact H1|]. split; [exact H2|]. split; [exact H3|]. split.
  - intros p e Hid key cid. split; [apply lookup_insert_eq|].
    apply matchCheckpoint_encode;
      [by apply sanitizeForRef_truthy|apply sanitizeForRef_no_terminator].
  - intros ref E v. apply rebuildOne_keyed.
Qed.


(** ** Entry ids and checkpoint names *)

Lemma mapChars_length f s : String.length (Js.mapChars f s) = String.length s.
Proof. induction s as [|c s IH]; [done|]. cbn. by rewrite IH. Qed.

Lemma underscore_unsafe : Js.isRefSafe "_" = false.
Proof. reflexivity. Qed.

Lemma sanitize_char_fixed c :
  (if Js.isRefSafe c then c else "_"%char) = c <-> Js.isRefSafe c || Ascii.eqb c "_" = true.
Proof.
  destruct (Js.isRefSafe c); cbn [orb]; [done|]. rewrite Ascii.eqb_eq. split; congruence.
Qed.

Lemma sanitize_char_safe c :
  let c' := if Js.isRefSafe c then c else "_"%char in
  Js.isRefSafe c' || Ascii.eqb c' "_" = true.
Proof. cbn zeta. destruct (Js.isRefSafe c) eqn:Hc; [by rewrite Hc|done]. Qed.

(** X1: sanitizeForRef keeps the length of an entry id, and every
    character of its result is a letter, a digit, a hyphen or an underscore;
    so it is idempotent, and it leaves an id as it is exactly when the id
    has only such characters. *)
Theorem sanitizeForRef_safe (id : string) :
  String.length (sanitizeForRef id) = String.length id /\
  Js.forallb (fun c => Js.isRefSafe c || Ascii.eqb c "_") (sanitizeForRef id) = true /\
  sanitizeForRef (sanitizeForRef id) = sanitizeForRef id /\
  (sanitizeForRef id = id <-> Js.forallb (fun c => Js.isRefSafe c || Ascii.eqb c "_") id = true).
Proof.
  unfold sanitizeForRef. split; [apply mapChars_length|].
  assert (forall s, Js.mapChars (fun c => if Js.isRefSafe c then c else "_"%char) s = s <->
                    Js.forallb (fun c => Js.isRefSafe c || Ascii.eqb c "_") s = true) as Hfix.
  { induction s as [|c s IH]; [done|]. cbn [Js.mapChars Js.forallb].
    rewrite andb_true_iff, <- IH, <- sanitize_char_fixed. split; [by intros [= -> ->]|].
    by intros [-> ->]. }
  assert (Js.forallb (fun c => Js.isRefSafe c || Ascii.eqb c "_")
            (Js.mapChars (fun c => if Js.isRefSafe c then c else "_"%char) id) = true) as Hsafe.
  { induction id as [|c id IH]; [done|]. cbn [Js.mapChars Js.forallb].
    by rewrite sanitize_char_safe, IH. }
  split; [exact Hsafe|]. split; [by apply Hfix|apply Hfix].
Qed.

Lemma spanDigits_inv s d r :
  Js.spanDigits s = (d, r) ->
  s = d +:+ r /\ Js.forallb Js.isDigit d = true /\
  match r with EmptyString => True | String c _ => Js.isDigit c = false end.
Proof.
  revert d r. induction s as [|c s IH]; intros d r; cbn [Js.spanDigits].
  - by intros [= <- <-].
  - destruct (Js.isDigit c) eqn:Hc.
    + destruct (Js.spanDigits s) as [d' r'] eqn:Hs. intros [= <- <-].
      destruct (IH _ _ eq_refl) as (-> & Hd & Hr).
      rewrite append_cons. cbn [Js.forallb]. by rewrite Hc, Hd.
    + intros [= <- <-]. by rewrite append_nil_l.
Qed.

(** X2: the name turn_end gives to the ref of an entry whose id is not
    empty is read back by the rebuild: the checkpoint id decodes to the
    timestamp and the sanitized entry id, the ref name without its prefix is
    the checkpoint id, and one round of the rebuild on that name writes the
    map entry that turn_end wrote. *)
Theorem rebuild_reads_what_turn_end_writes (p : Pending) (e : Entry) (s : St) :
  entry_id e <> "" ->
  let key := sanitizeForRef (entry_id e) in
  let checkpointId := "checkpoint-" +:+ Js.decimal (timestamp p) +:+ "-" +:+ key in
  matchCheckpoint checkpointId = Some (Js.decimal (timestamp p), key) /\
  Js.replace (turnRefName p e) REF_PREFIX "" = checkpointId /\
  rebuildOne (turnRefName p e) s =
    (Normal tt, setCheckpoints (<[key := checkpointId]> (checkpoints s)) s).
Proof.
  intros Hid key cid.
  assert (matchCheckpoint cid = Some (Js.decimal (timestamp p), key)) as Hm.
  { apply matchCheckpoint_encode;
      [by apply sanitizeForRef_truthy|apply sanitizeForRef_no_terminator]. }
  assert (Js.replace (turnRefName p e) REF_PREFIX "" = cid) as Hr.
  { unfold turnRefName. apply replace_prefix. }
  split; [exact Hm|]. split; [exact Hr|].
  - assert (Js.startsWith cid "checkpoint-" = true) as Hs by apply startsWith_app.
    assert (Js.startsWith cid "checkpoint-resume-" = false) as Hs'.
    { unfold cid. pose proof (decimal_digits (timestamp p)) as Hd.
      pose proof (decimal_truthy (timestamp p)) as Ht.
      destruct (Js.decimal (timestamp p)) as [|d ds]; [done|].
      cbn [Js.forallb] in Hd. apply andb_prop in Hd as [Hd _].
      destruct d as [[] [] [] [] [] [] [] []]; try done. }
    unfold rebuildOne. rewrite Hr. cbn zeta. by rewrite Hs, Hs', Hm.
Qed.

(** X3: what the pattern /^checkpoint-(\d+)-(.+)$/ accepts: the id is
    checkpoint-, a non-empty run of digits, a hyphen and a non-empty rest
    without line terminators, and the groups are those digits and that
    rest. *)
Theorem matchCheckpoint_decodes (checkpointId ts entry : string) :
  matchCheckpoint checkpointId = Some (ts, entry) ->
  checkpointId = "checkpoint-" +:+ ts +:+ "-" +:+ entry /\
  ts <> "" /\ Js.forallb Js.isDigit ts = true /\
  entry <> "" /\ Js.forallb (fun c => negb (Js.isLineTerminator c)) entry = true.
Proof.
  unfold matchCheckpoint. destruct (Js.startsWith checkpointId "checkpoint-") eqn:Hs; [|done].
  apply startsWith_inv in Hs. change (String.length "checkpoint-") with 11 in Hs.
  destruct (Js.spanDigits (Js.drop 11 checkpointId)) as [d r] eqn:Hd.
  apply spanDigits_inv in Hd as (Hd & Hdig & _).
  destruct d as [|d ds]; [done|]. destruct r as [|c r]; [done|].
  destruct (Ascii.eqb_spec c "-") as [->|Hc].
  2:{ destruct c as [[] [] [] [] [] [] [] []]; try done. }
  destruct (Js.truthy r) eqn:Ht; [|done].
  destruct (Js.forallb _ r) eqn:Hl; [|done]. cbn [andb]. intros [= <- <-].
  split; [by rewrite Hs at 1; rewrite Hd|]. split; [done|]. split; [done|].
  split; [by destruct r|done].
Qed.

Lemma split_pieces sep s :
  Forall (fun l => Js.forallb (fun a => negb (Ascii.eqb a sep)) l = true) (Js.split sep s).
Proof.
  induction s as [|c s IH]; cbn [Js.split]; [by repeat constructor|].
  destruct (Ascii.eqb c sep) eqn:Hc; [by constructor|].
  destruct (Js.split sep s) as [|h t]; [by repeat constructor; cbn; rewrite Hc|].
  apply Forall_cons in IH as [Hh Ht]. constructor; [|done].
  cbn [Js.forallb]. by rewrite Hc, Hh.
Qed.

(** X4: the lines read from the output of a listing,
    stdout.trim().split(LF).filter(Boolean): none is empty and none holds a
    line feed; blank output gives no line; and the output that for-each-ref
    prints for names without white space gives back those names, in
    order. *)
Theorem stdoutLines_reads_listing (result : ExecResult) (names : list string) :
  Forall (fun l => l <> "" /\ Js.forallb (fun a => negb (Ascii.eqb a LF)) l = true)
         (stdoutLines result) /\
  (Js.trim (stdout result) = "" -> stdoutLines result = []) /\
  (Forall (fun l => Js.isToken l = true) names -> stdout result = Git.unlines names ->
   stdoutLines result = names).
Proof.
  split_and!.
  - unfold stdoutLines, Js.filterBoolean. apply Forall_forall. intros l [Ht Hl]%list_elem_of_filter.
    split; [by destruct l|].
    pose proof (split_pieces LF (Js.trim (stdout result))) as H.
    rewrite Forall_forall in H. by apply H.
  - unfold stdoutLines. by intros ->.
  - intros Hn Hout. destruct result as [out e c]. cbn [stdout] in Hout. subst out.
    by apply stdoutLines_unlines.
Qed.

(** ** The user message of a turn *)

Lemma find_rev_Some {A} (P : A -> bool) (l : list A) (x : A) :
  List.find P (rev l) = Some x ->
  exists before after, l = before ++ x :: after /\ P x = true /\
                       Forall (fun y => P y = false) after.
Proof.
  induction l as [|y l IH] using rev_ind; [done|].
  rewrite rev_unit. cbn [List.find]. destruct (P y) eqn:Hy.
  - intros [= ->]. exists l, []. by repeat split.
  - intros (before & after & -> & Hx & Hafter)%IH.
    exists before, (after ++ [y]). split; [by rewrite <- app_assoc|]. split; [done|].
    apply Forall_app. split; [done|]. by constructor.
Qed.

Lemma find_rev_None {A} (P : A -> bool) (l : list A) :
  List.find P (rev l) = None -> Forall (fun y => P y = false) l.
Proof.
  induction l as [|y l IH] using rev_ind; [done|].
  rewrite rev_unit. cbn [List.find]. destruct (P y) eqn:Hy; [done|].
  intros H%IH. apply Forall_app. split; [done|]. by constructor.
Qed.

(** X5: findUserMessageEntry answers the last user message of the branch
    that ends at the leaf: no entry after it on the branch is a user
    message.  It answers nothing when there is no leaf id, when the leaf id
    is empty, or when the branch has no user message. *)
Theorem findUserMessageEntry_latest (ctx : Ctx) :
  match findUserMessageEntry ctx with
  | Some e =>
      exists leaf before after,
        getLeafId ctx = Some leaf /\ leaf <> "" /\
        getBranch ctx leaf = before ++ e :: after /\
        isUserMessage e = true /\
        Forall (fun x => isUserMessage x = false) after
  | None =>
      getLeafId ctx = None \/ getLeafId ctx = Some "" \/
      exists leaf, getLeafId ctx = Some leaf /\
                   Forall (fun x => isUserMessage x = false) (getBranch ctx leaf)
  end.
Proof.
  unfold findUserMessageEntry. destruct (getLeafId ctx) as [leaf|]; cbn [truthyOpt negb]; [|by left].
  destruct leaf as [|a leaf]; cbn [Js.truthy negb default]; [by right; left|].
  destruct (List.find _ _) as [e|] eqn:Hf.
  - apply find_rev_Some in Hf as (before & after & Hb & He & Hafter).
    by exists (String a leaf), before, after.
  - right. right. exists (String a leaf). split; [done|]. by apply find_rev_None.
Qed.

(** ** Looking up the backup *)

(** X6: findBeforeRestoreRef never throws and runs one command, the
    listing of the before-restore refs; when that command does not run (it
    is rejected, or ends with a non-zero code, as it does when scheduled to
    fail or outside a work tree) the answer is null. *)
Theorem findBeforeRestoreRef_swallows_failure (s : St) :
  exists b fate,
    findBeforeRestoreRef exec s =
      (Normal b, record (PiExec backupArgs) fate (setFaults (tl (faults s)) s)) /\
    (fate <> Ran -> b = None) /\
    (hd false (faults s) = true \/ insideWorkTree (git s) = false -> fate <> Ran).
Proof.
  unfold findBeforeRestoreRef, tryCatch, bind.
  change (exec _ s) with (exec backupArgs s).
  destruct (exec_cases backupArgs s)
    as [(out & g' & Hf & Hrun & ->)|[[Hrej ->]|[Hrej ->]]];
    unfold ran, rejected, exitedNonZero.
  - rewrite run_backup in Hrun. destruct (insideWorkTree (git s)) eqn:Hi; [|done].
    injection Hrun as <- <-. cbn beta iota. cbn [stdout].
    assert (setGit (git s) (setFaults (tl (faults s)) s) = setFaults (tl (faults s)) s) as ->
      by by destruct s.
    assert (hd false (faults s) = true \/ true = false -> Ran <> Ran) as Hno.
    { intros [H|H]; congruence. }
    match goal with |- context [Js.trim ?x] => generalize (Js.trim x) end. intros line.
    destruct (negb (Js.truthy line)); [by eexists _, Ran|].
    destruct (Js.split SP line) as [|p0 [|p1 ?]]; [by eexists _, Ran..|].
    destruct (_ || _); by eexists _, Ran.
  - exists None, Rejected. by repeat split.
  - exists None, ExitedNonZero. by repeat split.
Qed.

Lemma head_sorted_newest (l : list RefInfo) r r' :
  StronglySorted Git.newerFirst l -> head l = Some r -> r' ∈ l ->
  (creatordate r' <= creatordate r)%N.
Proof.
  destruct l as [|x l]; [done|]. intros Hs [= ->] Hr'.
  apply elem_of_cons in Hr' as [->|Hr']; [lia|].
  apply StronglySorted_inv in Hs as [_ Hall]. rewrite Forall_forall in Hall.
  destruct (Hall _ Hr') as [H|[H _]]; lia.
Qed.

(** X7: when no command fails on a well-formed store,
    findBeforeRestoreRef answers a before-restore ref of the store with its
    commit, and no before-restore ref of the store is newer; it answers
    null exactly when the store has no before-restore ref. *)
Theorem findBeforeRestoreRef_newest (s : St) :
  sound s ->
  exists b, (findBeforeRestoreRef exec s).1 = Normal b /\
    match b with
    | Some r =>
        backups (git s) !! refName r = Some (backupSha r) /\
        forall n sha, backups (git s) !! n = Some sha ->
          (creatordate (Git.refInfo (git s) (n, sha))
           <= creatordate (Git.refInfo (git s) (refName r, backupSha r)))%N
    | None => backups (git s) = ∅
    end.
Proof.
  intros Hs. rewrite findBeforeRestoreRef_sound by done. cbn [fst].
  eexists. split; [reflexivity|].
  destruct (head (Git.listDescending backupPattern (git s))) as [r|] eqn:Hh;
    cbn [fmap option_fmap option_map backupOf refName backupSha].
  - pose proof (head_listDescending_Some _ _ _ Hh) as (Hr & Hm & Hinfo).
    split; [by apply lookup_backups|]. intros n sha [Hn Hmn]%lookup_backups.
    rewrite <- Hinfo.
    eapply head_sorted_newest; [apply listDescending_sorted|exact Hh|].
    apply elem_of_listDescending. split; [|done]. apply elem_of_refInfos. eauto.
  - apply map_empty. intros n. apply eq_None_not_Some. intros [sha [Hn Hm]%lookup_backups].
    by rewrite (head_listDescending_None _ _ _ _ Hh Hn) in Hm.
Qed.

(** ** The root of the repository *)


(** ** Capturing the worktree *)

Lemma execAsyncSnapshot_Normal root s sha s' :
  execAsyncSnapshot root s = (Normal sha, s') ->
  hd false (faults s) = false /\ insideWorkTree (git s) = true /\
  sha = (Git.commitTree (snapshotCommit s) (git s)).1 /\
  s' = record ExecAsyncSnapshot Ran
         (setGit (Git.commitTree (snapshotCommit s) (git s)).2 (setFaults (tl (faults s)) s)).
Proof.
  unfold execAsyncSnapshot, nextFault. cbn [git setFaults clock].
  destruct (hd false (faults s)); cbn [orb]; [done|].
  destruct (insideWorkTree (git s)); cbn [negb]; [|done].
  unfold snapshotCommit. destruct (Git.commitTree _ _) as [sha' g']. by intros [= <- <-].
Qed.

Lemma getRepoRoot_git s : git (getRepoRoot exec s).2 = git s /\ clock (getRepoRoot exec s).2 = clock s.
Proof.
  split.
  - unfold getRepoRoot, bind, gets. cbn beta iota. destruct (truthyOpt (repoRoot s)); [done|].
    pose proof (keeps_git_toplevel s) as H.
    destruct (exec _ s) as [[r|e] s1]; cbn [snd] in *; [|done]. done.
  - apply (keeps_getRepoRoot clock); by repeat split.
Qed.

Lemma captureWorktree_Normal s sha s' :
  captureWorktree exec s = (Normal sha, s') ->
  sha = (Git.commitTree (snapshotCommit s) (git s)).1 /\
  git s' = (Git.commitTree (snapshotCommit s) (git s)).2.
Proof.
  unfold captureWorktree, bind. destruct (getRepoRoot_git s) as [Hg Hc].
  destruct (getRepoRoot exec s) as [[root|e] s1]; cbn [snd] in *; [|done].
  intros (_ & _ & -> & ->)%execAsyncSnapshot_Normal.
  unfold snapshotCommit. by rewrite Hg, Hc.
Qed.

Lemma captureWorktree_Thrown s e s' :
  captureWorktree exec s = (Thrown e, s') -> git s' = git s.
Proof.
  unfold captureWorktree, bind. destruct (getRepoRoot_git s) as [Hg Hc].
  destruct (getRepoRoot exec s) as [[root|e'] s1]; cbn [snd] in *; [|by intros [= _ <-]].
  unfold execAsyncSnapshot, nextFault. cbn [git setFaults].
  destruct (_ || _); [by intros [= _ <-]|]. by destruct (Git.commitTree _ _).
Qed.

Lemma captureWorktree_commits_snapshot_aux (s : St) :
  match (captureWorktree exec s).1 with
  | Normal sha =>
      sha = (Git.commitTree (snapshotCommit s) (git s)).1 /\
      Git.catFile (git (captureWorktree exec s).2) sha = Some (snapshotCommit s) /\
      refs (git (captureWorktree exec s).2) = refs (git s) /\
      worktree (git (captureWorktree exec s).2) = worktree (git s)
  | Thrown _ => git (captureWorktree exec s).2 = git s
  end.
Proof.
  destruct (captureWorktree exec s) as [[sha|e] s'] eqn:Hc; cbn [fst snd].
  - apply captureWorktree_Normal in Hc as [-> ->].
    destruct (commitTree_spec (snapshotCommit s) (git s))
      as (i & Hsha & Hobj & _ & Hrefs & Hw & _).
    split_and!; try done. by rewrite Hsha, catFile_shaOf.
  - by apply captureWorktree_Thrown in Hc.
Qed.

(** X9: captureWorktree, when it returns, has stored a commit whose tree
    holds the files of the worktree that git does not ignore, and answers
    its name; no ref and no file has changed and every commit that was in
    the store is still there.  When it throws, the repository is as it
    was. *)
Theorem captureWorktree_commits_snapshot (s : St) :
  let r := captureWorktree exec s in
  match r.1 with
  | Normal sha =>
      Git.catFile (git r.2) sha = Some (snapshotCommit s) /\
      tree (snapshotCommit s) = filter (fun kv => ignored (git s) kv.1 = false) (worktree (git s)) /\
      refs (git r.2) = refs (git s) /\
      worktree (git r.2) = worktree (git s) /\
      forall sha' c, Git.catFile (git s) sha' = Some c -> Git.catFile (git r.2) sha' = Some c
  | Thrown _ => git r.2 = git s
  end.
Proof.
  cbn zeta. destruct (captureWorktree exec s) as [[sha|e] s'] eqn:Hc; cbn [fst snd].
  - apply captureWorktree_Normal in Hc as [-> ->].
    destruct (commitTree_spec (snapshotCommit s) (git s))
      as (i & Hsha & Hobj & [tl Hgrow] & Hrefs & Hw & _).
    split_and!; try done.
    + by rewrite Hsha, catFile_shaOf.
    + intros sha' c (j & -> & Hj)%catFile_Some.
      rewrite catFile_shaOf, Hgrow. by apply lookup_app_l_Some.
  - by apply captureWorktree_Thrown in Hc.
Qed.

(** X10: createCheckpointFromWorktree never touches the files.  It
    answers true with the ref refs/pi-checkpoints/{id} pointing to a commit
    of the worktree, or false with the refs as they were; on a host whose
    exec reports a failure in the exit code only, it may also answer true
    with the refs as they were. *)
Theorem createCheckpoint_outcome (checkpointId : string) (s : St) :
  let r := createCheckpointFromWorktree exec exec checkpointId s in
  let sha := (Git.commitTree (snapshotCommit s) (git s)).1 in
  worktree (git r.2) = worktree (git s) /\
  ((r.1 = Normal true /\
    refs (git r.2) = <[REF_PREFIX +:+ checkpointId := sha]> (refs (git s)) /\
    Git.catFile (git r.2) sha = Some (snapshotCommit s)) \/
   (r.1 = Normal true /\ rejecting s = false /\ refs (git r.2) = refs (git s)) \/
   (r.1 = Normal false /\ refs (git r.2) = refs (git s))).
Proof.
  intros r sha. subst r.
  destruct (createCheckpointFromWorktree exec exec checkpointId s) as [res sf] eqn:Hr.
  cbn [fst snd]. unfold createCheckpointFromWorktree, tryCatch in Hr. unfold bind at 1 in Hr.
  assert (rejecting (captureWorktree exec s).2 = rejecting s) as Hrej1.
  { apply (keeps_captureWorktree rejecting); by repeat split. }
  destruct (captureWorktree exec s) as [[sha'|e] s1] eqn:Hc; cbn [fst snd] in *.
  2:{ apply captureWorktree_Thrown in Hc. unfold ret in Hr. injection Hr as <- <-.
      rewrite Hc. split; [done|]. right. right. by split. }
  apply captureWorktree_Normal in Hc as [-> Hg1]. fold sha in Hr.
  destruct (commitTree_spec (snapshotCommit s) (git s))
    as (i & Hsha & Hobj & [tl Hgrow] & Hrefs & Hw & _).
  unfold bind in Hr.
  destruct (exec_cases ["update-ref"; REF_PREFIX +:+ checkpointId; sha] s1)
    as [(out & g' & _ & Hrun & Hex)|[[_ Hex]|[Hrej Hex]]]; rewrite Hex in Hr;
    unfold ran, rejected, exitedNonZero, ret in Hr;
    injection Hr as <- <-; cbn [git record setGit setTrace setFaults].
  - rewrite run_update in Hrun. destruct (negb _); [done|].
    destruct (Git.validRefName _); [|done].
    destruct (Git.catFile (git s1) sha) as [c|] eqn:Hcat; [|done]. injection Hrun as <- <-.
    cbn [worktree refs Git.setRefs]. rewrite Hg1, Hw, Hrefs. split; [done|]. left.
    split_and!; try done.
    change (Git.catFile (Git.setRefs ?r ?g) ?x) with (Git.catFile g x).
    fold sha in Hsha. by rewrite Hsha, catFile_shaOf.
  - rewrite Hg1, Hw, Hrefs. split; [done|]. right. right. by split.
  - rewrite Hg1, Hw, Hrefs. split; [done|]. right. left. split_and!; try done. congruence.
Qed.

(** ** Failures inside the life-cycle handlers *)

Lemma unfailing_gets {A} (h : St -> A) : unfailing (gets h).
Proof. intros s. by eexists. Qed.

Lemma unfailing_modify (h : St -> St) : unfailing (modify h).
Proof. intros s. by exists tt. Qed.

Lemma unfailing_tryFinally {A} (m : M A) (fin : M unit) :
  unfailing m -> unfailing fin -> unfailing (tryFinally m fin).
Proof.
  intros Hm Hf s. unfold tryFinally. destruct (Hm s) as [a Ha].
  destruct (m s) as [[a'|e] s']; [|done]. destruct (Hf s') as [u Hu].
  destruct (fin s') as [[u'|e] s'']; [|done]. by exists a'.
Qed.

Lemma unfailing_updateStatus ctx : unfailing (updateStatus ctx).
Proof.
  unfold updateStatus. destruct (negb _); [apply unfailing_ret|].
  apply unfailing_bind; [apply unfailing_gets|]. intros. apply unfailing_modify.
Qed.

Lemma unfailing_rebuild : unfailing (rebuildCheckpointsMap exec).
Proof. apply unfailing_tryCatch. intros _. apply unfailing_ret. Qed.

Lemma unfailing_prune : unfailing (pruneCheckpoints exec).
Proof. apply unfailing_tryCatch. intros _. apply unfailing_ret. Qed.

Lemma unfailing_createCheckpoint id : unfailing (createCheckpointFromWorktree exec exec id).
Proof. apply unfailing_tryCatch. intros _. apply unfailing_ret. Qed.

Lemma unfailing_initializeForSession ctx : unfailing (initializeForSession exec ctx).
Proof.
  unfold initializeForSession. destruct (negb _); [apply unfailing_ret|].
  apply unfailing_bind; [apply unfailing_modify|]. intros _.
  apply unfailing_bind; [apply unfailing_tryCatch; intros; apply unfailing_modify|]. intros _.
  apply unfailing_bind; [apply unfailing_gets|]. intros inRepo.
  destruct (negb inRepo); [apply unfailing_modify|].
  apply unfailing_bind; [apply unfailing_rebuild|]. intros _.
  apply unfailing_bind; [apply unfailing_gets|]. intros now.
  apply unfailing_bind; [|intros; apply unfailing_updateStatus].
  apply unfailing_tryCatch. intros _. apply unfailing_ret.
Qed.

Lemma unfailing_turn_start event ctx : unfailing (turn_start exec event ctx).
Proof.
  unfold turn_start. destruct (negb _); [apply unfailing_ret|].
  apply unfailing_bind; [apply unfailing_gets|]. intros inRepo.
  destruct (negb inRepo); [apply unfailing_ret|].
  destruct (negb _); [apply unfailing_ret|].
  apply unfailing_tryCatch. intros _. apply unfailing_modify.
Qed.

Lemma unfailing_turn_end event ctx : unfailing (turn_end exec event ctx).
Proof.
  unfold turn_end. destruct (negb _); [apply unfailing_ret|].
  apply unfailing_bind; [apply unfailing_gets|]. intros inRepo.
  destruct (negb inRepo); [apply unfailing_ret|].
  apply unfailing_bind; [apply unfailing_gets|]. intros [p|]; [|apply unfailing_ret].
  destruct (negb _); [apply unfailing_ret|].
  apply unfailing_tryFinally; [|apply unfailing_modify].
  apply unfailing_tryCatch. intros _. apply unfailing_ret.
Qed.

(** X11: the life-cycle handlers and their helpers never throw, whatever
    command fails: initializeForSession, turn_start, turn_end,
    rebuildCheckpointsMap and pruneCheckpoints complete, and
    createCheckpointFromWorktree answers a boolean. *)
Theorem failures_are_swallowed (ctx : Ctx) (event : TurnEvent) (checkpointId : string) (s : St) :
  (initializeForSession exec ctx s).1 = Normal tt /\
  (turn_start exec event ctx s).1 = Normal tt /\
  (turn_end exec event ctx s).1 = Normal tt /\
  (rebuildCheckpointsMap exec s).1 = Normal tt /\
  (pruneCheckpoints exec s).1 = Normal tt /\
  (exists ok, (createCheckpointFromWorktree exec exec checkpointId s).1 = Normal ok).
Proof.
  assert (forall m : M unit, unfailing m -> (m s).1 = Normal tt) as Hu.
  { intros m Hm. destruct (Hm s) as [[] H]. exact H. }
  split_and!.
  - apply Hu, unfailing_initializeForSession.
  - apply Hu, unfailing_turn_start.
  - apply Hu, unfailing_turn_end.
  - apply Hu, unfailing_rebuild.
  - apply Hu, unfailing_prune.
  - apply unfailing_createCheckpoint.
Qed.

(** ** A session outside a work tree *)

(** X12: a session that starts outside a work tree, or whose first
    command fails: the state is reset, the one command run is rev-parse
    --is-inside-work-tree, no checkpoint is made, the status is cleared, and
    the turn handlers of that session do nothing. *)
Theorem initializeForSession_outside (ctx : Ctx) (event : TurnEvent) (s : St) :
  hasUI ctx = true ->
  hd false (faults s) = true \/ insideWorkTree (git s) = false ->
  exists fate,
    let s' := setStatus None (setIsGitRepo false
                (record (PiExec insideArgs) fate (setFaults (tl (faults s)) (cleared s)))) in
    fate <> Ran /\
    initializeForSession exec ctx s = (Normal tt, s') /\
    turn_start exec event ctx s' = (Normal tt, s') /\
    turn_end exec event ctx s' = (Normal tt, s').
Proof.
  intros Hui Hout.
  assert (forall s', isGitRepo s' = false ->
            turn_start exec event ctx s' = (Normal tt, s') /\
            turn_end exec event ctx s' = (Normal tt, s')) as Hturn.
  { intros s' Hr. unfold turn_start, turn_end, bind, gets. rewrite Hui. cbn [negb].
    cbn beta iota. by rewrite Hr. }
  unfold initializeForSession. rewrite Hui. cbn [negb].
  unfold bind at 1, resetState at 1, modify at 1. cbn beta iota. fold (cleared s).
  unfold bind at 1, tryCatch at 1, bind at 1.
  change (exec _ (cleared s)) with (exec insideArgs (cleared s)).
  destruct (exec_cases insideArgs (cleared s))
    as [(out & g' & Hf & Hrun & _)|[[Hrej ->]|[Hrej ->]]].
  - exfalso. unfold insideArgs in Hrun. rewrite run_inside in Hrun.
    change (faults (cleared s)) with (faults s) in Hf.
    change (git (cleared s)) with (git s) in Hrun.
    destruct Hout as [H|H]; [congruence|]. by rewrite H in Hrun.
  - exists Rejected. unfold rejected. cbn beta iota. unfold modify at 1. cbn beta iota.
    unfold bind at 1, gets at 1. cbn beta iota. cbn [isGitRepo setIsGitRepo negb].
    unfold modify. split; [done|]. split; [reflexivity|]. by apply Hturn.
  - exists ExitedNonZero. unfold exitedNonZero. cbn beta iota. unfold modify at 1.
    cbn beta iota. unfold bind at 1, gets at 1. cbn beta iota. cbn [stdout].
    change (String.eqb (Js.trim "") "true") with false.
    cbn [isGitRepo setIsGitRepo negb]. unfold modify.
    split; [done|]. split; [reflexivity|]. by apply Hturn.
Qed.

(** ** The two phases of a turn *)

Lemma turn_start_capture event ctx s :
  hasUI ctx = true -> isGitRepo s = true -> turnIndex event = 0%Z ->
  turn_start exec event ctx s =
  match captureWorktree exec s with
  | (Normal sha, s1) =>
      (Normal tt,
       setPendingCheckpoint (Some {| commitSha := sha; timestamp := eventTimestamp event |}) s1)
  | (Thrown _, s1) => (Normal tt, setPendingCheckpoint None s1)
  end.
Proof.
  intros Hui Hrepo Hz. unfold turn_start. rewrite Hui. cbn [negb].
  unfold bind at 1, gets at 1. cbn beta iota. rewrite Hrepo, Hz. cbn [negb Z.eqb].
  unfold tryCatch, bind, modify. by destruct (captureWorktree exec s) as [[sha|e] s1].
Qed.

(** X13: the start of turn 0 in a repository: no ref, no file and no map
    entry changes; the pending slot ends empty or holds the name of a stored
    commit of the worktree together with the timestamp of the event, and it
    holds them when no command fails. *)
Theorem turn_start_pending (event : TurnEvent) (ctx : Ctx) (s : St) :
  hasUI ctx = true -> isGitRepo s = true -> turnIndex event = 0%Z ->
  let s' := exec_state (turn_start exec event ctx) s in
  let sha := (Git.commitTree (snapshotCommit s) (git s)).1 in
  refs (git s') = refs (git s) /\
  worktree (git s') = worktree (git s) /\
  checkpoints s' = checkpoints s /\
  (pendingCheckpoint s' = None \/
   (pendingCheckpoint s' = Some {| commitSha := sha; timestamp := eventTimestamp event |} /\
    Git.catFile (git s') sha = Some (snapshotCommit s))) /\
  (sound s ->
   pendingCheckpoint s' = Some {| commitSha := sha; timestamp := eventTimestamp event |}).
Proof.
  intros Hui Hrepo Hz s' sha. subst s'. unfold exec_state.
  rewrite turn_start_capture by done.
  pose proof (captureWorktree_commits_snapshot_aux s) as Hcap.
  assert (checkpoints (captureWorktree exec s).2 = checkpoints s) as Hcp.
  { apply (keeps_captureWorktree checkpoints); by repeat split. }
  destruct (captureWorktree exec s) as [[sha'|e] s1] eqn:Hc; cbn [fst snd] in *.
  - destruct Hcap as (Hsha & Hcat & Hrefs & Hw). subst sha'.
    split; [exact Hrefs|]. split; [exact Hw|]. split; [exact Hcp|].
    split; [right; by split|]. done.
  - split; [by rewrite <- Hcap|]. split; [by rewrite <- Hcap|]. split; [exact Hcp|].
    split; [by left|].
    intros Hs. destruct (captureWorktree_sound s Hs) as (s2 & Hc2 & _). congruence.
Qed.

Lemma tryFinally_clears {A} (m : M A) s :
  pendingCheckpoint (tryFinally m (modify (setPendingCheckpoint None)) s).2 = None.
Proof. unfold tryFinally, modify. by destruct (m s) as [r s1]. Qed.

Lemma turn_end_first event ctx s :
  hasUI ctx = true -> isGitRepo s = true -> turnIndex event = 0%Z ->
  turn_end exec event ctx s =
  match pendingCheckpoint s with
  | None => (Normal tt, s)
  | Some p =>
      tryFinally
        (tryCatch
           match findUserMessageEntry ctx with
           | None => ret tt
           | Some e => commitPending exec ctx p e
           end
           (fun _ => ret tt))
        (modify (setPendingCheckpoint None)) s
  end.
Proof.
  intros Hui Hrepo Hz. unfold turn_end, bind, gets. cbv beta iota.
  rewrite Hui. cbn [negb]. rewrite Hrepo. cbn [negb].
  destruct (pendingCheckpoint s); [|done]. by rewrite Hz.
Qed.

(** X14: the end of turn 0 in a repository always leaves the pending slot
    empty; with no pending snapshot it changes nothing, and with no user
    message on the branch it only empties the slot. *)
Theorem turn_end_empties_the_slot (event : TurnEvent) (ctx : Ctx) (s : St) :
  hasUI ctx = true -> isGitRepo s = true -> turnIndex event = 0%Z ->
  let s' := exec_state (turn_end exec event ctx) s in
  pendingCheckpoint s' = None /\
  (pendingCheckpoint s = None -> s' = s) /\
  (findUserMessageEntry ctx = None -> s' = setPendingCheckpoint None s).
Proof.
  intros Hui Hrepo Hz s'. subst s'. unfold exec_state.
  rewrite turn_end_first by done.
  destruct (pendingCheckpoint s) as [p|] eqn:Hp; cbn [snd].
  - split; [apply tryFinally_clears|]. split; [done|]. by intros ->.
  - split; [done|]. split; [done|]. intros _. destruct s. cbn in *. by subst.
Qed.

(** ** The worktree is written by restores only *)

Lemma keeps_worktree_exec args :
  (forall target, args <> ["checkout"; target; "--"; "."]) -> keeps worktreeOf (exec args).
Proof.
  intros Hargs s. unfold worktreeOf.
  destruct (exec_git args s) as [->|[out Hrun]]; [done|]. by eapply run_worktree.
Qed.

Lemma keeps_worktree_snapshot root : keeps worktreeOf (execAsyncSnapshot root).
Proof.
  intros s. unfold worktreeOf, execAsyncSnapshot, nextFault.
  destruct (_ || _); [done|].
  pose proof (commitTree_spec
    {| tree := Git.snapshot (git (setFaults (tl (faults s)) s));
       cdate := (clock (setFaults (tl (faults s)) s) / 1000)%N |}
    (git (setFaults (tl (faults s)) s))) as (i & _ & _ & _ & _ & Hw & _).
  destruct (Git.commitTree _ _) as [sha g']. cbn in *. done.
Qed.

Ltac worktree_step :=
  first
    [ apply keeps_ret | apply keeps_throw | apply keeps_gets
    | apply keeps_bind | apply keeps_tryCatch | apply keeps_tryFinally
    | apply keeps_forOf
    | apply keeps_worktree_exec; intros ?; discriminate
    | apply keeps_worktree_snapshot
    | apply keeps_modify; [done]
    | progress intros
    | match goal with
      | |- keeps _ (match ?x with _ => _ end) => destruct x
      | |- keeps _ (if ?x then _ else _) => destruct x
      | |- keeps _ (let '(_, _) := ?x in _) => destruct x
      end ].

Ltac worktree_frame := repeat worktree_step.

Lemma keeps_worktree_capture : keeps worktreeOf (captureWorktree exec).
Proof. unfold captureWorktree, getRepoRoot. worktree_frame. Qed.

Lemma keeps_worktree_prune : keeps worktreeOf (pruneCheckpoints exec).
Proof. unfold pruneCheckpoints, pruneOne. worktree_frame. Qed.

Lemma keeps_worktree_rebuild : keeps worktreeOf (rebuildCheckpointsMap exec).
Proof. unfold rebuildCheckpointsMap, rebuildOne. worktree_frame. Qed.

Lemma keeps_worktree_updateStatus ctx : keeps worktreeOf (updateStatus ctx).
Proof. unfold updateStatus. worktree_frame. Qed.

Lemma keeps_worktree_initializeForSession ctx :
  keeps worktreeOf (initializeForSession exec ctx).
Proof.
  unfold initializeForSession, resetState, createCheckpointFromWorktree.
  destruct (negb (hasUI ctx)); [apply keeps_ret|].
  apply keeps_bind; [worktree_frame|]. intros _.
  apply keeps_bind; [worktree_frame|]. intros _.
  apply keeps_bind; [worktree_frame|]. intros inRepo.
  destruct (negb inRepo); [worktree_frame|].
  apply keeps_bind; [apply keeps_worktree_rebuild|]. intros _.
  apply keeps_bind; [worktree_frame|]. intros now.
  apply keeps_bind; [|intros; apply keeps_worktree_updateStatus].
  apply keeps_tryCatch; [|worktree_frame].
  apply keeps_bind; [|worktree_frame].
  apply keeps_tryCatch; [|worktree_frame].
  apply keeps_bind; [apply keeps_worktree_capture|]. worktree_frame.
Qed.

Lemma keeps_worktree_turn_start event ctx : keeps worktreeOf (turn_start exec event ctx).
Proof.
  unfold turn_start. destruct (negb (hasUI ctx)); [apply keeps_ret|].
  apply keeps_bind; [apply keeps_gets|]. intros inRepo.
  destruct (negb inRepo); [apply keeps_ret|].
  destruct (negb _); [apply keeps_ret|].
  apply keeps_tryCatch; [|worktree_frame].
  apply keeps_bind; [apply keeps_worktree_capture|]. worktree_frame.
Qed.

Lemma keeps_worktree_turn_end event ctx : keeps worktreeOf (turn_end exec event ctx).
Proof.
  unfold turn_end, commitPending. destruct (negb (hasUI ctx)); [apply keeps_ret|].
  apply keeps_bind; [apply keeps_gets|]. intros inRepo.
  destruct (negb inRepo); [apply keeps_ret|].
  apply keeps_bind; [apply keeps_gets|]. intros [p|]; [|apply keeps_ret].
  destruct (negb _); [apply keeps_ret|].
  apply keeps_tryFinally; [|worktree_frame].
  apply keeps_tryCatch; [|worktree_frame].
  destruct (findUserMessageEntry ctx) as [e|]; [|apply keeps_ret].
  apply keeps_bind; [worktree_frame|]. intros _.
  apply keeps_bind; [worktree_frame|]. intros _.
  apply keeps_bind; [apply keeps_gets|]. intros n.
  apply keeps_bind; [apply keeps_worktree_prune|]. intros _.
  apply keeps_bind; [apply keeps_worktree_updateStatus|]. intros _.
  unfold notify. worktree_frame.
Qed.

(** X15: the life cycle never writes a file of the worktree, whatever
    command fails: session start, the two turn handlers, the prune pass and
    the rebuild leave the worktree as it is (only a restore checks files
    out). *)
Theorem handlers_leave_the_worktree (ctx : Ctx) (event : TurnEvent) (s : St) :
  worktree (git (exec_state (initializeForSession exec ctx) s)) = worktree (git s) /\
  worktree (git (exec_state (turn_start exec event ctx) s)) = worktree (git s) /\
  worktree (git (exec_state (turn_end exec event ctx) s)) = worktree (git s) /\
  worktree (git (exec_state (pruneCheckpoints exec) s)) = worktree (git s) /\
  worktree (git (exec_state (rebuildCheckpointsMap exec) s)) = worktree (git s).
Proof.
  split_and!.
  - apply keeps_worktree_initializeForSession.
  - apply keeps_worktree_turn_start.
  - apply keeps_worktree_turn_end.
  - apply keeps_worktree_prune.
  - apply keeps_worktree_rebuild.
Qed.

(** ** The refs a prune pass may delete *)

Lemma stdoutLines_failed : stdoutLines {| stdout := ""; stderr := "fatal"; code := 1 |} = [].
Proof. reflexivity. Qed.

(** X16: a prune pass on a well-formed store, whatever command fails: a
    ref either stays as it is or is deleted, and a deleted ref is one of the
    n - 100 oldest turn refs of the store, so it lies under
    refs/pi-checkpoints/ and is neither a before-restore nor a resume ref.
    No branch, tag or other ref of the repository is touched. *)
Theorem prune_deletes_old_turn_refs_only (s : St) (n : string) :
  wf_git (git s) ->
  let turns := turnRefs (git s) in
  let s' := exec_state (pruneCheckpoints exec) s in
  refs (git s') !! n = refs (git s) !! n \/
  (refs (git s') !! n = None /\
   n ∈ refname <$> take (length turns - 100) turns /\
   Git.refMatches REF_PREFIX n = true /\ isTurnRef n = true).
Proof.
  intros Hwf turns s'. subst s'. rewrite pruneCheckpoints_unfold. unfold exec_state, bind.
  destruct (exec_cases listingArgs s)
    as [(out & g' & _ & Hrun & ->)|[[_ ->]|[_ ->]]]; unfold ran, rejected, exitedNonZero;
    cbn beta iota; [|by left|rewrite stdoutLines_failed; by left].
  rewrite run_listing in Hrun. destruct (negb _); [done|]. injection Hrun as <- <-.
  change (Git.fmtRefname <$> ?l) with (refname <$> l).
  rewrite stdoutLines_unlines by (by apply wf_git_names).
  rewrite turnRefs_names. fold turns. rewrite length_fmap. unfold MAX_CHECKPOINTS.
  destruct (Nat.ltb _ _); [|by left].
  rewrite <- fmap_take. set (xs := refname <$> take _ _).
  assert (forall x, x ∈ xs -> Git.refMatches REF_PREFIX x = true /\ isTurnRef x = true) as Hxs.
  { intros x Hx. subst xs.
    assert (x ∈ refname <$> turns) as Hin.
    { apply list_elem_of_fmap in Hx as (r & -> & Hr). apply list_elem_of_fmap.
      exists r. split; [done|]. apply elem_of_take in Hr as (i & Hi & _).
      by eapply list_elem_of_lookup_2. }
    apply elem_of_turnRefs_names in Hin. tauto. }
  match goal with |- context [forOf xs _ ?st] => set (s1 := st) end.
  change (refs (git s)) with (refs (git s1)).
  apply (forOf_preserves
    (fun st => refs (git st) !! n = refs (git s1) !! n \/
               (refs (git st) !! n = None /\ n ∈ xs /\
                Git.refMatches REF_PREFIX n = true /\ isTurnRef n = true))); [|by left].
  intros ref st Href Hst.
  destruct (pruneOne_spec ref st) as (fate & _ & [->|(_ & _ & ->)] & _); [done|].
  rewrite lookup_delete. case_decide; [|done]. subst. right.
  destruct (Hxs _ Href). by split_and!.
Qed.

(** ** The handlers without a user interface *)

(** X18: without a user interface every handler returns at once: the state
    is as it was, no command is run, and the two restore handlers answer
    undefined. *)
Theorem without_a_ui_nothing_happens (ctx : Ctx) (event : TurnEvent) (x : string) (s : St) :
  hasUI ctx = false ->
  session_start exec ctx s = (Normal tt, s) /\
  session_switch exec ctx s = (Normal tt, s) /\
  turn_start exec event ctx s = (Normal tt, s) /\
  turn_end exec event ctx s = (Normal tt, s) /\
  session_before_branch exec x ctx s = (Normal Undefined, s) /\
  session_before_tree exec x ctx s = (Normal Undefined, s).
Proof.
  intros Hui.
  unfold session_start, session_switch, initializeForSession, turn_start, turn_end,
    session_before_branch, session_before_tree.
  rewrite Hui. by split_and!.
Qed.

(** ** The answers of the two restore handlers *)

Lemma keeps_treeChoice {X} (f : St -> X) cid fromResume b choice :
  internal f -> (forall r s, f (setRepoRoot r s) = f s) ->
  (forall n s, f (setNotifications n s) = f s) ->
  keeps f (treeChoice exec cid fromResume b choice).
Proof.
  intros Hf Hr Hn. unfold treeChoice.
  destruct (_ || _).
  { apply keeps_bind; [by apply keeps_notify|]. intros. apply keeps_ret. }
  destruct (String.eqb _ "Keep current files"); [apply keeps_ret|].
  destruct (String.eqb _ "Undo last file rewind"); [by apply keeps_undoLastRewind|].
  apply keeps_bind; [by apply keeps_restoreWithBackup|]. intros ok.
  destruct (negb ok); [apply keeps_ret|].
  apply keeps_bind; [by apply keeps_notify|]. intros. apply keeps_ret.
Qed.

(** the tree handler, up to the menu *)
Lemma session_before_tree_menu x ctx s :
  hasUI ctx = true ->
  exec_value (insideWorkTreeGuard exec) s = Some true ->
  let key := sanitizeForRef x in
  let s1 := exec_state (insideWorkTreeGuard exec) s in
  let s2 := exec_state (findBeforeRestoreRef exec) s1 in
  let backup := default None (exec_value (findBeforeRestoreRef exec) s1) in
  let resolved :=
    if negb (truthyOpt (checkpoints s !! key)) && truthyOpt (resumeCheckpoint s)
    then (resumeCheckpoint s, true) else (checkpoints s !! key, false) in
  let menu := treeOptions resolved.1 resolved.2 (bool_decide (is_Some backup)) in
  session_before_tree exec x ctx s =
  treeChoice exec resolved.1 resolved.2 backup (select ctx menu)
    (setMenus (menus s ++ [menu]) s2).
Proof.
  intros Hui Hguard key s1 s2 backup resolved menu.
  unfold session_before_tree. rewrite Hui. cbn [negb].
  unfold bind at 1. unfold exec_value in Hguard. subst s1. unfold exec_state in *.
  destruct (insideWorkTreeGuard exec s) as [[b|e] s1] eqn:Eg; cbn [fst snd] in *; [|done].
  injection Hguard as ->. cbn [negb].
  assert (checkpoints s1 = checkpoints s) as Hc.
  { pose proof (keeps_insideWorkTreeGuard checkpoints internal_checkpoints s) as H.
    by rewrite Eg in H. }
  assert (resumeCheckpoint s1 = resumeCheckpoint s) as Hr.
  { pose proof (keeps_insideWorkTreeGuard resumeCheckpoint internal_resumeCheckpoint s) as H.
    by rewrite Eg in H. }
  assert (menus s1 = menus s) as Hm.
  { pose proof (keeps_insideWorkTreeGuard menus internal_menus s) as H.
    by rewrite Eg in H. }
  unfold bind at 1. unfold resolveCheckpoint at 1. unfold bind, gets, ret. cbn beta iota.
  rewrite Hc, Hr. fold key. subst resolved.
  destruct (unfailing_findBeforeRestoreRef s1) as [bk Hbk].
  pose proof (keeps_findBeforeRestoreRef menus internal_menus s1) as Hm2.
  subst backup s2. unfold exec_value.
  destruct (findBeforeRestoreRef exec s1) as [r s2] eqn:Ef. cbn [fst snd] in *. subst r.
  cbn [default].
  subst menu.
  destruct (negb (truthyOpt (checkpoints s !! key)) && truthyOpt (resumeCheckpoint s));
    cbn [fst snd]; unfold uiSelect, bind, modify, ret, exec_value; cbn beta iota;
    rewrite !Ef; cbn [fst snd default]; rewrite Hm2, Hm; destruct bk; reflexivity.
Qed.

Lemma undoLastRewind_answer b s :
  match (undoLastRewind exec b s).1 with
  | Normal r => r = Cancel
  | Thrown _ => b = None
  end.
Proof.
  unfold undoLastRewind. destruct b as [b|]; [|done]. unfold bind.
  destruct (unfailing_restoreWithBackup (backupSha b) s) as [ok Hok].
  destruct (restoreWithBackup exec exec (backupSha b) notify s) as [[ok'|e] s1];
    cbn [fst] in *; [|done].
  destruct ok'; reflexivity.
Qed.

(** X19: the tree handler, with a user interface inside a work tree.  The
    menu offers the restore of the resolved checkpoint if there is one
    (worded as a restore to the session start when it is the resume
    checkpoint), then Keep current files, then the undo if a backup exists,
    then Cancel navigation.  A dismissed menu and Cancel navigation cancel
    with a notification and run no command; Keep current files answers
    undefined and runs no command; a restore answers undefined when it
    succeeds and cancels when it fails.  The handler never asks to skip the
    restore of the conversation. *)
Theorem tree_navigation_answers (x : string) (ctx : Ctx) (s : St) :
  hasUI ctx = true ->
  exec_value (insideWorkTreeGuard exec) s = Some true ->
  let key := sanitizeForRef x in
  let s1 := exec_state (insideWorkTreeGuard exec) s in
  let s2 := exec_state (findBeforeRestoreRef exec) s1 in
  let backup := default None (exec_value (findBeforeRestoreRef exec) s1) in
  let resolved :=
    if negb (truthyOpt (checkpoints s !! key)) && truthyOpt (resumeCheckpoint s)
    then (resumeCheckpoint s, true) else (checkpoints s !! key, false) in
  let menu :=
    (if truthyOpt resolved.1
     then [if resolved.2 then "Restore files to session start" else "Restore files to that point"]
     else []) ++
    ["Keep current files"] ++
    (if bool_decide (is_Some backup) then ["Undo last file rewind"] else []) ++
    ["Cancel navigation"] in
  let shown := setMenus (menus s ++ [menu]) s2 in
  let run := session_before_tree exec x ctx s in
  menus run.2 = menus s ++ [menu] /\
  (select ctx menu = None \/ select ctx menu = Some "" \/
   select ctx menu = Some "Cancel navigation" ->
   run = (Normal Cancel,
          setNotifications (notifications shown ++ [("Navigation cancelled", info)]) shown)) /\
  (select ctx menu = Some "Keep current files" -> run = (Normal Undefined, shown)) /\
  (forall choice, select ctx menu = Some choice ->
     choice = "Restore files to session start" \/ choice = "Restore files to that point" ->
     let r := restoreWithBackup exec exec (refOf resolved.1) notify shown in
     run = match r.1 with
           | Normal true =>
               (Normal Undefined,
                setNotifications
                  (notifications r.2 ++
                   [(if resolved.2 then "Files restored to session start"
                     else "Files restored to checkpoint", info)]) r.2)
           | _ => (Normal Cancel, r.2)
           end) /\
  run.1 <> Normal SkipConversationRestore.
Proof.
  intros Hui Hguard key s1 s2 backup resolved menu shown run.
  pose proof (session_before_tree_menu x ctx s Hui Hguard) as Hrun.
  cbn zeta in Hrun. fold key s1 s2 backup resolved in Hrun.
  assert (treeOptions resolved.1 resolved.2 (bool_decide (is_Some backup)) = menu) as Hmenu.
  { subst menu. unfold treeOptions. destruct (truthyOpt resolved.1); [|done].
    by destruct resolved.2. }
  rewrite Hmenu in Hrun. fold shown run in Hrun.
  split_and!.
  - rewrite Hrun. by rewrite (keeps_treeChoice menus).
  - intros Hsel. rewrite Hrun. unfold treeChoice.
    destruct Hsel as [->|[->| ->]]; reflexivity.
  - intros Hsel. rewrite Hrun, Hsel. reflexivity.
  - intros choice Hsel Hchoice r. rewrite Hrun, Hsel. unfold treeChoice. subst r.
    destruct (unfailing_restoreWithBackup (refOf resolved.1) shown) as [ok Hok]. revert Hok.
    generalize (restoreWithBackup exec exec (refOf resolved.1) notify). intros R Hok.
    destruct Hchoice as [-> | ->]; cbn; unfold bind;
      destruct (R shown) as [[[]|e] sr]; cbn in *; done.
  - rewrite Hrun. unfold treeChoice.
    destruct (_ || _); [done|].
    destruct (String.eqb _ "Keep current files"); [done|].
    destruct (String.eqb _ "Undo last file rewind").
    { pose proof (undoLastRewind_answer backup shown) as H.
      destruct (undoLastRewind exec backup shown) as [[res|e] sr]; cbn [fst] in *; [|done].
      by subst. }
    unfold bind at 1.
    destruct (restoreWithBackup exec exec (refOf resolved.1) notify shown) as [[ok'|e] sr];
      [|done].
    by destruct ok'.
Qed.

(** X20: the branch handler beyond the choice of a restore.  Outside a work
    tree it answers undefined without a menu.  Inside one, a dismissed menu
    cancels the branch with a notification and runs no command; a
    conversation-only answer lets the branch go on and runs no command; and
    the undo restores the commit of the backup that was looked up and
    cancels the branch, whether or not the restore succeeds. *)
Theorem branch_menu_answers (x : string) (ctx : Ctx) (s : St) :
  hasUI ctx = true ->
  let s1 := exec_state (insideWorkTreeGuard exec) s in
  let run := session_before_branch exec x ctx s in
  (exec_value (insideWorkTreeGuard exec) s = Some false -> run = (Normal Undefined, s1)) /\
  (exec_value (insideWorkTreeGuard exec) s = Some true ->
   let key := sanitizeForRef x in
   let s2 := exec_state (findBeforeRestoreRef exec) s1 in
   let backup := default None (exec_value (findBeforeRestoreRef exec) s1) in
   let resolved :=
     if negb (truthyOpt (checkpoints s !! key)) && truthyOpt (resumeCheckpoint s)
     then (resumeCheckpoint s, true) else (checkpoints s !! key, false) in
   let menu := branchOptions resolved.1 resolved.2 (bool_decide (is_Some backup)) in
   let shown := setMenus (menus s ++ [menu]) s2 in
   (select ctx menu = None \/ select ctx menu = Some "" ->
    run = (Normal Cancel,
           setNotifications (notifications shown ++ [("Rewind cancelled", info)]) shown)) /\
   (select ctx menu = Some "Conversation only (keep current files)" ->
    run = (Normal Undefined, shown)) /\
   (forall b, select ctx menu = Some "Undo last file rewind" -> backup = Some b ->
      let r := restoreWithBackup exec exec (backupSha b) notify shown in
      run.1 = Normal Cancel /\
      git run.2 = git r.2 /\
      notifications run.2 =
        notifications r.2 ++
        match r.1 with
        | Normal true => [("Files restored to before last rewind", info)]
        | _ => []
        end)).
Proof.
  intros Hui s1 run. split.
  - intros Hguard. subst run s1. unfold session_before_branch. rewrite Hui. cbn [negb].
    unfold bind, exec_value, exec_state in *.
    destruct (insideWorkTreeGuard exec s) as [[b|e] s1]; cbn [fst snd] in *; [|done].
    by injection Hguard as ->.
  - intros Hguard key s2 backup resolved menu shown.
    pose proof (session_before_branch_menu x ctx s Hui Hguard) as Hrun.
    cbn zeta in Hrun. fold key s1 s2 backup resolved menu shown run in Hrun.
    split_and!.
    + intros Hsel. rewrite Hrun. unfold branchChoice. destruct Hsel as [->| ->]; reflexivity.
    + intros Hsel. rewrite Hrun, Hsel. reflexivity.
    + intros b Hsel Hb r. rewrite Hrun, Hsel, Hb. unfold branchChoice, undoLastRewind. subst r.
      destruct (unfailing_restoreWithBackup (backupSha b) shown) as [ok Hok]. revert Hok.
      generalize (restoreWithBackup exec exec (backupSha b) notify). intros R Hok.
      cbn. unfold bind. destruct (R shown) as [[[]|e] sr]; cbn in *; [| |done].
      * by split_and!.
      * split_and!; try done. by rewrite app_nil_r.
Qed.


(** ** Evaluation at concrete states *)


Lemma wellKeyed_intro s :
  bool_decide (map_Forall (fun E v => snd <$> matchCheckpoint v = Some E) (checkpoints s)) = true ->
  wellKeyed s.
Proof.
  intros H%bool_decide_eq_true_1 E v Hv. specialize (H E v Hv). cbn beta in H.
  destruct (matchCheckpoint v) as [[ts E']|]; [|done]. injection H as ->. eauto.
Qed.

Lemma backed_intro s :
  bool_decide (map_Forall (fun E v => is_Some (refs (git s) !! (REF_PREFIX +:+ v)))
                 (checkpoints s)) = true ->
  backed s.
Proof. intros H%bool_decide_eq_true_1 E v Hv. exact (H E v Hv). Qed.

Lemma wf_git_intro g : bool_decide (wf_git g) = true -> wf_git g.
Proof. apply bool_decide_eq_true_1. Qed.

Lemma sound_intro s :
  faults s = [] -> insideWorkTree (git s) = true -> bool_decide (wf_git (git s)) = true ->
  sound s.
Proof. intros Hf Hi Hwf%bool_decide_eq_true_1. split; [split|]; assumption. Qed.

Lemma is_Some_intro {A} (o : option A) :
  match o with Some _ => true | None => false end = true -> is_Some o.
Proof. destruct o; [eauto|done]. Qed.

Ltac evaluated := vm_compute; reflexivity.

Lemma keeps_refs_turn_start event ctx :
  keeps (fun s => refs (git s)) (turn_start exec event ctx).
Proof.
  unfold turn_start. destruct (negb (hasUI ctx)); [apply keeps_ret|].
  apply keeps_bind; [apply keeps_gets|]. intros inRepo.
  destruct (negb inRepo); [apply keeps_ret|].
  destruct (negb _); [apply keeps_ret|].
  apply keeps_tryCatch.
  - apply keeps_bind; [apply keeps_refs_capture|]. intros sha. by apply keeps_modify.
  - intros e. by apply keeps_modify.
Qed.

(** X17: what the life cycle does to the refs of the store.  A map rebuild
    leaves the repository as it is; the capture of a turn start moves no
    ref; a turn end leaves a ref n as it is, or n is the turn ref
    checkpoint-{timestampMs}-{entryId} of the pending checkpoint, or n was
    deleted and its name holds neither before-restore- nor
    checkpoint-resume-; a prune pass only deletes, and only such names.  So
    a prune pass leaves every ref whose name holds before-restore- or
    checkpoint-resume- as it is. *)
Theorem store_changes_of_the_extension (event : TurnEvent) (ctx : Ctx) (s : St) (n : string) :
  git (exec_state (rebuildCheckpointsMap exec) s) = git s /\
  refs (git (exec_state (turn_start exec event ctx) s)) = refs (git s) /\
  (let s' := exec_state (turn_end exec event ctx) s in
   refs (git s') !! n = refs (git s) !! n \/
   (exists p e, pendingCheckpoint s = Some p /\ findUserMessageEntry ctx = Some e /\
                n = turnRefName p e) \/
   (refs (git s') !! n = None /\ isTurnRef n = true)) /\
  (let s' := exec_state (pruneCheckpoints exec) s in
   refs (git s') !! n = refs (git s) !! n \/
   (refs (git s') !! n = None /\ isTurnRef n = true)).
Proof.
  split; [apply keeps_git_rebuild|].
  split; [apply keeps_refs_turn_start|].
  split; [apply turn_end_refs|apply pruneCheckpoints_refs].
Qed.

(** C2: the store holds 101 turn checkpoints whose names embed the session
    id B, made one a second.  A prune pass of the extension, whichever
    session runs it, deletes the oldest of them, a ref of session B, and
    100 refs are left: the pass lists and counts the turn refs of every
    session. *)
Lemma prune_deletes_refs_of_another_session :
  let s := Demo.besideSessionB in
  let s' := exec_state (pruneCheckpoints exec) s in
  refs (git s) !! spec_turnRefName "B" 0 "e" = Some "0" /\
  refs (git s') !! spec_turnRefName "B" 0 "e" = None /\
  size (refs (git s)) = 101 /\ size (refs (git s')) = 100.
Proof. vm_compute. done. Qed.


(** C3, counterexample: with two before-restore refs in the store a
    successful restore leaves two (the newer one is replaced, the older one
    stays); with none in the store and a snapshot that fails, the call
    answers false and leaves none. *)
Lemma restore_backup_count_is_not_always_one :
  let target := "refs/pi-checkpoints/checkpoint-1000-e1" in
  let after s := exec_state (restoreWithBackup exec exec target notify) s in
  (size (backups (git Demo.twoBackups)) = 2 /\
   (restoreWithBackup exec exec target notify Demo.twoBackups).1 = Normal true /\
   size (backups (git (after Demo.twoBackups))) = 2) /\
  (size (backups (git Demo.failingCapture)) = 0 /\
   (restoreWithBackup exec exec target notify Demo.failingCapture).1 = Normal false /\
   size (backups (git (after Demo.failingCapture))) = 0).
Proof. vm_compute. done. Qed.

(** C5, counterexample: the worktree has a.txt; the checkpoint of e1 has
    a.txt and b.txt.  After the restore and the undo, through
    restoreWithBackup or through the two menu answers of the branch
    handler, the worktree has a.txt as before and still has b.txt: it is
    not the worktree before the restore. *)
Lemma undo_keeps_files_added_by_the_restore :
  let target := "refs/pi-checkpoints/checkpoint-1000-e1" in
  let s := Demo.addedFile in
  let choose answer := Demo.ctx [] (Some answer) in
  let viaHandlers :=
    session_before_branch exec "e1" (choose "Restore all (files + conversation)") ;;;
    modify (setClock 4000) ;;;
    session_before_branch exec "e1" (choose "Undo last file rewind") in
  map_to_list (worktree (git s)) = [("a.txt", "A1")] /\
  map_to_list (worktree (git (exec_state (restoreWithBackup exec exec target notify) s)))
    = [("a.txt", "A0"); ("b.txt", "B0")] /\
  map_to_list (worktree (git (exec_state (restoreThenUndo target 4000) s)))
    = [("a.txt", "A1"); ("b.txt", "B0")] /\
  map_to_list (worktree (git (exec_state viaHandlers s)))
    = [("a.txt", "A1"); ("b.txt", "B0")] /\
  worktree (git (exec_state (restoreThenUndo target 4000) s)) <> worktree (git s).
Proof.
  cbn zeta. split_and!; [by vm_compute..|].
  intros H. apply (f_equal (fun w => w !! "b.txt")) in H. vm_compute in H. discriminate.
Qed.



(** C6, counterexample: the user message of the first loop has the empty
    entry id.  The turn end of that loop writes the ref
    checkpoint-1700000000000- and the map entry that sends the empty id to
    it.  The store then gets 99 later turn checkpoints, and a further loop
    runs.  When its turn end prunes, every map entry points to a ref of the
    store; the pass deletes the oldest of the 101 turn refs,
    checkpoint-1700000000000-, whose id the pattern of pruneCheckpoints does
    not match, and leaves its map entry: an entry id still in the map
    points to a ref that is no longer in the store. *)
Lemma prune_leaves_an_entry_without_its_ref :
  let id := "checkpoint-1700000000000-" in
  let s := Demo.beforeLastPrune in
  let s' := exec_state (pruneCheckpoints exec) s in
  let after := Demo.loop Demo.crowded (Demo.nthLoop 100) in
  (map_to_list (checkpoints (Demo.loops 1)) = [("", id)] /\
   map_to_list (refs (git (Demo.loops 1))) = [(REF_PREFIX +:+ id, "0")]) /\
  (sound s /\ backed s /\ length (turnRefs (git s)) = 101 /\
   checkpoints s !! "" = Some id /\ refs (git s) !! (REF_PREFIX +:+ id) = Some "0") /\
  (checkpoints s' !! "" = Some id /\ refs (git s') !! (REF_PREFIX +:+ id) = None /\
   length (turnRefs (git s')) = 100 /\ ~ backed s') /\
  (checkpoints after !! "" = Some id /\ refs (git after) !! (REF_PREFIX +:+ id) = None).
Proof.
  cbn zeta. split_and!.
  - evaluated.
  - evaluated.
  - apply sound_intro; evaluated.
  - apply backed_intro. evaluated.
  - evaluated.
  - evaluated.
  - evaluated.
  - evaluated.
  - evaluated.
  - evaluated.
  - intros Hb. destruct (Hb "" "checkpoint-1700000000000-") as [sha Hsha]; [evaluated|].
    vm_compute in Hsha. discriminate.
  - evaluated.
  - evaluated.
Qed.

(** ** The scenarios of the specification, run on the model *)

(** 101 turn checkpoints, the oldest and the newest for the entry e0: the
    prune pass deletes the oldest ref, 100 refs are left, and the map keeps
    its entry of e0, which points to the newest *)
Example prune_after_101_turns :
  let s := Demo.hundredAndOne in
  let s' := exec_state (pruneCheckpoints exec) s in
  size (refs (git s)) = 101 /\ size (refs (git s')) = 100 /\
  refs (git s') !! (REF_PREFIX +:+ Demo.turnName 0) = None /\
  checkpoints s !! "e0" = Some (Demo.turnName 100) /\
  checkpoints s' !! "e0" = Some (Demo.turnName 100) /\
  size (checkpoints s') = 100.
Proof. vm_compute. done. Qed.

(** on its own [rebuildCheckpointsMap] adds to the map; the entries of the
    old map go away with the [resetState] of [initializeForSession] *)
Example rebuild_after_reset :
  checkpoints (exec_state (rebuildCheckpointsMap exec) Demo.stale) !! "gone"
    = Some "checkpoint-1-gone" /\
  map_to_list (checkpoints (exec_state (initializeForSession exec Demo.ctx1) Demo.stale))
    = [("e1", "checkpoint-1700000000000-e1")].
Proof. vm_compute. done. Qed.

(** the worktree has the file d where the checkpoint has the directory d:
    the restore replaces the file by the directory, and the undo the
    directory by the file *)
Example checkout_replaces_file_and_directory :
  let target := "refs/pi-checkpoints/checkpoint-1000-e1" in
  let s := Demo.fileAgainstDirectory in
  map_to_list (worktree (git (exec_state (restoreWithBackup exec exec target notify) s)))
    = [("keep", "K0"); ("d/x", "X")] /\
  map_to_list (worktree (git (exec_state (restoreThenUndo target 4000) s)))
    = [("keep", "K1"); ("d", "D")].
Proof. vm_compute. done. Qed.

(** the host runs in the directory src: the checkout writes the files of
    the checkpoint below src only, and it fails for a checkpoint that has no
    file there, after the backup was written *)
Example checkout_below_the_current_directory :
  let s := Demo.inSubdirectory in
  let r1 := restoreWithBackup exec exec "refs/pi-checkpoints/checkpoint-1000-e1" notify s in
  let r2 := restoreWithBackup exec exec "refs/pi-checkpoints/checkpoint-2000-e2" notify s in
  (r1.1 = Normal true /\
   map_to_list (worktree (git r1.2)) = [("src/a.ts", "A0"); ("README", "R1")]) /\
  (r2.1 = Normal false /\
   map_to_list (worktree (git r2.2)) = [("src/a.ts", "A1"); ("README", "R1")] /\
   size (backups (git r2.2)) = 1 /\
   notifications r2.2 = [("Failed to restore: Error: command failed", error)]).
Proof. cbn zeta. split_and!; evaluated. Qed.

(** ** The theorems at concrete inputs *)


(** C3, witness: a second restore, a minute after a first one: the
    backup of the first is replaced by the backup of the second *)
Lemma restore_leaves_one_backup_witness :
  size (backups (git Demo.restored)) = 1 /\
  size (backups (git (exec_state (restoreWithBackup exec exec Demo.e1Ref notify) Demo.restored)))
    = 1.
Proof.
  split; [by vm_compute|].
  apply (restore_leaves_one_backup Demo.e1Ref Demo.restored).
  - apply sound_intro; evaluated.
  - vm_compute. lia.
  - vm_compute. reflexivity.
Defined.


(** C5, witness: the file a.txt was edited after its checkpoint; the
    restore brings the checkpoint back and the undo the edit *)
Lemma restore_then_undo_witness :
  worktree (git (exec_state (restoreThenUndo Demo.e1Ref 1700000120000) Demo.edited))
  = worktree (git Demo.edited).
Proof.
  refine (proj2 (proj2 (restore_then_undo Demo.e1Ref "0" Demo.e1Commit 1700000120000
                          Demo.edited _ _ _ _ _ _)) _ _).
  - apply sound_intro; evaluated.
  - vm_compute. lia.
  - vm_compute. reflexivity.
  - vm_compute. reflexivity.
  - vm_compute. reflexivity.
  - vm_compute. reflexivity.
  - intros p q [x Hp] [y Hq].
    change (worktree (git Demo.edited)) with ({[ "a.txt" := "A2" ]} : gmap string string) in Hp, Hq.
    apply lookup_singleton_Some in Hp as [<- _]. apply lookup_singleton_Some in Hq as [<- _].
    reflexivity.
  - intros p [v [Hv _]%lookup_below].
    change (tree Demo.e1Commit) with ({[ "a.txt" := "A1" ]} : gmap string string) in Hv.
    apply lookup_singleton_Some in Hv as [<- <-]. apply is_Some_intro. evaluated.
Defined.

(** C6, witness: the prune pass on 101 turn checkpoints with the map
    that a rebuild gives *)
Lemma prune_keeps_map_consistent_witness :
  backed (exec_state (pruneCheckpoints exec) Demo.hundredAndOne).
Proof.
  destruct (prune_keeps_map_consistent Demo.hundredAndOne) as (_ & Hsub & Hback & _).
  assert (wellKeyed Demo.hundredAndOne) as Hwk by (apply wellKeyed_intro; evaluated).
  assert (backed Demo.hundredAndOne) as Hb by (apply backed_intro; evaluated).
  intros E v Hv. pose proof (Hsub E v Hv) as H0.
  destruct (Hwk E v H0) as [ts Hm]. exact (Hback E v ts Hv Hm (Hb E v H0)).
Defined.

(** C7, witness: 101 turn checkpoints, of which the prune pass leaves
    100 *)
Lemma prune_keeps_newest_hundred_witness :
  length (turnRefs (git Demo.hundredAndOne)) = 101 /\
  length (turnRefs (git (exec_state (pruneCheckpoints exec) Demo.hundredAndOne))) = 100.
Proof.
  split; [by vm_compute|].
  apply (prune_keeps_newest_hundred Demo.hundredAndOne).
  - split; vm_compute; reflexivity.
  - apply wf_git_intro. evaluated.
  - vm_compute. lia.
Defined.

(** C8, witness: a session start from a map with an entry that the
    store does not have *)
Lemma rebuild_is_a_function_of_the_store_witness :
  let s1 := exec_state (initializeForSession exec Demo.ctx1) Demo.stale in
  checkpoints (exec_state (initializeForSession exec Demo.ctx1) s1) = checkpoints s1.
Proof.
  apply (rebuild_is_a_function_of_the_store Demo.ctx1 Demo.stale).
  - reflexivity.
  - apply sound_intro; evaluated.
Defined.

(** C9, witness: the menu for entry e1, which has a checkpoint in the
    map *)
Lemma restore_target_resolution_witness :
  let ctx := Demo.ctx [] (Some "Restore all (files + conversation)") in
  menus (session_before_branch exec "e1" ctx Demo.addedFile).2 =
  menus Demo.addedFile ++
  [["Restore all (files + conversation)"; "Conversation only (keep current files)";
    "Code only (restore files, keep conversation)"] ++
   match exec_value (findBeforeRestoreRef exec)
           (exec_state (insideWorkTreeGuard exec) Demo.addedFile) with
   | Some (Some _) => ["Undo last file rewind"]
   | _ => []
   end].
Proof.
  cbn zeta.
  refine (proj1 (proj1 (restore_target_resolution "e1"
            (Demo.ctx [] (Some "Restore all (files + conversation)")) Demo.addedFile _ _)
          "checkpoint-1000-e1" _ _)).
  - reflexivity.
  - vm_compute. reflexivity.
  - vm_compute. reflexivity.
  - reflexivity.
Defined.

(** C10, witness: the events of turn 1 while a snapshot is pending *)
Lemma later_turns_are_ignored_witness :
  let event := {| turnIndex := 1; eventTimestamp := 1700000001000 |} in
  turn_start exec event Demo.ctx1 Demo.afterTurnStart = (Normal tt, Demo.afterTurnStart) /\
  turn_end exec event Demo.ctx1 Demo.afterTurnStart = (Normal tt, Demo.afterTurnStart).
Proof.
  apply (later_turns_are_ignored {| turnIndex := 1; eventTimestamp := 1700000001000 |}).
  cbn. lia.
Defined.


(** X2, witness: the ref of entry e1 at time 1700000000000 *)
Lemma rebuild_reads_what_turn_end_writes_witness :
  matchCheckpoint "checkpoint-1700000000000-e1" = Some ("1700000000000", "e1").
Proof.
  destruct (rebuild_reads_what_turn_end_writes
              {| commitSha := "0"; timestamp := 1700000000000 |} (Demo.userEntry "e1") Demo.s0)
    as (H & _).
  - discriminate.
  - exact H.
Defined.

(** X3, witness: the checkpoint id of entry e1 *)
Lemma matchCheckpoint_decodes_witness :
  "checkpoint-1700000000000-e1" = "checkpoint-" +:+ "1700000000000" +:+ "-" +:+ "e1".
Proof.
  destruct (matchCheckpoint_decodes "checkpoint-1700000000000-e1" "1700000000000" "e1")
    as (H & _).
  - reflexivity.
  - exact H.
Defined.

(** X7, witness: the lookup after a restore finds the backup of that
    restore *)
Lemma findBeforeRestoreRef_newest_witness :
  exists b, (findBeforeRestoreRef exec Demo.restored).1 = Normal b.
Proof.
  destruct (findBeforeRestoreRef_newest Demo.restored) as (b & Hb & _).
  - apply sound_intro; evaluated.
  - by exists b.
Defined.

(** X12, witness: a session started in a directory that is not in a
    repository *)
Lemma initializeForSession_outside_witness :
  isGitRepo (exec_state (initializeForSession exec Demo.ctx1) Demo.outside) = false.
Proof.
  destruct (initializeForSession_outside Demo.ctx1 (Demo.firstTurn 1700000000000) Demo.outside)
    as (fate & _ & Hinit & _).
  - reflexivity.
  - right. reflexivity.
  - unfold exec_state. rewrite Hinit. reflexivity.
Defined.

(** X13, witness: the start of the turn of entry e1 *)
Lemma turn_start_pending_witness :
  pendingCheckpoint Demo.afterTurnStart
  = Some {| commitSha := "0"; timestamp := 1700000000000 |}.
Proof.
  destruct (turn_start_pending (Demo.firstTurn 1700000000000) Demo.ctx1 Demo.s0)
    as (_ & _ & _ & _ & H).
  - reflexivity.
  - reflexivity.
  - reflexivity.
  - apply H. apply sound_intro; evaluated.
Defined.

(** X14, witness: the end of the turn of entry e1 *)
Lemma turn_end_empties_the_slot_witness : pendingCheckpoint Demo.afterTurnEnd = None.
Proof.
  destruct (turn_end_empties_the_slot (Demo.firstTurn 1700000000000) Demo.ctx1
              Demo.afterTurnStart) as (H & _).
  - reflexivity.
  - vm_compute. reflexivity.
  - reflexivity.
  - exact H.
Defined.

(** X16, witness: the oldest of 101 turn checkpoints *)
Lemma prune_deletes_old_turn_refs_only_witness :
  let n := REF_PREFIX +:+ Demo.turnName 0 in
  let s' := exec_state (pruneCheckpoints exec) Demo.hundredAndOne in
  refs (git s') !! n = refs (git Demo.hundredAndOne) !! n \/ refs (git s') !! n = None.
Proof.
  destruct (prune_deletes_old_turn_refs_only Demo.hundredAndOne (REF_PREFIX +:+ Demo.turnName 0))
    as [H|[H _]].
  - apply wf_git_intro. evaluated.
  - left. exact H.
  - right. exact H.
Defined.

(** X18, witness: the start of a turn without a user interface *)
Lemma without_a_ui_nothing_happens_witness :
  turn_start exec (Demo.firstTurn 1700000000000) Demo.headless Demo.s0 = (Normal tt, Demo.s0).
Proof.
  destruct (without_a_ui_nothing_happens Demo.headless (Demo.firstTurn 1700000000000) "e1"
              Demo.s0) as (_ & _ & H & _).
  - reflexivity.
  - exact H.
Defined.

(** X19, witness: the files are kept when the tree is navigated to entry
    e1 *)
Lemma tree_navigation_answers_witness :
  (session_before_tree exec "e1" (Demo.ctx [] (Some "Keep current files")) Demo.addedFile).1
  = Normal Undefined.
Proof.
  destruct (tree_navigation_answers "e1" (Demo.ctx [] (Some "Keep current files"))
              Demo.addedFile) as (_ & _ & H & _).
  - reflexivity.
  - vm_compute. reflexivity.
  - rewrite H; reflexivity.
Defined.

(** X20, witness: a branch from entry e1 that keeps the files *)
Lemma branch_menu_answers_witness :
  (session_before_branch exec "e1"
     (Demo.ctx [] (Some "Conversation only (keep current files)")) Demo.addedFile).1
  = Normal Undefined.
Proof.
  destruct (branch_menu_answers "e1"
              (Demo.ctx [] (Some "Conversation only (keep current files)")) Demo.addedFile)
    as (_ & H).
  - reflexivity.
  - destruct H as (_ & H & _).
    + vm_compute. reflexivity.
    + rewrite H; reflexivity.
Defined.
